(** * pudzu: utility decorators and the nearest-neighbour map colouring

    A shallow embedding of the parts of [utils.py] and
    [dataviz/neighbours.py] that the specification talks about, with the
    properties of the specification stated and proved over it.

    - Python values are modelled by Rocq values: tuples and lists by
      [list], integers by [Z], dictionaries by [gmap].
    - Code that may raise returns a [result]; code that reads the clock,
      sleeps or calls a stateful function threads a world explicitly.
    - numpy arrays of shape (H, W, C) are lists of rows of pixels, a pixel
      being the list of its channel values. *)

From Stdlib Require Import ZArith Lia.
From stdpp Require Import base option list strings gmap.

(** ** Exceptions and results *)

(** The built-in exceptions the modelled code can raise. *)
Inductive exn :=
  | ValueError
  | IndexError
  | TypeError
  | NameError
  | NotImplementedError.

#[global] Instance exn_eq_dec : EqDecision exn.
Proof. solve_decision. Defined.

(** Outcome of a call: a value, or a raised exception of type [E]. *)
Inductive result (E A : Type) :=
  | Ok (a : A)
  | Raise (e : E).
Arguments Ok {E A} a.
Arguments Raise {E A} e.

Definition rbind {E A B} (m : result E A) (k : A → result E B) : result E B :=
  match m with
  | Ok a => k a
  | Raise e => Raise e
  end.

Notation "x ←! m ; k" := (rbind m (fun x => k))
  (at level 20, m at level 100, k at level 200, right associativity,
   format "x  ←!  m ;  '/' k").

(** ** Python sequence primitives *)

Module Py.

Section Sequences.
Context {A : Type}.

(** [len(t)] as a Python integer. *)
Definition len (t : list A) : Z := Z.of_nat (length t).

(** A negative index counts from the end. *)
Definition wrap (t : list A) (i : Z) : Z :=
  if (i <? 0)%Z then (i + len t)%Z else i.

(** [t[i]]: [None] stands for IndexError. *)
Definition getitem (t : list A) (i : Z) : option A :=
  if ((- len t <=? i) && (i <? len t))%Z
  then t !! Z.to_nat (wrap t i)
  else None.

(** One bound of a slice [t[a:b]]: a missing bound takes its default, a
    negative one is offset by the length, and the result is clamped to
    [0 .. len t]. *)
Definition slice_bound (t : list A) (dflt : Z) (b : option Z) : Z :=
  match b with
  | None => dflt
  | Some i => Z.max 0 (Z.min (len t) (wrap t i))
  end.

(** [t[start:stop]] with step 1. *)
Definition slice (t : list A) (start stop : option Z) : list A :=
  let lo := slice_bound t 0%Z start in
  let hi := slice_bound t (len t) stop in
  take (Z.to_nat (hi - lo)) (drop (Z.to_nat lo) t).

(** [t.index(x)]: the first position of [x], ValueError when absent. *)
Fixpoint index `{EqDecision A} (t : list A) (x : A) : result exn nat :=
  match t with
  | [] => Raise ValueError
  | y :: t' => if decide (y = x) then Ok 0
               else k ←! index t' x; Ok (S k)
  end.

(** [t[k]] for an index that is known not to be negative. *)
Definition getitem_nat (t : list A) (k : nat) : result exn A :=
  match t !! k with
  | Some x => Ok x
  | None => Raise IndexError
  end.

End Sequences.

End Py.

(** ** utils.py *)

Module Utils.

(** *** update_sequence *)

(** [update_sequence(s, n, x)]: [tuple(s)] is the list itself. *)
Definition update_sequence {A} (s : list A) (n : Z) (x : A)
  : result exn (list A) :=
  let t := s in
  if ((- Py.len t <=? n) && (n <? Py.len t))%Z then
    Ok (Py.slice t (Some 0%Z) (Some n)
        ++ [x]
        ++ Py.slice t (Some (n + 1)%Z) (if (n =? -1)%Z then Some 0%Z else None))
  else Raise IndexError.

(** *** Signatures: number_of_args, all_keyword_args *)

(** [inspect.Parameter.kind]. *)
Inductive param_kind :=
  | POSITIONAL_ONLY
  | POSITIONAL_OR_KEYWORD
  | VAR_POSITIONAL
  | KEYWORD_ONLY
  | VAR_KEYWORD.

#[global] Instance param_kind_eq_dec : EqDecision param_kind.
Proof. solve_decision. Defined.

Record parameter := mk_parameter { name : string; kind : param_kind }.

(** Built-in operators: [inspect.signature] raises ValueError on them. *)
Inductive builtin :=
  | b_len | op_not_ | op_truth | op_abs | op_index | op_inv | op_invert
  | op_neg | op_pos
  | op_lt | op_le | op_gt | op_ge | op_eq | op_ne | op_is_ | op_is_not
  | op_add | op_and_ | op_floordiv | op_lshift | op_mod | op_mul | op_or_
  | op_pow | op_rshift | op_sub | op_truediv | op_xor | op_concat
  | op_contains | op_countOf | op_delitem | op_getitem | op_indexOf
  | op_setitem
  | other_builtin (qualname : string).

#[global] Instance builtin_eq_dec : EqDecision builtin.
Proof. solve_decision. Defined.

(** What the decorators can tell about a callable: a function with a
    signature, a decorated function (it has [__wrapped__]), or a built-in. *)
Inductive callable :=
  | Function (parameters : list parameter)
  | Decorated (wrapped : callable)
  | Builtin (b : builtin).

Definition UNARY_OPS : list builtin :=
  [b_len; op_not_; op_truth; op_abs; op_index; op_inv; op_invert; op_neg; op_pos].
Definition BINARY_OPS : list builtin :=
  [op_lt; op_le; op_gt; op_ge; op_eq; op_ne; op_is_; op_is_not; op_add;
   op_and_; op_floordiv; op_lshift; op_mod; op_mul; op_or_; op_pow;
   op_rshift; op_sub; op_truediv; op_xor; op_concat; op_contains;
   op_countOf; op_delitem; op_getitem; op_indexOf].
Definition TERNARY_OPS : list builtin := [op_setitem].

Definition is_kind (k : param_kind) (p : parameter) : bool :=
  bool_decide (kind p = k).

Definition is_positional (p : parameter) : bool :=
  bool_decide (kind p ∈ [POSITIONAL_ONLY; POSITIONAL_OR_KEYWORD]).

Definition is_keyword (p : parameter) : bool :=
  bool_decide (kind p ∈ [KEYWORD_ONLY; POSITIONAL_OR_KEYWORD]).

(** [number_of_args(fn)]: [None] when the number is variable. *)
Fixpoint number_of_args (fn : callable) : result exn (option nat) :=
  match fn with
  | Decorated wrapped => number_of_args wrapped
  | Function parameters =>
      if existsb (is_kind VAR_POSITIONAL) parameters then Ok None
      else Ok (Some (length (filter (λ p, is_positional p = true) parameters)))
  | Builtin b =>
      if bool_decide (b ∈ UNARY_OPS) then Ok (Some 1)
      else if bool_decide (b ∈ BINARY_OPS) then Ok (Some 2)
      else if bool_decide (b ∈ TERNARY_OPS) then Ok (Some 3)
      else Raise NotImplementedError
  end.

(** [all_keyword_args(fn)]: [None] when any keyword is accepted. The table
    BUILTINS is empty, so a built-in has no keyword arguments. *)
Fixpoint all_keyword_args (fn : callable) : result exn (option (list string)) :=
  match fn with
  | Decorated wrapped => all_keyword_args wrapped
  | Function parameters =>
      if existsb (is_kind VAR_KEYWORD) parameters then Ok None
      else Ok (Some (name <$> filter (λ p, is_keyword p = true) parameters))
  | Builtin b => Ok (Some [])
  end.

(** *** ignoring_extra_args *)

Section IgnoringExtraArgs.
Context {V R : Type}.

(** What calling the callable on positional and keyword arguments does. *)
Variable call : callable → list V → gmap string V → R.

(** The predicate handed to [keyfilter]. *)
Definition keep_key (kwa : option (list string)) (k : string) : bool :=
  match kwa with
  | None => true
  | Some names => bool_decide (k ∈ names)
  end.

(** [toolz.keyfilter(pred, d)]. *)
Definition keyfilter (pred : string → bool) (d : gmap string V) : gmap string V :=
  filter (λ kv, pred kv.1 = true) d.

(** The arguments the wrapper hands on: [args[0:n]] and the filtered
    keywords. *)
Definition passed_args (n : option nat) (args : list V) : list V :=
  Py.slice args (Some 0%Z) (Z.of_nat <$> n).

Definition passed_kwargs (kwa : option (list string)) (kwargs : gmap string V)
  : gmap string V :=
  keyfilter (keep_key kwa) kwargs.

(** [ignoring_extra_args(fn)]: decorating computes [n] and [kwa] once (and
    may raise); the result is the wrapper. *)
Definition ignoring_extra_args (fn : callable)
  : result exn (list V → gmap string V → R) :=
  n ←! number_of_args fn;
  kwa ←! all_keyword_args fn;
  Ok (λ args kwargs, call fn (passed_args n args) (passed_kwargs kwa kwargs)).

End IgnoringExtraArgs.

(** The signature that [inspect.signature] reports, following
    [__wrapped__]; a built-in has none. *)
Fixpoint signature (fn : callable) : option (list parameter) :=
  match fn with
  | Function parameters => Some parameters
  | Decorated wrapped => signature wrapped
  | Builtin _ => None
  end.

(** Python's argument binding rejects a call with TypeError when there are
    more positional arguments than positional parameters and no variadic positional
    parameter, or a keyword that names no keyword-capable parameter and no
    variadic keyword parameter. *)
Definition excess_positional {V} (ps : list parameter) (args : list V) : bool :=
  negb (existsb (is_kind VAR_POSITIONAL) ps)
  && (length (filter (λ p, is_positional p = true) ps) <? length args).

Definition unexpected_keyword {V} (ps : list parameter) (kwargs : gmap string V) : bool :=
  negb (existsb (is_kind VAR_KEYWORD) ps)
  && bool_decide (∃ k, k ∈ dom kwargs
                       ∧ k ∉ name <$> filter (λ p, is_keyword p = true) ps).

(** *** with_retries *)

(** How a call of the wrapper ends. [Unfinished] is not a Python outcome:
    it marks a run that was cut off after the given number of rounds of an
    unbounded loop. *)
Inductive outcome (E V : Type) :=
  | Returned (v : V)
  | ReturnedNone
  | Raised (e : E)
  | OverflowError
  | Unfinished.
Arguments Returned {E V} v.
Arguments ReturnedNone {E V}.
Arguments Raised {E V} e.
Arguments OverflowError {E V}.
Arguments Unfinished {E V}.

Section WithRetries.
Context {W V E : Type}.

(** The call of [fn] on the arguments at hand: it acts on the world. *)
Variable fn : W → result E V * W.
(** [datetime.datetime.now()], [sleep(d)], and the range of [datetime];
    instants and durations count microseconds. *)
Variable now : W → Z.
Variable sleep : Z → W → W.
Variable datetime_min datetime_max : Z.

Variable max_retries : option Z.
Variable max_duration : option Z.
Variable interval : Z.
(** [except exceptions]: the exceptions that are handled. *)
Variable exceptions : E → bool.

(** The body of the [for] loop over the values [ixs] of [i]; [at_end] is
    what happens when the iterator is exhausted. The number of calls of
    [fn] is counted along. *)
Fixpoint attempts (ixs : list nat) (at_end : outcome E V) (calls : nat) (w : W)
  : outcome E V * nat * W :=
  match ixs with
  | [] => (at_end, calls, w)
  | i :: rest =>
      match fn w with
      | (Ok v, w') => (Returned v, S calls, w')
      | (Raise e, w') =>
          if exceptions e then
            if bool_decide (Some (Z.of_nat i + 1)%Z = max_retries)
            then (Raised e, S calls, w')
            else if (now w' >? datetime_max)%Z
                 then (Raised e, S calls, w')
                 else attempts rest at_end (S calls) (sleep interval w')
          else (Raised e, S calls, w')
      end
  end.

(** [end_time]: [None] stands for the OverflowError of a sum outside the
    range of [datetime]. *)
Definition end_time (w : W) : option Z :=
  match max_duration with
  | None => Some datetime_max
  | Some d =>
      let t := (now w + d)%Z in
      if ((datetime_min <=? t) && (t <=? datetime_max))%Z then Some t else None
  end.

(** The wrapper. [range(max_retries)] is the list of its values, after
    which the function falls off its end and returns [None];
    [itertools.count()] is cut off after [fuel] values. *)
Definition with_retries (fuel : nat) (w : W) : outcome E V * nat * W :=
  match end_time w with
  | None => (OverflowError, 0, w)
  | Some end_time =>
      match max_retries with
      | None => attempts (seq 0 fuel) Unfinished 0 w
      | Some n => attempts (seq 0 (Z.to_nat n)) ReturnedNone 0 w
      end
  end.

End WithRetries.

(** [k] applications of [f], the first one innermost. *)
Fixpoint iterate {A} (f : A → A) (k : nat) (a : A) : A :=
  match k with
  | 0 => a
  | S k' => iterate f k' (f a)
  end.

(** The world in which the wrapper calls again after a failed call that
    left the world [step w]: it has slept for the interval. *)
Definition next_try {W} (sleep : Z → W → W) (interval : Z) (step : W → W) (w : W) : W :=
  sleep interval (step w).

(** *** Data for the examples *)

(** The range of [datetime] in microseconds from [datetime.min]:
    3652059 days. *)
Definition datetime_min_us : Z := 0.
Definition datetime_max_us : Z := 3652059 * 86400 * 1000000 - 1.

(** A world that is just the clock, a function that fails at once on every
    call, and a function that fails on its first two calls; between two
    calls the wrapper sleeps, which moves the clock. *)
Definition clock_now (t : Z) : Z := Z.min t datetime_max_us.
Definition clock_sleep (d t : Z) : Z := (t + d)%Z.
Definition always_failing (t : Z) : result exn string * Z := (Raise ValueError, t).
Definition failing_twice (t : Z) : result exn string * Z :=
  if (t <? 1000000)%Z then (Raise ValueError, t) else (Ok "done", t).
Definition any_exception (e : exn) : bool := true.

(** A callable for the examples reports the arguments it was given. *)
Definition report_call (fn : callable) (args : list Z) (kwargs : gmap string Z)
  : list Z * gmap string Z := (args, kwargs).

(** [def f(a, *rest)] and [def g(a, b=0)]. *)
Definition f_var_positional : callable :=
  Function [mk_parameter "a" POSITIONAL_OR_KEYWORD; mk_parameter "rest" VAR_POSITIONAL].
Definition g_two_args : callable :=
  Function [mk_parameter "a" POSITIONAL_OR_KEYWORD; mk_parameter "b" POSITIONAL_OR_KEYWORD].

(** *** remove_duplicates *)

Section OrderedDict.
Context {K A : Type} `{EqDecision K}.

(** An OrderedDict is the list of its items in the order of insertion,
    with no key twice. [k in d], [del d[k]] (which the code guards by
    [k in d]), [d[k] = x] and [d.values()]. *)
Definition od_contains (d : list (K * A)) (k : K) : bool :=
  bool_decide (k ∈ d.*1).

Definition od_del (d : list (K * A)) (k : K) : list (K * A) :=
  filter (λ kv, kv.1 ≠ k) d.

Definition od_set (d : list (K * A)) (k : K) (x : A) : list (K * A) :=
  if od_contains d k
  then (λ kv : K * A, if decide (kv.1 = k) then (k, x) else kv) <$> d
  else d ++ [(k, x)].

Definition od_values (d : list (K * A)) : list A := d.*2.

(** The body of the loop of [remove_duplicates]. *)
Definition remove_duplicates_step (key : A → K) (keep_last : bool)
    (d : list (K * A)) (x : A) : list (K * A) :=
  let k := key x in
  let d := if keep_last && od_contains d k then od_del d k else d in
  if keep_last || negb (od_contains d k) then od_set d k x else d.

(** [remove_duplicates(seq, key, keep_last)]. *)
Definition remove_duplicates (key : A → K) (keep_last : bool) (seq : list A)
  : list A :=
  od_values (fold_left (remove_duplicates_step key keep_last) seq []).

End OrderedDict.

(** *** Generators *)

(** The loop of [generate_batches] on what is left of the source. It goes
    on until a slice comes out empty; [None] marks a run cut off after
    [fuel] rounds. *)
Fixpoint batches_loop {A} (fuel : nat) (sourceiter : list A) (batch_size : nat)
  : option (list (list A)) :=
  match fuel with
  | 0 => None
  | S fuel' =>
      let slice := take batch_size sourceiter in
      if decide (length slice = 0) then Some []
      else batches ← batches_loop fuel' (drop batch_size sourceiter) batch_size;
           Some (slice :: batches)
  end.

(** [generate_batches(iterable, batch_size)]: the batches it yields.
    [islice] refuses a negative size with ValueError, before anything is
    yielded. *)
Definition generate_batches {A} (fuel : nat) (iterable : list A) (batch_size : Z)
  : option (result exn (list (list A))) :=
  if (batch_size <? 0)%Z then Some (Raise ValueError)
  else bs ← batches_loop fuel iterable (Z.to_nat batch_size); Some (Ok bs).

(** [zip] applied to the lists [ls]: the tuples of the elements at one position, up to the
    length of the shortest list; nothing for no list at all. *)
Fixpoint zip_star {A} (ls : list (list A)) : list (list A) :=
  match ls with
  | [] => []
  | l :: ls' =>
      match ls' with
      | [] => (λ x, [x]) <$> l
      | _ => zip_with cons l (zip_star ls')
      end
  end.

(** [generate_ngrams(iterable, n)]: [tee] makes [n] iterators (ValueError
    for a negative [n]), the one of index [i] is advanced by [i], and
    they are zipped. *)
Definition generate_ngrams {A} (iterable : list A) (n : Z)
  : result exn (list (list A)) :=
  if (n <? 0)%Z then Raise ValueError
  else Ok (zip_star ((λ i, drop i iterable) <$> seq 0 (Z.to_nat n))).

(** [itertools.product(xs, ys)] and [range(n)]. *)
Definition product {A B} (xs : list A) (ys : list B) : list (A * B) :=
  x ← xs; y ← ys; [(x, y)].

Definition range (n : Z) : list Z := Z.of_nat <$> seq 0 (Z.to_nat n).

(** [repeat_each(iterable, repeats)]. *)
Definition repeat_each {A} (iterable : list A) (repeats : Z) : list A :=
  fst <$> product iterable (range repeats).

(** *** merge_dicts *)

Section MergeDicts.
Context {K V : Type} `{Countable K}.

(** [toolz.merge_with] applied to [list] and the dicts: under every key, the list of the
    values the dicts have for it, in the order of the dicts. *)
Definition merge_with_list (dicts : list (gmap K V)) : gmap K (list V) :=
  fold_left (λ (result : gmap K (list V)) (d : gmap K V),
               union_with (λ vs v, Some (vs ++ v)) result ((λ v, [v]) <$> d))
            dicts ∅.

(** The default [merge_fn] returns [vs[-1]]; [None] stands for the
    exception of a merge function. *)
Definition default_merge_fn (k : K) (vs : list V) : option V := last vs.

(** [item_map] of [merge_dicts], on the value of a key. *)
Definition item_map (merge_fn : K → list V → option V) (k : K) (vs : list V)
  : option V :=
  if decide (length vs = 1) then head vs else merge_fn k vs.

(** [merge_dicts] of the dicts with a merge function: [None] when the merge
    function raises for some key. *)
Definition merge_dicts (merge_fn : K → list V → option V)
    (dicts : list (gmap K V)) : option (gmap K V) :=
  let merged := merge_with_list dicts in
  if decide (map_Forall (λ k vs, is_Some (item_map merge_fn k vs)) merged)
  then Some (map_imap (item_map merge_fn) merged)
  else None.

End MergeDicts.

(** *** papply, artial *)

Section Papply.
Context {V R : Type}.

(** The call of [func] on positional and keyword arguments. *)
Variable func : list V → gmap string V → R.

(** The loop of [newfunc] over [args], in which [None] is [Ellipsis]:
    [newargs] grows and [i] counts the arguments taken from [fargs]. *)
Fixpoint papply_fill (args : list (option V)) (fargs : list V)
    (newargs : list V) (i : nat) : result exn (list V * nat) :=
  match args with
  | [] => Ok (newargs, i)
  | None :: args' =>
      match fargs !! i with
      | Some v => papply_fill args' fargs (newargs ++ [v]) (S i)
      | None => Raise IndexError
      end
  | Some arg :: args' => papply_fill args' fargs (newargs ++ [arg]) i
  end.

(** The function that [papply] returns for [func], [args] and [kwargs],
    called on [fargs] and [fkwargs]; the keywords of the call update a
    copy of those of the partial application. *)
Definition papply (args : list (option V)) (kwargs : gmap string V)
    (fargs : list V) (fkwargs : gmap string V) : result exn R :=
  let min_args := length (filter (λ x, x = None) args) in
  if decide (length fargs < min_args) then Raise TypeError
  else
    let newkwargs := fkwargs ∪ kwargs in
    filled ←! papply_fill args fargs [] 0;
    Ok (func (filled.1 ++ drop filled.2 fargs) newkwargs).

(** The function that [artial] returns, called on [fargs] and [fkwargs]. *)
Definition artial (args : list V) (kwargs : gmap string V)
    (fargs : list V) (fkwargs : gmap string V) : result exn R :=
  match fargs with
  | [] => Raise TypeError
  | first :: _ =>
      let newkwargs := fkwargs ∪ kwargs in
      let rargs := args ++ drop 1 fargs in
      Ok (func (first :: rargs) newkwargs)
  end.

End Papply.

(** *** CaseInsensitiveDict *)

Inductive key_error := KeyError.

(** The two dicts of a [CaseInsensitiveDict] made with the default
    [base_factory=dict]: the values and the spellings, both under the
    normalized keys. *)
Record CaseInsensitiveDict (V : Type) := mk_cid {
  _d : gmap string V;
  _k : gmap string string
}.
Arguments mk_cid {V} _ _.
Arguments _d {V} _.
Arguments _k {V} _.

Section CaseInsensitive.
Context {V : Type}.
Variable normalize : string → string.

(** [self[k]]: a plain dict raises KeyError for a missing key, so the part
    of the method for dicts with defaults is never reached. *)
Definition cid_getitem (self : CaseInsensitiveDict V) (k : string)
  : result key_error V :=
  match _d self !! normalize k with
  | Some v => Ok v
  | None => Raise KeyError
  end.

(** [self[k] = v]. *)
Definition cid_setitem (self : CaseInsensitiveDict V) (k : string) (v : V)
  : CaseInsensitiveDict V :=
  mk_cid (<[normalize k := v]> (_d self)) (<[normalize k := k]> (_k self)).

(** [del self[k]]: the two deletions one after the other, each raising
    KeyError for a missing key; the object is returned as it is left. *)
Definition cid_delitem (self : CaseInsensitiveDict V) (k : string)
  : result key_error unit * CaseInsensitiveDict V :=
  match _d self !! normalize k with
  | None => (Raise KeyError, self)
  | Some _ =>
      let self1 := mk_cid (delete (normalize k) (_d self)) (_k self) in
      match _k self1 !! normalize k with
      | None => (Raise KeyError, self1)
      | Some _ =>
          (Ok (), mk_cid (_d self1) (delete (normalize k) (_k self1)))
      end
  end.

(** [len(self)]. *)
Definition cid_len (self : CaseInsensitiveDict V) : nat := size (_d self).

(** [CaseInsensitiveDict(d)] for an iterable of pairs. *)
Definition cid_init (d : list (string * V)) : CaseInsensitiveDict V :=
  fold_left (λ self kv, cid_setitem self kv.1 kv.2) d (mk_cid ∅ ∅).

End CaseInsensitive.

(** A function that reports its arguments, for the examples. *)
Definition report_args (args : list Z) (kwargs : gmap string Z)
  : list Z * gmap string Z := (args, kwargs).

(** The arguments of a partial application as [papply] reads them, when a
    value is [None] for [Ellipsis] or [Some v] for any other value: the
    test [arg is Ellipsis] makes a placeholder of each [Ellipsis]. *)
Definition as_placeholders {V} (args : list (option V))
  : list (option (option V)) :=
  (λ arg, match arg with None => None | Some v => Some (Some v) end) <$> args.

(** The same for arguments that may be [Ellipsis]. *)
Definition report_values (args : list (option Z)) (kwargs : gmap string (option Z))
  : list (option Z) * gmap string (option Z) := (args, kwargs).

(** A lower-casing of the letters a, b, c, for the examples. *)
Definition lower_abc (s : string) : string :=
  if decide (s = "A") then "a" else if decide (s = "B") then "b"
  else if decide (s = "C") then "c" else s.

(** *** cached_property *)

(** The two attributes that [cached_property] keeps on the owning object;
    [None] for an attribute the object does not have yet. *)
Record cache_obj (V : Type) := mk_cache_obj {
  _property_cache_expiry_times : option (gmap string Z);
  _property_cache_values : option (gmap string V)
}.
Arguments mk_cache_obj {V} _ _.
Arguments _property_cache_expiry_times {V} _.
Arguments _property_cache_values {V} _.

(** What can be raised while the property is read: an exception of the
    wrapped function, the OverflowError of an expiry time outside the range
    of [datetime], or the KeyError of a value that is not in its table. *)
Inductive cache_error (E : Type) :=
  | FnRaised (e : E)
  | ExpiryOverflow
  | ValueMissing.
Arguments FnRaised {E} e.
Arguments ExpiryOverflow {E}.
Arguments ValueMissing {E}.

Section CachedProperty.
Context {W V E : Type}.

(** [self.fn(obj)]: it acts on the world. *)
Variable fn : W → result E V * W.
Variable now : W → Z.
Variable datetime_min datetime_max : Z.
(** [self.name] and [self.expires_after], in microseconds. *)
Variable name : string.
Variable expires_after : option Z.

(** [__get__(obj)], for an object that is not [None]. The result comes
    with the object and the world as they are left and with the number of
    calls of the wrapped function. *)
Definition cached_property_get (obj : cache_obj V) (w : W)
  : result (cache_error E) V * cache_obj V * W * nat :=
  let times := default ∅ (_property_cache_expiry_times obj) in
  let values := default ∅ (_property_cache_values obj) in
  let stale := match times !! name with
               | None => true
               | Some t => (now w >? t)%Z
               end in
  if stale then
    match fn w with
    | (Raise e, w1) => (Raise (FnRaised e), mk_cache_obj (Some times) (Some values), w1, 1)
    | (Ok v, w1) =>
        let values := <[name := v]> values in
        match expires_after with
        | None =>
            (Ok v, mk_cache_obj (Some (<[name := datetime_max]> times)) (Some values),
             w1, 1)
        | Some d =>
            let t := (now w1 + d)%Z in
            if ((datetime_min <=? t) && (t <=? datetime_max))%Z
            then (Ok v, mk_cache_obj (Some (<[name := t]> times)) (Some values), w1, 1)
            else (Raise ExpiryOverflow, mk_cache_obj (Some times) (Some values), w1, 1)
        end
    end
  else
    match values !! name with
    | Some v => (Ok v, mk_cache_obj (Some times) (Some values), w, 0)
    | None => (Raise ValueMissing, mk_cache_obj (Some times) (Some values), w, 0)
    end.

(** [__delete__(obj)]. *)
Definition cached_property_delete (obj : cache_obj V) : cache_obj V :=
  mk_cache_obj (delete name <$> _property_cache_expiry_times obj)
               (delete name <$> _property_cache_values obj).

End CachedProperty.

(** A wrapped function for the examples: it returns the time on the clock
    and takes one second. *)
Definition clock_reading (t : Z) : result exn Z * Z := (Ok t, (t + 1000000)%Z).

(** *** riffle_shuffle *)

Section RiffleShuffle.
Context {A : Type}.

(** An element is Python's [None], or a value; [is_nan] tells the values
    that are a float nan. *)
Variable is_nan : A → bool.

Definition none_or_nan (x : option A) : bool :=
  match x with
  | None => true
  | Some a => is_nan a
  end.

(** [zip_longest] applied to [n] references to one iterator over [l]: each
    tuple takes the next [n] elements of the source, the tuple that the
    source ends in is filled up with [None], and a source that is exhausted
    at the start of a tuple ends the iteration; without any iterator
    nothing is yielded. *)
Definition zip_longest_shared (l : list (option A)) (n : nat)
  : list (list (option A)) :=
  (λ i, let chunk := take n (drop (i * n) l) in
        chunk ++ replicate (n - length chunk) None)
    <$> seq 0 ((length l + n - 1) / n).

(** [riffle_shuffle(iterable, n)]: the list of one iterator repeated [n]
    times is empty for [n <= 0]. *)
Definition riffle_shuffle (iterable : list (option A)) (n : Z)
  : list (option A) :=
  filter (λ x, none_or_nan x = false)
         (mjoin (zip_star (zip_longest_shared iterable (Z.to_nat n)))).

End RiffleShuffle.

(** Integers have no nan. *)
Definition no_nan (x : Z) : bool := false.

(** *** ignoring_exceptions *)

(** The [handler] argument: a callable, or any other value. *)
Inductive handler (V : Type) :=
  | HandlerValue (v : V)
  | HandlerCallable (c : callable).
Arguments HandlerValue {V} v.
Arguments HandlerCallable {V} c.

Section IgnoringExceptions.
Context {V E : Type}.

(** Calling a callable may raise; [type_error] is the TypeError of a call
    with arguments that the callable does not take. *)
Variable call : callable → list V → gmap string V → result E V.
Variable type_error : E.
Variable exceptions : E → bool.

(** [handler if callable(handler) else lambda: handler]: the lambda has no
    parameter. *)
Definition handler_callable (h : handler V) : callable :=
  match h with
  | HandlerCallable c => c
  | HandlerValue _ => Function []
  end.

(** Calling that: the lambda returns the value, and takes no argument. *)
Definition call_handler (h : handler V) (c : callable)
    (args : list V) (kwargs : gmap string V) : result E V :=
  match h with
  | HandlerCallable _ => call c args kwargs
  | HandlerValue v =>
      match args with
      | [] => if decide (size kwargs = 0) then Ok v else Raise type_error
      | _ => Raise type_error
      end
  end.

(** [ignoring_exceptions(fn, handler, exceptions)]. *)
Definition ignoring_exceptions (fn : callable) (h : handler V)
  : result exn (list V → gmap string V → result E V) :=
  handler_fn ←! ignoring_extra_args (call_handler h) (handler_callable h);
  Ok (λ args kwargs,
        match call fn args kwargs with
        | Ok v => Ok v
        | Raise e => if exceptions e then handler_fn args kwargs else Raise e
        end).

End IgnoringExceptions.

(** For the examples: a function of one argument that raises ValueError on
    a negative argument, and a handler that reports its argument. *)
Definition checked_fn : callable := Function [mk_parameter "x" POSITIONAL_OR_KEYWORD].
Definition echo_handler : callable := Function [mk_parameter "y" POSITIONAL_ONLY].
Definition call_example (c : callable) (args : list Z) (kwargs : gmap string Z)
  : result exn Z :=
  match c, args with
  | Function [p], [x] =>
      if String.eqb (name p) "y" then Ok (x + 1000)%Z
      else if (x <? 0)%Z then Raise ValueError else Ok x
  | _, _ => Raise TypeError
  end.

(** An [except IndexError] clause, for the examples. *)
Definition only_index_error (e : exn) : bool := bool_decide (e = IndexError).

(** *** delimit *)

(** [delimit(x, low, high)], on integers. *)
Definition delimit (x low high : Z) : Z := Z.max low (Z.min x high).

End Utils.

(** ** dataviz/neighbours.py *)

Module Neighbours.

(** *** Arrays *)

(** A pixel is the list of its channel values; an array of shape (H, W, C)
    and dtype uint8 is a list of rows of pixels; a boolean mask and an
    integer plane have shape (H, W). *)
Abbreviation pixel := (list Z) (only parsing).
Abbreviation ndarray := (list (list (list Z))) (only parsing).
Abbreviation mask := (list (list bool)) (only parsing).
Abbreviation plane := (list (list Z)) (only parsing).

(** The element at row [i], column [j] of a two-level list. *)
Definition at2 {A} (g : list (list A)) (i j : nat) : option A :=
  g !! i ≫= (.!! j).

(** A function applied to every element of a two-level list. *)
Definition grid_map {A B} (f : A → B) (g : list (list A)) : list (list B) :=
  (λ row : list A, f <$> row) <$> g.

(** The lengths of the rows. *)
Definition dims {A} (g : list (list A)) : list nat := length <$> g.

Definition nrows {A} (g : list (list A)) : nat := length g.

Definition ncols {A} (g : list (list A)) : nat :=
  match g with
  | row :: _ => length row
  | [] => 0
  end.

(** [a.shape[-1]]. An array without a pixel carries no channel count here;
    the loops over it then do nothing, as they do in numpy on zero
    elements. *)
Definition shape_last (a : ndarray) : nat :=
  match a with
  | (px :: _) :: _ => length px
  | _ => 0
  end.

(** [a[..., i]]. *)
Definition channel (a : ndarray) (i : nat) : plane :=
  grid_map (λ px : pixel, px !!! i) a.

(** [np.ones(a.shape[:-1], dtype=bool)]. *)
Definition ones_like (a : ndarray) : mask :=
  grid_map (λ _ : pixel, true) a.

(** [channel == c], [m1 & m2], [m1 | m2], element by element. *)
Definition plane_eq (p : plane) (c : Z) : mask :=
  grid_map (λ v : Z, (v =? c)%Z) p.

Definition mask_and (m1 m2 : mask) : mask := zip_with (zip_with andb) m1 m2.

Definition mask_or (m1 m2 : mask) : mask := zip_with (zip_with orb) m1 m2.

(** uint8 arithmetic wraps around at 256. *)
Definition u8 (v : Z) : Z := (v mod 256)%Z.

Definition b2z (b : bool) : Z := if b then 1%Z else 0%Z.

(** [a[..., i] *= m], in place on [a]: only channel [i] changes. *)
Definition imul_channel (a : ndarray) (i : nat) (m : mask) : ndarray :=
  zip_with (zip_with (λ (px : pixel) (b : bool),
                        alter (λ v, u8 (v * b2z b)) i px)) a m.

(** numpy's check of one index against an axis of length [n]: negative
    indices wrap once, anything else out of range is an IndexError. *)
Definition np_index (n : nat) (i : Z) : result exn nat :=
  if ((- Z.of_nat n <=? i) && (i <? Z.of_nat n))%Z
  then Ok (Z.to_nat (if (i <? 0)%Z then i + Z.of_nat n else i)%Z)
  else Raise IndexError.

(** [mapM] for [result]. *)
Fixpoint rmapM {E A B} (f : A → result E B) (l : list A) : result E (list B) :=
  match l with
  | [] => Ok []
  | x :: l' => y ←! f x; ys ←! rmapM f l'; Ok (y :: ys)
  end.

(** [a[x, y]] for one pair of indices. *)
Definition take2 (a : ndarray) (x y : Z) : result exn pixel :=
  i ←! np_index (nrows a) x;
  j ←! np_index (ncols a) y;
  match at2 a i j with
  | Some px => Ok px
  | None => Raise IndexError
  end.

(** [a[indx, indy]]: advanced indexing with two index arrays of one shape;
    the result is a new array of that shape. *)
Definition fancy_index (a : ndarray) (indx indy : plane) : result exn ndarray :=
  rmapM (rmapM (λ xy : Z * Z, take2 a xy.1 xy.2)) (zip_with zip indx indy).

(** [Image.fromarray(a)]: the image holds the pixel data of the array. *)
Definition Image_fromarray (a : ndarray) : ndarray := a.

(** *** Colours *)

(** A colour as the script writes it: a name, or a tuple of numbers. *)
Inductive color :=
  | ColorName (s : string)
  | ColorTuple (t : list Z).

Definition IGNORECOLOR : color := ColorName "grey".

(** *** The colouring *)

Section Colorizer.

(** [ImageColor.getrgba] is an extension of the image library made by
    another module of the repository; it is taken as given. It turns a
    colour into its channel values. *)
Variable getrgba : color → list Z.

(** [ndimage.distance_transform_edt(m, return_indices=True)], reduced to the
    index arrays [(indx, indy)] it returns. *)
Variable distance_transform_edt : mask → plane * plane.

(** [mask_by_color(nparray, color)]. *)
Definition mask_by_color (nparray : ndarray) (color : color) : mask :=
  let color := getrgba color in
  let channels : list (list (list Z)) :=
    channel nparray <$> seq 0 (shape_last nparray) in
  let mask := ones_like nparray in
  fold_left (λ (mask : list (list bool)) (cc : Z * list (list Z)),
               mask_and mask (plane_eq cc.2 cc.1))
            (zip color channels) mask.

(** The globals of the script that [country_borders] reads. *)
Variable maparray : ndarray.
Variable names : list string.
Variable palette : list color.
Variable bgcolor : color.

(** [for i in range(edtvals.shape[-1]): edtvals[...,i] *= cmask]. *)
Definition mask_channels (edtvals : ndarray) (cmask : mask) : ndarray :=
  fold_left (λ (edtvals : list (list (list Z))) (i : nat),
               imul_channel edtvals i cmask)
            (seq 0 (shape_last edtvals)) edtvals.

(** [country_borders(country)], on values. *)
Definition country_borders (country : string) : result exn ndarray :=
  k ←! Py.index names country;
  color ←! Py.getitem_nat palette k;
  let cmask := mask_by_color maparray color in
  let edtmask := mask_or (mask_or cmask (mask_by_color maparray bgcolor))
                         (mask_by_color maparray IGNORECOLOR) in
  let '(indx, indy) := distance_transform_edt edtmask in
  edtvals ←! fancy_index maparray indx indy;
  Ok (Image_fromarray (mask_channels edtvals cmask)).

End Colorizer.

(** *** The same code on a store of arrays

    numpy arrays are mutable objects. Here the uint8 arrays live in a store
    and are named by locations, which shows what [country_borders]
    allocates and what it updates in place. Boolean masks and index arrays
    are never updated and stay values. *)

Abbreviation store := (gmap nat (list (list (list Z)))) (only parsing).

Definition cmd (A : Type) : Type :=
  store → result exn A * store.

Definition ret {A} (a : A) : cmd A := λ σ, (Ok a, σ).

Definition bind {A B} (m : cmd A) (k : A → cmd B) : cmd B :=
  λ σ, match m σ with
       | (Ok a, σ') => k a σ'
       | (Raise e, σ') => (Raise e, σ')
       end.

Notation "x ←$ m ; k" := (bind m (fun x => k))
  (at level 20, m at level 100, k at level 200, right associativity,
   format "x  ←$  m ;  '/' k").

(** A computation on values, which does not touch the store. *)
Definition lift {A} (r : result exn A) : cmd A := λ σ, (r, σ).

(** Reading the array a name is bound to. *)
Definition load (l : nat) : cmd ndarray :=
  λ σ, match σ !! l with
       | Some a => (Ok a, σ)
       | None => (Raise NameError, σ)
       end.

(** A new array: it gets a location that is not in use. *)
Definition alloc (a : ndarray) : cmd nat :=
  λ σ, let l := fresh (dom σ) in (Ok l, <[l := a]> σ).

(** An update in place. *)
Definition modify (l : nat) (f : ndarray → ndarray) : cmd unit :=
  λ σ, match σ !! l with
       | Some a => (Ok (), <[l := f a]> σ)
       | None => (Raise NameError, σ)
       end.

Fixpoint for_each (ixs : list nat) (body : nat → cmd unit) : cmd unit :=
  match ixs with
  | [] => ret ()
  | i :: rest => _ ←$ body i; for_each rest body
  end.

Section ColorizerStore.

Variable getrgba : color → list Z.
Variable distance_transform_edt : mask → plane * plane.
(** [maparray] is the location of the global array. *)
Variable maparray : nat.
Variable names : list string.
Variable palette : list color.
Variable bgcolor : color.

(** [mask_by_color] reads its array and builds a new mask. *)
Definition mask_by_color_st (nparray : nat) (c : color) : cmd mask :=
  a ←$ load nparray;
  ret (mask_by_color getrgba a c).

(** Advanced indexing returns a copy, never a view: a new array. *)
Definition fancy_index_st (nparray : nat) (indx indy : plane) : cmd nat :=
  a ←$ load nparray;
  vals ←$ lift (fancy_index a indx indy);
  alloc vals.

(** [country_borders(country)], on the store. *)
Definition country_borders_st (country : string) : cmd ndarray :=
  k ←$ lift (Py.index names country);
  c ←$ lift (Py.getitem_nat palette k);
  cmask ←$ mask_by_color_st maparray c;
  bgmask ←$ mask_by_color_st maparray bgcolor;
  igmask ←$ mask_by_color_st maparray IGNORECOLOR;
  let edtmask := mask_or (mask_or cmask bgmask) igmask in
  let '(indx, indy) := distance_transform_edt edtmask in
  edtvals ←$ fancy_index_st maparray indx indy;
  a ←$ load edtvals;
  _ ←$ for_each (seq 0 (shape_last a))
                (λ i, modify edtvals (λ a, imul_channel a i cmask));
  a ←$ load edtvals;
  ret (Image_fromarray a).

End ColorizerStore.

(** *** The distance transform *)

(** The squared Euclidean distance of two pixel positions. *)
Definition sqdist (p q : nat * nat) : Z :=
  ((Z.of_nat p.1 - Z.of_nat q.1) ^ 2 + (Z.of_nat p.2 - Z.of_nat q.2) ^ 2)%Z.

(** A mask has a feature when one of its elements is false (zero). *)
Definition has_feature (m : mask) : Prop :=
  ∃ i j, at2 m i j = Some false.

(** What the code relies on from the library function.
    - The index arrays have the shape of the mask.
    - Where the mask has features, the indices at each position are those
      of a feature at the least distance from it (which one, among several
      at that distance, is left open).
    - Where the mask has no feature, the feature transform leaves every
      index pair at (-1, 0). *)
Record edt_ok (edt : mask → plane * plane) : Prop := {
  edt_shape : ∀ m,
    length <$> (edt m).1 = length <$> m ∧ length <$> (edt m).2 = length <$> m;
  edt_feature : ∀ m i j x y,
    has_feature m →
    at2 (edt m).1 i j = Some x → at2 (edt m).2 i j = Some y →
    ∃ fi fj : nat,
      x = Z.of_nat fi ∧ y = Z.of_nat fj ∧ at2 m fi fj = Some false
      ∧ ∀ gi gj, at2 m gi gj = Some false →
                 (sqdist (i, j) (fi, fj) <= sqdist (i, j) (gi, gj))%Z;
  edt_no_feature : ∀ m i j x y,
    ¬ has_feature m →
    at2 (edt m).1 i j = Some x → at2 (edt m).2 i j = Some y →
    x = (-1)%Z ∧ y = 0%Z
}.

(** A reference implementation by exhaustive search, used to run the
    examples. Among the features at the least distance it takes the first
    in row-major order. *)
Definition features (m : mask) : list (nat * nat) :=
  mjoin (imap (λ i (row : list bool),
                 mjoin (imap (λ j (b : bool), if b then [] else [(i, j)]) row))
              m).

Fixpoint nearest (p : nat * nat) (fs : list (nat * nat)) : option (nat * nat) :=
  match fs with
  | [] => None
  | q :: fs' =>
      match nearest p fs' with
      | Some r => if (sqdist p r <? sqdist p q)%Z then Some r else Some q
      | None => Some q
      end
  end.

Definition edt_search (m : mask) : plane * plane :=
  let fs := features m in
  (imap (λ i (row : list bool),
           imap (λ j (_ : bool),
                   match nearest (i, j) fs with
                   | Some q => Z.of_nat q.1
                   | None => (-1)%Z
                   end) row) m,
   imap (λ i (row : list bool),
           imap (λ j (_ : bool),
                   match nearest (i, j) fs with
                   | Some q => Z.of_nat q.2
                   | None => 0%Z
                   end) row) m).

(** *** Rasters *)

(** An array of shape (H, W, C) with channel values in the range of uint8. *)
Definition shape3 (H W C : nat) (a : ndarray) : Prop :=
  length a = H
  ∧ Forall (λ row : list (list Z),
              length row = W
              ∧ Forall (λ px : list Z,
                          length px = C
                          ∧ Forall (λ v : Z, (0 <= v < 256)%Z) px) row) a.

(** Where the colour of the nearest region can come from: a pixel that has
    neither the colour of the target, nor that of the background, nor the
    ignored colour. *)
Definition is_source (getrgba : color → list Z) (a : ndarray)
    (target bgcolor : color) (i j : nat) : Prop :=
  ∃ px, at2 a i j = Some px
        ∧ px ≠ getrgba target ∧ px ≠ getrgba bgcolor ∧ px ≠ getrgba IGNORECOLOR.

(** The pixel that the index arrays of the distance transform designate
    for position (i, j): a source at the least distance from it, or, when
    the raster has no source at all, the first pixel of the last row, which
    is where the index pair (-1, 0) points. *)
Definition propagated (getrgba : color → list Z) (a : ndarray)
    (target bgcolor : color) (i j : nat) (src : list Z) : Prop :=
  (∃ fi fj, is_source getrgba a target bgcolor fi fj
            ∧ at2 a fi fj = Some src
            ∧ ∀ gi gj, is_source getrgba a target bgcolor gi gj →
                       (sqdist (i, j) (fi, fj) <= sqdist (i, j) (gi, gj))%Z)
  ∨ ((¬ ∃ fi fj, is_source getrgba a target bgcolor fi fj)
     ∧ at2 a (length a - 1) 0 = Some src).

(** [np.zeros((H, W, C))]. *)
Definition zeros (H W C : nat) : ndarray :=
  replicate H (replicate W (replicate C 0%Z)).

(** *** Data for the examples *)

(** An instance of the colour conversion: three of the named colours of
    the image library, and tuples, which get the alpha value 255 when
    they have none. *)
Definition getrgba_ref (c : color) : list Z :=
  match c with
  | ColorName s =>
      if decide (s = "red") then [255; 0; 0; 255]%Z
      else if decide (s = "blue") then [0; 0; 255; 255]%Z
      else if decide (s = "grey") then [128; 128; 128; 255]%Z
      else [0; 0; 0; 255]%Z
  | ColorTuple [r; g; b] => [r; g; b; 255%Z]
  | ColorTuple t => t
  end.

Definition red : list Z := [255; 0; 0; 255]%Z.
Definition blue : list Z := [0; 0; 255; 255]%Z.
Definition green : list Z := [0; 128; 0; 255]%Z.
Definition zero : list Z := [0; 0; 0; 0]%Z.

(** The scenario of the specification: a 4x4 grid whose top-left 2x2 block
    is red (region A) and whose other pixels are blue (Background). *)
Definition raster_block : ndarray :=
  [ [red; red; blue; blue];
    [red; red; blue; blue];
    [blue; blue; blue; blue];
    [blue; blue; blue; blue] ].

(** Two regions, A (red) and B (green), on a blue background. *)
Definition raster_ab : ndarray :=
  [ [red; red; blue];
    [red; blue; green] ].

(** A raster that is all of region A. *)
Definition raster_a : ndarray := [ [red] ].

(** Region B on the background, without a pixel of region A. *)
Definition raster_b : ndarray := [ [green; blue] ].

(** The legend of the examples: region A is red, region B is green, and the
    background is blue. *)
Definition names_ab : list string := ["A"; "B"].
Definition palette_ab : list color := [ColorName "red"; ColorTuple [0; 128; 0]%Z].
Definition bgcolor_ab : color := ColorName "blue".

(** *** The legend of the script *)

Definition BACKGROUND : string := "Sea".

Definition MERGE : gmap string string :=
  {[ "Gibraltar" := "UK"; "Jersey" := "UK"; "Guernsey" := "UK";
     "Faroe Islands" := "Denmark" ]}.

(** [names]: the names of the rows of the legend [mapnames], in order,
    without the merged names and the background. A row is the pair of its
    name and its colour. *)
Definition names_of (mapnames : list (string * color)) : list string :=
  filter (λ n, (n ∉ dom MERGE) ∧ (n ≠ BACKGROUND)) (fst <$> mapnames).

(** [bgcolor]: the colour of the first row named as the background, [None]
    when there is no such row. *)
Definition bgcolor_of (mapnames : list (string * color)) : option color :=
  head (snd <$> filter (λ d, d.1 = BACKGROUND) mapnames).

(** [colorfn]: the colour a name of the map is painted with; [None] (no
    repainting) for the background. *)
Definition colorfn (names : list string) (palette : list color) (n : string)
  : result exn (option color) :=
  if decide (n = BACKGROUND) then Ok None
  else match MERGE !! n with
       | Some parent =>
           k ←! Py.index names parent; c ←! Py.getitem_nat palette k; Ok (Some c)
       | None =>
           k ←! Py.index names n; c ←! Py.getitem_nat palette k; Ok (Some c)
       end.

(** The region a name stands for: its entry in [MERGE], or itself. *)
Definition region_of (n : string) : string := default n (MERGE !! n).

(** A colour conversion that yields three channels, for the examples. *)
Definition getrgb_red (c : color) : list Z := [255; 0; 0]%Z.

(** A legend for the examples. *)
Definition mapnames_ex : list (string * color) :=
  [ ("Sea", ColorTuple [0; 0; 255]%Z);
    ("UK", ColorTuple [1; 1; 1]%Z);
    ("Gibraltar", ColorTuple [2; 2; 2]%Z);
    ("Denmark", ColorTuple [3; 3; 3]%Z) ].

Definition palette_ex : list color :=
  [ ColorTuple [255; 0; 0]%Z; ColorTuple [0; 128; 0]%Z ].

(** Region B, two pixels of region A, and a third region C (yellow). *)
Definition yellow : list Z := [255; 255; 0; 255]%Z.
Definition raster_abc : ndarray := [ [green; red; red; red; yellow] ].

End Neighbours.

(** ** Properties of utils.py *)

Module UtilsFacts.
Import Utils.

Lemma slice_eq {A} (t : list A) start stop (lo hi : nat) :
  Py.slice_bound t 0%Z start = Z.of_nat lo →
  Py.slice_bound t (Py.len t) stop = Z.of_nat hi →
  Py.slice t start stop = take (hi - lo) (drop lo t).
Proof.
  intros Hlo Hhi. unfold Py.slice. rewrite Hlo, Hhi.
  rewrite Nat2Z.id. f_equal. lia.
Qed.

Ltac slice_bound_tac :=
  unfold Py.slice_bound, Py.wrap, Py.len in *;
  repeat match goal with
         | |- context [(?a <? ?b)%Z] => destruct (Z.ltb_spec a b)
         end; lia.

(** The slices of [update_sequence] put together are a point update. *)
Lemma update_sequence_insert {A} (s : list A) (n : Z) (x : A) :
  (- Py.len s <= n < Py.len s)%Z →
  update_sequence s n x = Ok (<[Z.to_nat (Py.wrap s n) := x]> s).
Proof.
  intros Hn. unfold update_sequence.
  destruct (Z.leb_spec (- Py.len s) n); [|lia].
  destruct (Z.ltb_spec n (Py.len s)); [|lia]. simpl. f_equal.
  set (k := Z.to_nat (Py.wrap s n)).
  assert (Hk : k < length s) by (subst k; slice_bound_tac).
  assert (Hins : <[k:=x]> s = take k s ++ x :: drop (S k) s).
  { destruct (lookup_lt_is_Some_2 s k Hk) as [y Hy].
    rewrite <- (take_drop_middle s k y Hy) at 1.
    rewrite insert_app_r_alt; rewrite length_take; [|lia].
    replace (k - k `min` length s) with 0 by lia. done. }
  rewrite Hins. clear Hins.
  rewrite (slice_eq s (Some 0%Z) (Some n) 0 k) by (subst k; slice_bound_tac).
  rewrite drop_0, Nat.sub_0_r. f_equal. f_equal.
  destruct (Z.eqb_spec n (-1)) as [->|Hne].
  - (* last element: the tail slice is t[0:0] *)
    rewrite (slice_eq s _ _ 0 0) by slice_bound_tac.
    rewrite Nat.sub_0_r, take_0.
    symmetry. apply drop_ge. subst k. slice_bound_tac.
  - rewrite (slice_eq s _ _ (S k) (length s)) by (subst k; slice_bound_tac).
    apply take_ge. rewrite length_drop. lia.
Qed.

(** Reading a point update with a Python index. *)
Lemma getitem_insert {A} (s : list A) (k : nat) (x : A) (m : Z) :
  k < length s →
  (- Py.len s <= m < Py.len s)%Z →
  Py.getitem (<[k:=x]> s) m
  = if decide (Z.to_nat (Py.wrap s m) = k) then Some x else Py.getitem s m.
Proof.
  intros Hk Hm. unfold Py.getitem, Py.wrap, Py.len in *.
  rewrite length_insert.
  destruct (Z.leb_spec (- Z.of_nat (length s)) m); [|lia].
  destruct (Z.ltb_spec m (Z.of_nat (length s))); [|lia]. simpl.
  case_decide as Hd.
  - rewrite Hd. by apply list_lookup_insert_eq.
  - by rewrite list_lookup_insert_ne.
Qed.

(** C10: for [-len(s) <= n < len(s)], [update_sequence(s, n, x)] returns a
    tuple of the same length that holds [x] at Python index [n] and the
    element of [s] at every index denoting another position; for every
    other [n] it raises IndexError. *)
Theorem update_sequence_spec {A} (s : list A) (n : Z) (x : A) :
  ((- Py.len s <= n < Py.len s)%Z →
   ∃ t, update_sequence s n x = Ok t
        ∧ length t = length s
        ∧ Py.getitem t n = Some x
        ∧ (∀ m : Z, (- Py.len s <= m < Py.len s)%Z →
                    Py.wrap s m ≠ Py.wrap s n →
                    Py.getitem t m = Py.getitem s m)
        ∧ (∀ m : Z, Py.getitem s m = None → Py.getitem t m = None))
  ∧ (¬ (- Py.len s <= n < Py.len s)%Z →
     update_sequence s n x = Raise IndexError).
Proof.
  split.
  - intros Hn. eexists. split; [by apply update_sequence_insert|].
    assert (Hk : Z.to_nat (Py.wrap s n) < length s) by slice_bound_tac.
    split; [apply length_insert|]. split; [|split].
    + rewrite getitem_insert by done. by rewrite decide_True.
    + intros m Hm Hne. rewrite getitem_insert by done.
      rewrite decide_False; [done|]. slice_bound_tac.
    + intros m. unfold Py.getitem, Py.len. rewrite length_insert.
      destruct (_ && _) eqn:Hb; [|done].
      intros Hnone. apply lookup_ge_None in Hnone.
      apply andb_prop in Hb as [H1 H2].
      apply Z.leb_le in H1. apply Z.ltb_lt in H2.
      exfalso. revert Hnone. slice_bound_tac.
  - intros Hn. unfold update_sequence.
    destruct (Z.leb_spec (- Py.len s) n); [|done].
    destruct (Z.ltb_spec n (Py.len s)); [lia|done].
Qed.

(** The point update of [("a", "b", "c")] at index -1 and at index 0, and
    the failure at index 3. *)
Lemma update_sequence_spec_witness :
  update_sequence ["a"; "b"; "c"] (-1) "x" = Ok ["a"; "b"; "x"]
  ∧ update_sequence ["a"; "b"; "c"] 0 "x" = Ok ["x"; "b"; "c"]
  ∧ (∃ t, update_sequence ["a"; "b"; "c"] (-3) "x" = Ok t
          ∧ length t = 3 ∧ Py.getitem t (-3) = Some "x"
          ∧ Py.getitem t 1 = Some "b")
  ∧ update_sequence ["a"; "b"; "c"] 3 "x" = Raise IndexError.
Proof.
  split; [reflexivity|]. split; [reflexivity|]. split.
  - destruct (update_sequence_spec ["a"; "b"; "c"] (-3) "x") as [Hin _].
    destruct Hin as (t & Ht & Hlen & Hx & Hoth & _); [vm_compute; split; congruence|].
    exists t. split; [done|]. split; [done|]. split; [done|].
    rewrite (Hoth 1%Z); [reflexivity| |]; vm_compute; [split|]; congruence.
  - destruct (update_sequence_spec ["a"; "b"; "c"] 3 "x") as [_ Hout].
    apply Hout. vm_compute. intros [_ H]. congruence.
Defined.

(** *** with_retries *)

Section WithRetriesFacts.
Context {W V E : Type}.
Variable fn : W → result E V * W.
Variable now : W → Z.
Variable sleep : Z → W → W.
Variable datetime_min datetime_max : Z.
Variable interval : Z.
Variable exceptions : E → bool.

(** No instant lies after [datetime.max]. *)
Hypothesis now_le_max : ∀ w, (now w <= datetime_max)%Z.

Lemma now_gtb_max w : (now w >? datetime_max)%Z = false.
Proof. specialize (now_le_max w). lia. Qed.

Section AlwaysRaising.
(** A function whose every call raises a handled exception. *)
Variable exc : W → E.
Variable step : W → W.
Hypothesis fn_raises : ∀ w, fn w = (Raise (exc w), step w).
Hypothesis exc_handled : ∀ w, exceptions (exc w) = true.

Lemma attempts_all_raise (n : nat) at_end :
  ∀ k a calls w,
    a + S k = n →
    attempts fn now sleep datetime_max (Some (Z.of_nat n)) interval exceptions
             (seq a (S k)) at_end calls w
    = (Raised (exc (iterate (next_try sleep interval step) k w)), calls + S k,
       step (iterate (next_try sleep interval step) k w)).
Proof using fn_raises exc_handled now_le_max.
  induction k as [|k IH]; intros a calls w Ha.
  - simpl. rewrite fn_raises, exc_handled.
    rewrite bool_decide_true by (f_equal; lia).
    do 2 f_equal. lia.
  - change (seq a (S (S k))) with (a :: seq (S a) (S k)).
    cbn [attempts]. rewrite fn_raises, exc_handled.
    rewrite bool_decide_false by (intros [=]; lia).
    rewrite now_gtb_max.
    rewrite IH by lia. simpl. do 2 f_equal. lia.
Qed.

Lemma attempts_unbounded_raise :
  ∀ fuel a calls w,
    attempts fn now sleep datetime_max None interval exceptions
             (seq a fuel) Unfinished calls w
    = (Unfinished, calls + fuel, iterate (next_try sleep interval step) fuel w).
Proof using fn_raises exc_handled now_le_max.
  induction fuel as [|fuel IH]; intros a calls w.
  - simpl. do 2 f_equal. lia.
  - cbn [seq attempts]. rewrite fn_raises, exc_handled.
    rewrite bool_decide_false by done.
    rewrite now_gtb_max, IH. simpl. do 2 f_equal. lia.
Qed.

End AlwaysRaising.

Lemma attempts_raise_then (max_retries : option Z) i rest at_end calls w e w' :
  fn w = (Raise e, w') →
  exceptions e = true →
  Some (Z.of_nat i + 1)%Z ≠ max_retries →
  attempts fn now sleep datetime_max max_retries interval exceptions
           (i :: rest) at_end calls w
  = attempts fn now sleep datetime_max max_retries interval exceptions
             rest at_end (S calls) (sleep interval w').
Proof using now_le_max.
  intros Hfn He Hne. cbn [attempts]. rewrite Hfn, He.
  rewrite bool_decide_false by done. by rewrite now_gtb_max.
Qed.

End WithRetriesFacts.

(** C3 (amended): with [max_retries=3], a function that raises a handled
    exception on its first two calls and then succeeds yields the success
    value after exactly 3 calls; a function that always raises a handled
    exception, under [max_retries=n] with [n >= 1], has the exception of its
    last call propagated after exactly [n] calls. *)
Theorem with_retries_call_count {W V E : Type}
    (fn : W → result E V * W) (now : W → Z) (sleep : Z → W → W)
    (datetime_min datetime_max interval : Z) (exceptions : E → bool)
    (now_le_max : ∀ w, (now w <= datetime_max)%Z) :
  (∀ fuel w0 e1 w1 e2 w2 v w3,
     fn w0 = (Raise e1, w1) → exceptions e1 = true →
     fn (sleep interval w1) = (Raise e2, w2) → exceptions e2 = true →
     fn (sleep interval w2) = (Ok v, w3) →
     with_retries fn now sleep datetime_min datetime_max (Some 3%Z) None
                  interval exceptions fuel w0
     = (Returned v, 3, w3))
  ∧ (∀ fuel (n : nat) exc step w0,
       (∀ w, fn w = (Raise (exc w), step w)) →
       (∀ w, exceptions (exc w) = true) →
       1 ≤ n →
       let w := iterate (next_try sleep interval step) (n - 1) w0 in
       with_retries fn now sleep datetime_min datetime_max (Some (Z.of_nat n)) None
                    interval exceptions fuel w0
       = (Raised (exc w), n, step w)).
Proof.
  split.
  - intros fuel w0 e1 w1 e2 w2 v w3 H1 He1 H2 He2 H3.
    unfold with_retries, end_time.
    change (seq 0 (Z.to_nat 3)) with [0; 1; 2].
    rewrite (attempts_raise_then _ _ _ _ _ _ now_le_max _ _ _ _ _ _ _ _ H1 He1) by done.
    rewrite (attempts_raise_then _ _ _ _ _ _ now_le_max _ _ _ _ _ _ _ _ H2 He2) by done.
    cbn [attempts]. by rewrite H3.
  - intros fuel n exc step w0 Hfn Hexc Hn w.
    unfold with_retries, end_time. rewrite Nat2Z.id.
    destruct n as [|k]; [lia|].
    rewrite (attempts_all_raise fn now sleep datetime_max interval exceptions
               now_le_max exc step Hfn Hexc (S k)) by lia.
    subst w. replace (S k - 1) with k by lia. done.
Qed.

Lemma clock_now_le_max t : (clock_now t <= datetime_max_us)%Z.
Proof. unfold clock_now. lia. Qed.

(** The function that fails twice succeeds on the third call, one second
    after the first; the function that always fails is called three times. *)
Lemma with_retries_call_count_witness :
  with_retries failing_twice clock_now clock_sleep datetime_min_us datetime_max_us
               (Some 3%Z) None 500000 any_exception 0 0%Z
  = (Returned "done", 3, 1000000%Z)
  ∧ with_retries always_failing clock_now clock_sleep datetime_min_us datetime_max_us
                 (Some 3%Z) None 500000 any_exception 0 0%Z
    = (Raised ValueError, 3, 1000000%Z).
Proof.
  destruct (with_retries_call_count failing_twice clock_now clock_sleep
              datetime_min_us datetime_max_us 500000%Z any_exception clock_now_le_max)
    as [Hthen _].
  destruct (with_retries_call_count always_failing clock_now clock_sleep
              datetime_min_us datetime_max_us 500000%Z any_exception clock_now_le_max)
    as [_ Halways].
  split.
  - apply (Hthen 0 0%Z ValueError 0%Z ValueError 500000%Z); reflexivity.
  - apply (Halways 0 3 (λ _, ValueError) (λ t, t) 0%Z); [reflexivity|reflexivity|lia].
Defined.

(** C3, as stated, fails: under [max_retries=3] the function that always
    raises is not called [3 + 1] times. *)
Lemma with_retries_not_one_more_call :
  ¬ ∃ e w,
      with_retries always_failing clock_now clock_sleep datetime_min_us datetime_max_us
                   (Some 3%Z) None 500000 any_exception 0 0%Z
      = (Raised e, 3 + 1, w).
Proof. intros (e & w & H). vm_compute in H. congruence. Qed.

(** C4 (what the code does): without [max_retries], a function that always
    raises a handled exception is retried for ever, whatever [max_duration]
    is: after any number of rounds nothing has been raised. The deadline
    [end_time] is computed and never compared with the clock. *)
Theorem with_retries_max_duration_unused {W V E : Type}
    (fn : W → result E V * W) (now : W → Z) (sleep : Z → W → W)
    (datetime_min datetime_max interval : Z) (exceptions : E → bool)
    (max_duration : Z) (exc : W → E) (step : W → W) (fuel : nat) (w0 : W) :
  (∀ w, (now w <= datetime_max)%Z) →
  (∀ w, fn w = (Raise (exc w), step w)) →
  (∀ w, exceptions (exc w) = true) →
  (datetime_min <= now w0 + max_duration <= datetime_max)%Z →
  with_retries fn now sleep datetime_min datetime_max None (Some max_duration)
               interval exceptions fuel w0
  = (Unfinished, fuel, iterate (next_try sleep interval step) fuel w0).
Proof.
  intros Hnow Hfn Hexc Hend. unfold with_retries, end_time.
  destruct (Z.leb_spec datetime_min (now w0 + max_duration)); [|lia].
  destruct (Z.leb_spec (now w0 + max_duration) datetime_max); [|lia]. simpl.
  by rewrite (attempts_unbounded_raise fn now sleep datetime_max interval exceptions
                Hnow exc step Hfn Hexc).
Qed.

(** With [max_duration] one second and an interval of half a second, ten
    rounds take the clock to five seconds, and the wrapper is still
    retrying. *)
Lemma with_retries_max_duration_unused_witness :
  with_retries always_failing clock_now clock_sleep datetime_min_us datetime_max_us
               None (Some 1000000%Z) 500000 any_exception 10 0%Z
  = (Unfinished, 10, 5000000%Z).
Proof.
  apply (with_retries_max_duration_unused always_failing clock_now clock_sleep
           datetime_min_us datetime_max_us 500000%Z any_exception 1000000%Z
           (λ _, ValueError) (λ t, t) 10 0%Z).
  - apply clock_now_le_max.
  - reflexivity.
  - reflexivity.
  - vm_compute. split; congruence.
Defined.

(** *** ignoring_extra_args *)

Lemma number_of_args_signature fn ps :
  signature fn = Some ps →
  number_of_args fn
  = Ok (if existsb (is_kind VAR_POSITIONAL) ps then None
        else Some (length (filter (λ p, is_positional p = true) ps))).
Proof.
  induction fn as [qs|inner IH|b]; simpl; intros Hs; [|by auto|done].
  injection Hs as ->. by destruct (existsb _ _).
Qed.

Lemma all_keyword_args_signature fn ps :
  signature fn = Some ps →
  all_keyword_args fn
  = Ok (if existsb (is_kind VAR_KEYWORD) ps then None
        else Some (name <$> filter (λ p, is_keyword p = true) ps)).
Proof.
  induction fn as [qs|inner IH|b]; simpl; intros Hs; [|by auto|done].
  injection Hs as ->. by destruct (existsb _ _).
Qed.

Lemma passed_args_all {V} (args : list V) : passed_args None args = args.
Proof.
  unfold passed_args. simpl. rewrite (slice_eq args _ _ 0 (length args)).
  - rewrite drop_0. apply take_ge. lia.
  - slice_bound_tac.
  - done.
Qed.

Lemma passed_args_take {V} (n : nat) (args : list V) :
  passed_args (Some n) args = take n args.
Proof.
  unfold passed_args. simpl.
  rewrite (slice_eq args _ _ 0 (n `min` length args)) by slice_bound_tac.
  rewrite drop_0, Nat.sub_0_r.
  destruct (decide (n ≤ length args)).
  - f_equal. lia.
  - rewrite !take_ge; [done|lia|lia].
Qed.

Lemma passed_kwargs_all {V} (kwargs : gmap string V) :
  passed_kwargs None kwargs = kwargs.
Proof. unfold passed_kwargs, keyfilter. by apply map_filter_id. Qed.

Lemma passed_kwargs_lookup {V} (names : list string) (kwargs : gmap string V) k :
  passed_kwargs (Some names) kwargs !! k
  = if decide (k ∈ names) then kwargs !! k else None.
Proof.
  unfold passed_kwargs, keyfilter.
  destruct (kwargs !! k) as [v|] eqn:Hk.
  - case_decide as Hin.
    + apply map_lookup_filter_Some. split; [done|]. simpl. by apply bool_decide_eq_true.
    + apply map_lookup_filter_None. right. intros v' Hv'. simpl.
      intros Hb. by apply bool_decide_eq_true in Hb.
  - replace (if decide (k ∈ names) then None else None) with (@None V)
      by (by case_decide).
    apply map_lookup_filter_None. by left.
Qed.

(** C8 (amended): for a callable with a signature, the wrapper made by
    [ignoring_extra_args] hands on the positional and the keyword arguments
    filtered independently of each other.
    - Without a variadic positional parameter, [f] gets exactly the first
      [n] positional arguments, [n] being the number of its positional
      parameters; with one, it gets all of them.
    - Without a variadic keyword parameter, [f] gets exactly the keyword
      arguments named by its keyword-capable parameters; with one, it gets
      all of them.
    - The arguments handed on never have a positional argument too many or
      a keyword that the signature does not accept. *)
Theorem ignoring_extra_args_spec {V R : Type}
    (call : callable → list V → gmap string V → R)
    (fn : callable) (ps : list parameter) :
  signature fn = Some ps →
  let n := length (filter (λ p, is_positional p = true) ps) in
  let kwa := name <$> filter (λ p, is_keyword p = true) ps in
  ∃ wrapper args' kwargs',
    ignoring_extra_args call fn = Ok wrapper
    ∧ (∀ args kwargs, wrapper args kwargs = call fn (args' args) (kwargs' kwargs))
    ∧ (∀ args, existsb (is_kind VAR_POSITIONAL) ps = false → args' args = take n args)
    ∧ (∀ args, existsb (is_kind VAR_POSITIONAL) ps = true → args' args = args)
    ∧ (∀ kwargs k, existsb (is_kind VAR_KEYWORD) ps = false →
                   kwargs' kwargs !! k = if decide (k ∈ kwa) then kwargs !! k else None)
    ∧ (∀ kwargs, existsb (is_kind VAR_KEYWORD) ps = true → kwargs' kwargs = kwargs)
    ∧ (∀ args, excess_positional ps (args' args) = false)
    ∧ (∀ kwargs, unexpected_keyword ps (kwargs' kwargs) = false).
Proof.
  intros Hs n kwa. unfold ignoring_extra_args.
  rewrite (number_of_args_signature _ _ Hs), (all_keyword_args_signature _ _ Hs).
  simpl. eexists _, (passed_args _), (passed_kwargs _).
  split; [reflexivity|]. split; [done|].
  unfold excess_positional, unexpected_keyword.
  destruct (existsb (is_kind VAR_POSITIONAL) ps) eqn:Hvp;
    destruct (existsb (is_kind VAR_KEYWORD) ps) eqn:Hvk; simpl;
    repeat split; try done; intros;
    rewrite ?passed_args_all, ?passed_kwargs_all, ?passed_args_take,
            ?passed_kwargs_lookup; try done.
  all: try (apply Nat.ltb_ge; rewrite length_take; fold n; lia).
  all: apply bool_decide_eq_false; intros (k & Hk & Hnk);
       apply elem_of_dom in Hk as [v Hv];
       rewrite passed_kwargs_lookup in Hv; by case_decide.
Qed.

(** [g(a, b)] called through the wrapper with three positional arguments
    and a keyword it does not know gets the first two and no keyword. *)
Lemma ignoring_extra_args_spec_witness :
  ∃ wrapper,
    ignoring_extra_args report_call g_two_args = Ok wrapper
    ∧ wrapper [1; 2; 3]%Z {["z" := 9%Z]} = ([1; 2]%Z, ∅).
Proof.
  destruct (ignoring_extra_args_spec report_call g_two_args _ eq_refl)
    as (wrapper & args' & kwargs' & Hw & Hcall & Htake & _ & Hkw & _).
  exists wrapper. split; [exact Hw|].
  rewrite Hcall. unfold report_call. f_equal.
  - by rewrite Htake.
  - apply map_eq. intros k. rewrite Hkw by done.
    case_decide as Hin; [|done].
    rewrite lookup_singleton_ne; [done|].
    intros <-. apply list_elem_of_In in Hin. vm_compute in Hin.
    intuition discriminate.
Defined.

(** C8, as stated, fails: [f(a, *rest)] has a variadic positional
    parameter, and the keyword argument [z] is dropped all the same. *)
Lemma ignoring_extra_args_var_positional_filters_keywords :
  ∃ wrapper,
    ignoring_extra_args report_call f_var_positional = Ok wrapper
    ∧ wrapper [1; 2; 3]%Z {["z" := 9%Z]} = ([1; 2; 3]%Z, ∅)
    ∧ wrapper [1; 2; 3]%Z {["z" := 9%Z]}
      ≠ report_call f_var_positional [1; 2; 3]%Z {["z" := 9%Z]}.
Proof.
  eexists. split; [reflexivity|].
  assert (Hkw : passed_kwargs (Some ["a"]) ({["z" := 9%Z]} : gmap string Z) = ∅).
  { apply map_eq. intros k. rewrite passed_kwargs_lookup, lookup_empty.
    case_decide as Hin; [|done].
    apply lookup_singleton_ne. intros <-. apply list_elem_of_In in Hin.
    vm_compute in Hin. intuition discriminate. }
  simpl. unfold report_call. rewrite passed_args_all.
  change (name <$> filter _ _) with ["a"]. rewrite Hkw.
  split; [done|]. intros [=H].
Qed.

End UtilsFacts.

(** ** Properties of dataviz/neighbours.py *)

Module NeighboursFacts.
Import Neighbours.

(** *** Two-level lists *)

Lemma dims_lookup {A} (g : list (list A)) i :
  dims g !! i = length <$> g !! i.
Proof. unfold dims. apply list_lookup_fmap. Qed.

Lemma at2_Some {A} (g : list (list A)) i j x :
  at2 g i j = Some x ↔ ∃ row, g !! i = Some row ∧ row !! j = Some x.
Proof.
  unfold at2. destruct (g !! i) as [row|]; simpl.
  - split; [eauto|]. by intros (? & [= <-] & ?).
  - split; [done|]. by intros (? & ? & ?).
Qed.

Lemma at2_grid_map {A B} (f : A → B) (g : list (list A)) i j :
  at2 (grid_map f g) i j = f <$> at2 g i j.
Proof.
  unfold at2, grid_map. rewrite list_lookup_fmap.
  destruct (g !! i) as [row|]; simpl; [|done]. by rewrite list_lookup_fmap.
Qed.

Lemma at2_zip_with {A B C} (f : A → B → C) (g1 : list (list A)) (g2 : list (list B)) i j :
  at2 (zip_with (zip_with f) g1 g2) i j
  = x ← at2 g1 i j; y ← at2 g2 i j; Some (f x y).
Proof.
  unfold at2. rewrite lookup_zip_with.
  destruct (g1 !! i) as [r1|], (g2 !! i) as [r2|]; simpl; try done.
  - by rewrite lookup_zip_with.
  - by destruct (r1 !! j).
Qed.

Lemma dims_grid_map {A B} (f : A → B) (g : list (list A)) :
  dims (grid_map f g) = dims g.
Proof.
  unfold dims, grid_map. rewrite <- list_fmap_compose.
  apply list_fmap_ext. intros _ row _. simpl. apply length_fmap.
Qed.

Lemma dims_zip_with {A B C} (f : A → B → C) (g1 : list (list A)) (g2 : list (list B)) :
  dims g1 = dims g2 → dims (zip_with (zip_with f) g1 g2) = dims g1.
Proof.
  unfold dims. revert g2.
  induction g1 as [|r1 g1 IH]; intros [|r2 g2]; simpl; try done.
  intros [= Hr Hg]. f_equal; [|by apply IH].
  rewrite length_zip_with. lia.
Qed.

(** Positions exist in one grid exactly when they do in another grid of
    the same dimensions. *)
Lemma at2_is_Some_dims {A B} (g1 : list (list A)) (g2 : list (list B)) i j :
  dims g1 = dims g2 → is_Some (at2 g1 i j) → is_Some (at2 g2 i j).
Proof.
  intros Hd [x Hx]. apply at2_Some in Hx as (r1 & Hr1 & Hx).
  assert (Hl : dims g2 !! i = Some (length r1)).
  { rewrite <- Hd, dims_lookup, Hr1. done. }
  rewrite dims_lookup in Hl.
  destruct (g2 !! i) as [r2|] eqn:Hr2; [|done]. injection Hl as Hl.
  apply lookup_lt_Some in Hx.
  destruct (lookup_lt_is_Some_2 r2 j) as [y Hy]; [lia|].
  exists y. apply at2_Some. eauto.
Qed.

(** Two grids of the same dimensions that agree wherever both have an
    element are equal. *)
Lemma grid_ext {A} (g1 g2 : list (list A)) :
  dims g1 = dims g2 →
  (∀ i j x y, at2 g1 i j = Some x → at2 g2 i j = Some y → x = y) →
  g1 = g2.
Proof.
  intros Hd Hat. apply list_eq. intros i.
  pose proof (f_equal (.!! i) Hd) as Hi. simpl in Hi.
  rewrite !dims_lookup in Hi.
  destruct (g1 !! i) as [r1|] eqn:Hr1, (g2 !! i) as [r2|] eqn:Hr2; try done.
  injection Hi as Hi. f_equal. apply list_eq_same_length with (length r1); try done.
  intros j x y _ Hx Hy. apply (Hat i j); apply at2_Some; eauto.
Qed.

Lemma at2_replicate {A} (H W : nat) (x y : A) i j :
  at2 (replicate H (replicate W x)) i j = Some y → y = x.
Proof.
  intros Hy. apply at2_Some in Hy as (row & Hrow & Hy).
  apply lookup_replicate in Hrow as [-> _].
  by apply lookup_replicate in Hy as [-> _].
Qed.

Lemma dims_replicate {A} (H W : nat) (x : A) :
  dims (replicate H (replicate W x)) = replicate H W.
Proof. unfold dims. by rewrite fmap_replicate, length_replicate. Qed.

(** *** Shapes *)

Lemma shape3_dims H W C a : shape3 H W C a → dims a = replicate H W.
Proof.
  intros [<- Hrows]. unfold dims.
  induction Hrows as [|row a [Hrow _] _ IH]; [done|].
  rewrite fmap_cons. simpl. by f_equal.
Qed.

Lemma shape3_at2 H W C a i j px :
  shape3 H W C a → at2 a i j = Some px →
  i < H ∧ j < W ∧ length px = C ∧ Forall (λ v, (0 <= v < 256)%Z) px.
Proof.
  intros [<- Hrows] Hpx. apply at2_Some in Hpx as (row & Hrow & Hpx).
  rewrite Forall_lookup in Hrows. destruct (Hrows _ _ Hrow) as [<- Hpxs].
  rewrite Forall_lookup in Hpxs. destruct (Hpxs _ _ Hpx) as [<- Hv].
  apply lookup_lt_Some in Hrow. apply lookup_lt_Some in Hpx. done.
Qed.

Lemma shape3_at2_is_Some H W C a i j :
  shape3 H W C a → i < H → j < W → is_Some (at2 a i j).
Proof.
  intros [<- Hrows] Hi Hj.
  destruct (lookup_lt_is_Some_2 a i Hi) as [row Hrow].
  rewrite Forall_lookup in Hrows. destruct (Hrows _ _ Hrow) as [<- _].
  destruct (lookup_lt_is_Some_2 row j Hj) as [px Hpx].
  exists px. apply at2_Some. eauto.
Qed.

Lemma shape3_nrows_ncols H W C a :
  shape3 H W C a → 0 < H → nrows a = H ∧ ncols a = W.
Proof.
  intros [<- Hrows] HH. split; [done|].
  destruct a as [|row a]; [simpl in HH; lia|].
  apply Forall_cons in Hrows as [[<- _] _]. done.
Qed.

Lemma shape3_shape_last H W C a :
  shape3 H W C a → 0 < H → 0 < W → shape_last a = C.
Proof.
  intros [<- Hrows] HH HW.
  destruct a as [|row a]; [simpl in HH; lia|].
  apply Forall_cons in Hrows as [[<- Hpx] _].
  destruct row as [|px row]; [simpl in HW; lia|].
  apply Forall_cons in Hpx as [[<- _] _]. done.
Qed.

(** A grid is of shape (H, W, C) when it has the dimensions and all its
    pixels are right. *)
Lemma shape3_intro H W C (a : list (list (list Z))) :
  dims a = replicate H W →
  (∀ i j px, at2 a i j = Some px →
             length px = C ∧ Forall (λ v, (0 <= v < 256)%Z) px) →
  shape3 H W C a.
Proof.
  intros Hd Hpx. split.
  - apply (f_equal length) in Hd. unfold dims in Hd.
    by rewrite length_fmap, length_replicate in Hd.
  - apply Forall_lookup. intros i row Hrow. split.
    + pose proof (f_equal (.!! i) Hd) as Hi. simpl in Hi.
      rewrite dims_lookup, Hrow in Hi. symmetry in Hi.
      by apply lookup_replicate in Hi as [-> _].
    + apply Forall_lookup. intros j px Hj. apply (Hpx i j).
      apply at2_Some. eauto.
Qed.

(** *** mask_by_color *)

Section MaskByColor.
Variable getrgba : color → list Z.

Lemma mask_fold_dims (a : list (list (list Z))) :
  ∀ (cs : list Z) (ks : list nat) (m0 : list (list bool)),
    dims m0 = dims a →
    dims (fold_left (λ (m : list (list bool)) (cc : Z * list (list Z)),
                       mask_and m (plane_eq cc.2 cc.1))
                    (zip cs (channel a <$> ks)) m0)
    = dims a.
Proof.
  induction cs as [|c cs IH]; intros [|k ks] m0 Hm0; simpl; try done.
  apply IH. unfold mask_and. rewrite dims_zip_with; [done|].
  unfold plane_eq, channel. by rewrite !dims_grid_map.
Qed.

Lemma mask_by_color_dims a c : dims (mask_by_color getrgba a c) = dims a.
Proof.
  unfold mask_by_color. apply mask_fold_dims.
  unfold ones_like. apply dims_grid_map.
Qed.

Lemma mask_fold_at (a : list (list (list Z))) i j px :
  at2 a i j = Some px →
  ∀ (cs : list Z) (s : nat) (m0 : list (list bool)) (b0 : bool),
    at2 m0 i j = Some b0 →
    s + length cs ≤ length px →
    at2 (fold_left (λ (m : list (list bool)) (cc : Z * list (list Z)),
                      mask_and m (plane_eq cc.2 cc.1))
                   (zip cs (channel a <$> seq s (length cs))) m0) i j
    = Some (b0 && bool_decide (take (length cs) (drop s px) = cs)).
Proof.
  intros Hpx. induction cs as [|c cs IH]; intros s m0 b0 Hb0 Hlen.
  - simpl. by rewrite Hb0, andb_true_r.
  - simpl in Hlen. cbn [length seq fmap list_fmap zip_with fold_left].
    destruct (lookup_lt_is_Some_2 px s) as [v Hv]; [lia|].
    rewrite (IH (S s) _ (b0 && (v =? c)%Z)); [| |lia].
    + rewrite (drop_S _ _ _ Hv). cbn [take]. rewrite <- andb_assoc. do 2 f_equal.
      destruct (Z.eqb_spec v c) as [->|Hne]; simpl.
      * apply bool_decide_ext. split; [by intros ->|by intros [=]].
      * symmetry. apply bool_decide_eq_false. by intros [=].
    + unfold mask_and. rewrite at2_zip_with, Hb0. simpl.
      unfold plane_eq, channel. rewrite !at2_grid_map, Hpx. simpl.
      by rewrite (list_lookup_total_correct _ _ _ Hv).
Qed.

(** On an array of shape (H, W, C), against a colour of C channels, the
    mask is true exactly at the pixels that equal the colour. *)
Lemma mask_by_color_at H W C a c i j px :
  shape3 H W C a →
  length (getrgba c) = C →
  at2 a i j = Some px →
  at2 (mask_by_color getrgba a c) i j = Some (bool_decide (px = getrgba c)).
Proof.
  intros Ha Hc Hpx.
  destruct (shape3_at2 _ _ _ _ _ _ _ Ha Hpx) as (Hi & Hj & Hlen & _).
  unfold mask_by_color.
  rewrite (shape3_shape_last _ _ _ _ Ha) by lia.
  rewrite <- Hc at 1.
  rewrite (mask_fold_at a i j px Hpx (getrgba c) 0 _ true); [| |lia].
  - simpl. rewrite drop_0, take_ge by lia. done.
  - unfold ones_like. by rewrite at2_grid_map, Hpx.
Qed.

End MaskByColor.

(** *** The masking loop *)

Lemma imul_channel_at (ev : list (list (list Z))) k (m : list (list bool)) i j :
  at2 (imul_channel ev k m) i j
  = px ← at2 ev i j; b ← at2 m i j; Some (alter (λ v, u8 (v * b2z b)) k px).
Proof. unfold imul_channel. apply at2_zip_with. Qed.

Lemma mask_loop_dims (m : list (list bool)) :
  ∀ (ks : list nat) (ev : list (list (list Z))),
    dims ev = dims m →
    dims (fold_left (λ ev k, imul_channel ev k m) ks ev) = dims ev.
Proof.
  induction ks as [|k ks IH]; intros ev Hd; simpl; [done|].
  assert (Hstep : dims (imul_channel ev k m) = dims ev)
    by (unfold imul_channel; by apply dims_zip_with).
  rewrite IH; [done|]. by rewrite Hstep.
Qed.

Lemma mask_loop_at (m : list (list bool)) i j b :
  at2 m i j = Some b →
  ∀ (ks : list nat) (ev : list (list (list Z))),
    at2 (fold_left (λ ev k, imul_channel ev k m) ks ev) i j
    = (λ px, fold_left (λ px k, alter (λ v, u8 (v * b2z b)) k px) ks px)
      <$> at2 ev i j.
Proof.
  intros Hb. induction ks as [|k ks IH]; intros ev; simpl.
  - by destruct (at2 ev i j).
  - rewrite IH, imul_channel_at, Hb. by destruct (at2 ev i j).
Qed.

Lemma fold_alter_lookup (f : Z → Z) (t : nat) :
  ∀ (ks : list nat) (px : list Z),
    NoDup ks →
    fold_left (λ px k, alter f k px) ks px !! t
    = if decide (t ∈ ks) then f <$> px !! t else px !! t.
Proof.
  induction ks as [|k ks IH]; intros px Hnd; cbn [fold_left].
  - case_decide as Hin; [by apply elem_of_nil in Hin|done].
  - apply NoDup_cons in Hnd as [Hk Hnd]. rewrite IH by done.
    destruct (decide (t = k)) as [->|Hne].
    + rewrite list_lookup_alter_eq.
      destruct (decide (k ∈ ks)) as [?|_]; [done|].
      destruct (decide (k ∈ k :: ks)) as [_|Hnin]; [done|].
      exfalso. apply Hnin, list_elem_of_here.
    + rewrite list_lookup_alter_ne by done.
      destruct (decide (t ∈ ks)) as [Hin|Hnin];
        destruct (decide (t ∈ k :: ks)) as [Hin'|Hnin']; try done.
      * exfalso. by apply Hnin', list_elem_of_further.
      * exfalso. apply elem_of_cons in Hin' as [?|?]; done.
Qed.

(** All the channels of a pixel multiplied by the mask bit: the pixel, or
    zeros. *)
Lemma pixel_masked (b : bool) (px : list Z) :
  Forall (λ v, (0 <= v < 256)%Z) px →
  fold_left (λ px k, alter (λ v, u8 (v * b2z b)) k px) (seq 0 (length px)) px
  = if b then px else replicate (length px) 0%Z.
Proof.
  intros Hu8. apply list_eq. intros t.
  rewrite fold_alter_lookup by apply NoDup_seq.
  destruct (decide (t < length px)) as [Hlt|Hge].
  - rewrite decide_True by (apply elem_of_seq; lia).
    destruct (lookup_lt_is_Some_2 px t Hlt) as [v Hv]. rewrite Hv. simpl.
    rewrite Forall_lookup in Hu8. specialize (Hu8 _ _ Hv).
    destruct b; unfold u8, b2z.
    + by rewrite Hv, Z.mul_1_r, Z.mod_small.
    + rewrite Z.mul_0_r. symmetry. by apply lookup_replicate_2.
  - rewrite decide_False by (rewrite elem_of_seq; lia).
    rewrite (lookup_ge_None_2 px) by lia.
    destruct b; [by rewrite lookup_ge_None_2 by lia|].
    symmetry. apply lookup_replicate_None. lia.
Qed.

(** What the loop leaves at a position. *)
Lemma mask_channels_at H W C (ev : list (list (list Z))) (m : list (list bool)) i j px b :
  shape3 H W C ev →
  at2 ev i j = Some px →
  at2 m i j = Some b →
  at2 (mask_channels ev m) i j = Some (if b then px else replicate C 0%Z).
Proof.
  intros Hev Hpx Hb.
  destruct (shape3_at2 _ _ _ _ _ _ _ Hev Hpx) as (Hi & Hj & Hlen & Hu8).
  unfold mask_channels.
  rewrite (shape3_shape_last _ _ _ _ Hev) by lia.
  rewrite (mask_loop_at m i j b Hb), Hpx. simpl.
  rewrite <- Hlen. by rewrite pixel_masked.
Qed.

Lemma mask_channels_dims (ev : list (list (list Z))) (m : list (list bool)) :
  dims ev = dims m → dims (mask_channels ev m) = dims ev.
Proof. intros Hd. unfold mask_channels. by apply mask_loop_dims. Qed.

(** *** Advanced indexing *)

Lemma rmapM_Ok {E A B} (f : A → result E B) (l : list A) (l' : list B) :
  rmapM f l = Ok l' ↔ Forall2 (λ x y, f x = Ok y) l l'.
Proof.
  revert l'. induction l as [|x l IH]; intros l'; simpl.
  - split; [by intros [= <-]; constructor|by inversion 1].
  - destruct (f x) as [y|e] eqn:Hfx; simpl.
    + destruct (rmapM f l) as [ys|e] eqn:Hl; simpl.
      * split.
        -- intros [= <-]. constructor; [done|]. by apply IH.
        -- inversion 1 as [|? y' ? ys' Hy Hys]; subst.
           apply IH in Hys. congruence.
      * split; [done|]. inversion 1 as [|? y' ? ys' Hy Hys]; subst.
        apply IH in Hys. done.
    + split; [done|]. inversion 1; congruence.
Qed.

Lemma rmapM_total {E A B} (f : A → result E B) (l : list A) :
  (∀ x, x ∈ l → ∃ y, f x = Ok y) → ∃ l', rmapM f l = Ok l'.
Proof.
  induction l as [|x l IH]; intros Hf; simpl; [by eexists|].
  destruct (Hf x) as [y ->]; [apply list_elem_of_here|].
  destruct IH as [ys ->]; [|by eexists].
  intros z Hz. apply Hf. by apply list_elem_of_further.
Qed.

Lemma rmapM_Raise {E A B} (f : A → result E B) (l : list A) e :
  rmapM f l = Raise e → ∃ x, x ∈ l ∧ f x = Raise e.
Proof.
  induction l as [|x l IH]; simpl; [done|].
  destruct (f x) as [y|e'] eqn:Hfx; simpl.
  - destruct (rmapM f l) as [ys|e'] eqn:Hl; simpl; [done|].
    intros [= <-]. destruct IH as (z & Hz & Hfz); [done|].
    exists z. split; [by apply list_elem_of_further|done].
  - intros [= <-]. exists x. split; [apply list_elem_of_here|done].
Qed.

(** Mapping over a two-level list succeeds when it does on every element;
    the result has the same dimensions and holds the images. *)
Lemma grid_rmapM_ok {E A B} (f : A → result E B) (g : list (list A)) :
  (∀ i j x, at2 g i j = Some x → ∃ y, f x = Ok y) →
  ∃ g', rmapM (rmapM f) g = Ok g'
        ∧ dims g' = dims g
        ∧ ∀ i j x, at2 g i j = Some x → ∃ y, f x = Ok y ∧ at2 g' i j = Some y.
Proof.
  intros Hf.
  destruct (rmapM_total (rmapM f) g) as [g' Hg'].
  { intros row Hrow. apply list_elem_of_lookup in Hrow as [i Hi].
    apply rmapM_total. intros x Hx. apply list_elem_of_lookup in Hx as [j Hj].
    apply (Hf i j). apply at2_Some. eauto. }
  exists g'. split; [done|]. apply rmapM_Ok in Hg'. split.
  - unfold dims. clear Hf.
    induction Hg' as [|row row' g g' Hrow _ IH]; [done|].
    rewrite !fmap_cons. f_equal; [|done].
    apply rmapM_Ok in Hrow. symmetry. by eapply Forall2_length.
  - intros i j x Hx. apply at2_Some in Hx as (row & Hrow & Hx).
    destruct (Forall2_lookup_l _ _ _ _ _ Hg' Hrow) as (row' & Hrow' & Hrr).
    apply rmapM_Ok in Hrr.
    destruct (Forall2_lookup_l _ _ _ _ _ Hrr Hx) as (y & Hy & Hxy).
    exists y. split; [done|]. apply at2_Some. eauto.
Qed.

Lemma grid_rmapM_Raise {E A B} (f : A → result E B) (g : list (list A)) e :
  rmapM (rmapM f) g = Raise e → ∃ x, f x = Raise e.
Proof.
  intros Hg. apply rmapM_Raise in Hg as (row & _ & Hrow).
  apply rmapM_Raise in Hrow as (x & _ & Hx). eauto.
Qed.

Lemma np_index_nat (n k : nat) : k < n → np_index n (Z.of_nat k) = Ok k.
Proof.
  intros Hk. unfold np_index.
  destruct (Z.leb_spec (- Z.of_nat n) (Z.of_nat k)); [|lia].
  destruct (Z.ltb_spec (Z.of_nat k) (Z.of_nat n)); [|lia].
  destruct (Z.ltb_spec (Z.of_nat k) 0); [lia|]. simpl. by rewrite Nat2Z.id.
Qed.

Lemma np_index_last (n : nat) : 0 < n → np_index n (-1) = Ok (n - 1).
Proof.
  intros Hn. unfold np_index.
  destruct (Z.leb_spec (- Z.of_nat n) (-1)); [|lia].
  destruct (Z.ltb_spec (-1) (Z.of_nat n)); [|lia]. simpl. f_equal. lia.
Qed.

Lemma np_index_Raise n i e : np_index n i = Raise e → e = IndexError.
Proof. unfold np_index. destruct (_ && _); congruence. Qed.

(** Indices of a pixel of the array fetch that pixel. *)
Lemma take2_nat H W C a (i j : nat) px :
  shape3 H W C a → at2 a i j = Some px →
  take2 a (Z.of_nat i) (Z.of_nat j) = Ok px.
Proof.
  intros Ha Hpx.
  destruct (shape3_at2 _ _ _ _ _ _ _ Ha Hpx) as (Hi & Hj & _).
  destruct (shape3_nrows_ncols _ _ _ _ Ha) as [Hr Hc]; [lia|].
  unfold take2. rewrite Hr, Hc, !np_index_nat by done. simpl. by rewrite Hpx.
Qed.

(** The index pair (-1, 0) fetches the first pixel of the last row. *)
Lemma take2_last H W C a px :
  shape3 H W C a → at2 a (H - 1) 0 = Some px →
  take2 a (-1) 0 = Ok px.
Proof.
  intros Ha Hpx.
  destruct (shape3_at2 _ _ _ _ _ _ _ Ha Hpx) as (Hi & Hj & _).
  destruct (shape3_nrows_ncols _ _ _ _ Ha) as [Hr Hc]; [lia|].
  unfold take2. rewrite Hr, Hc, np_index_last by lia.
  change 0%Z with (Z.of_nat 0). rewrite (np_index_nat W 0) by done.
  simpl. by rewrite Hpx.
Qed.

Lemma take2_Raise a x y e : take2 a x y = Raise e → e = IndexError.
Proof.
  unfold take2.
  destruct (np_index (nrows a) x) as [i|e1] eqn:Hi; simpl;
    [|intros [= <-]; by eapply np_index_Raise].
  destruct (np_index (ncols a) y) as [j|e2] eqn:Hj; simpl;
    [|intros [= <-]; by eapply np_index_Raise].
  destruct (at2 a i j); congruence.
Qed.

Lemma fancy_index_Raise a indx indy e :
  fancy_index a indx indy = Raise e → e = IndexError.
Proof.
  intros Hf. apply grid_rmapM_Raise in Hf as [xy Hxy]. by eapply take2_Raise.
Qed.

(** *** The reference distance transform *)

Lemma elem_of_features (m : list (list bool)) i j :
  (i, j) ∈ features m ↔ at2 m i j = Some false.
Proof.
  unfold features. rewrite list_elem_of_join. split.
  - intros (l & Hin & Hl).
    apply elem_of_lookup_imap in Hl as (i' & row & -> & Hrow).
    apply list_elem_of_join in Hin as (l2 & Hin & Hl2).
    apply elem_of_lookup_imap in Hl2 as (j' & b & -> & Hb).
    destruct b; [by apply elem_of_nil in Hin|].
    apply list_elem_of_singleton in Hin as [= -> ->].
    apply at2_Some. eauto.
  - intros Hat. apply at2_Some in Hat as (row & Hrow & Hb).
    eexists. split; [|apply elem_of_lookup_imap; eauto].
    apply list_elem_of_join. eexists. split; [|apply elem_of_lookup_imap; eauto].
    simpl. apply list_elem_of_here.
Qed.

Lemma has_feature_features m : has_feature m ↔ features m ≠ [].
Proof.
  split.
  - intros (i & j & Hat). apply elem_of_features in Hat.
    by eapply elem_of_not_nil.
  - destruct (features m) as [|[i j] fs] eqn:Hfs; [done|]. intros _.
    exists i, j. apply elem_of_features. rewrite Hfs. apply list_elem_of_here.
Qed.

Lemma has_feature_dec m : has_feature m ∨ ¬ has_feature m.
Proof.
  rewrite has_feature_features.
  destruct (features m); [right; by intros H|left; done].
Qed.

Lemma nearest_None p fs : nearest p fs = None → fs = [].
Proof.
  destruct fs as [|q fs]; [done|]. simpl.
  destruct (nearest p fs); [by destruct (_ <? _)%Z|done].
Qed.

Lemma nearest_Some p fs q :
  nearest p fs = Some q →
  q ∈ fs ∧ ∀ r, r ∈ fs → (sqdist p q <= sqdist p r)%Z.
Proof.
  revert q. induction fs as [|q0 fs IH]; intros q; simpl; [done|].
  destruct (nearest p fs) as [r0|] eqn:Hn.
  - destruct (IH r0 eq_refl) as [Hin Hmin].
    destruct (Z.ltb_spec (sqdist p r0) (sqdist p q0)); intros [= <-].
    + split; [by apply list_elem_of_further|].
      intros r Hr. apply elem_of_cons in Hr as [->|Hr]; [lia|by apply Hmin].
    + split; [apply list_elem_of_here|].
      intros r Hr. apply elem_of_cons in Hr as [->|Hr]; [lia|].
      specialize (Hmin r Hr). lia.
  - intros [= <-]. apply nearest_None in Hn as ->.
    split; [apply list_elem_of_here|].
    intros r Hr. apply list_elem_of_singleton in Hr as ->. lia.
Qed.

Lemma at2_imap2 {A B} (h : nat → nat → B) (g : list (list A)) i j :
  at2 (imap (λ i row, imap (λ j _, h i j) row) g) i j
  = (λ _, h i j) <$> at2 g i j.
Proof.
  unfold at2. rewrite list_lookup_imap.
  destruct (g !! i) as [row|]; simpl; [|done]. by rewrite list_lookup_imap.
Qed.

Lemma dims_imap2 {A B} (h : nat → nat → B) (g : list (list A)) :
  dims (imap (λ i row, imap (λ j _, h i j) row) g) = dims g.
Proof.
  apply list_eq. intros i. rewrite !dims_lookup, list_lookup_imap.
  destruct (g !! i) as [row|]; simpl; [|done]. by rewrite length_imap.
Qed.

(** The exhaustive search meets the contract of the distance transform. *)
Lemma edt_search_ok : edt_ok edt_search.
Proof.
  split.
  - intros m. unfold edt_search. simpl. fold (dims m).
    split; apply (dims_imap2 _ m).
  - intros m i j x y Hfeat Hx Hy. unfold edt_search in Hx, Hy. simpl in Hx, Hy.
    rewrite (at2_imap2 (λ i j, match nearest (i, j) (features m) with
                               | Some q => Z.of_nat q.1 | None => (-1)%Z end)) in Hx.
    rewrite (at2_imap2 (λ i j, match nearest (i, j) (features m) with
                               | Some q => Z.of_nat q.2 | None => 0%Z end)) in Hy.
    destruct (at2 m i j) as [b|]; [|done]. simpl in Hx, Hy.
    destruct (nearest (i, j) (features m)) as [[fi fj]|] eqn:Hn.
    + apply nearest_Some in Hn as [Hin Hmin].
      injection Hx as <-. injection Hy as <-.
      exists fi, fj. split; [done|]. split; [done|].
      split; [by apply elem_of_features|].
      intros gi gj Hg. apply Hmin. by apply elem_of_features.
    + apply nearest_None in Hn. by apply has_feature_features in Hfeat.
  - intros m i j x y Hfeat Hx Hy. unfold edt_search in Hx, Hy. simpl in Hx, Hy.
    rewrite (at2_imap2 (λ i j, match nearest (i, j) (features m) with
                               | Some q => Z.of_nat q.1 | None => (-1)%Z end)) in Hx.
    rewrite (at2_imap2 (λ i j, match nearest (i, j) (features m) with
                               | Some q => Z.of_nat q.2 | None => 0%Z end)) in Hy.
    destruct (at2 m i j) as [b|]; [|done]. simpl in Hx, Hy.
    destruct (nearest (i, j) (features m)) as [q|] eqn:Hn.
    + apply nearest_Some in Hn as [Hin _]. exfalso. apply Hfeat.
      apply has_feature_features. by eapply elem_of_not_nil.
    + by injection Hx as <-; injection Hy as <-.
Qed.

(** *** country_borders *)

Section Borders.
Variable getrgba : color → list Z.
Variable edt : list (list bool) → list (list Z) * list (list Z).
Variables (H W C : nat) (a : list (list (list Z))).
Variables (names : list string) (palette : list color) (bgcolor : color).
Variables (country : string) (k : nat) (target : color).

Hypothesis edt_spec : edt_ok edt.
Hypothesis Hshape : shape3 H W C a.
Hypothesis Hindex : Py.index names country = Ok k.
Hypothesis Hpalette : palette !! k = Some target.
Hypothesis Hlen_target : length (getrgba target) = C.
Hypothesis Hlen_bg : length (getrgba bgcolor) = C.
Hypothesis Hlen_ignore : length (getrgba IGNORECOLOR) = C.

Local Abbreviation cmask := (mask_by_color getrgba a target).
Local Abbreviation edtmask :=
  (mask_or (mask_or (mask_by_color getrgba a target)
                    (mask_by_color getrgba a bgcolor))
           (mask_by_color getrgba a IGNORECOLOR)).

Lemma edtmask_dims : dims edtmask = dims a.
Proof using Type.
  unfold mask_or.
  rewrite !dims_zip_with; rewrite ?dims_zip_with;
    by rewrite ?mask_by_color_dims.
Qed.

Lemma edtmask_at i j px :
  at2 a i j = Some px →
  at2 edtmask i j
  = Some (bool_decide (px = getrgba target) || bool_decide (px = getrgba bgcolor)
          || bool_decide (px = getrgba IGNORECOLOR)).
Proof using Hshape Hlen_target Hlen_bg Hlen_ignore.
  intros Hpx. unfold mask_or. rewrite !at2_zip_with.
  rewrite !(mask_by_color_at getrgba H W C a _ i j px) by done. done.
Qed.

Lemma edtmask_source i j :
  at2 edtmask i j = Some false ↔ is_source getrgba a target bgcolor i j.
Proof using Hshape Hlen_target Hlen_bg Hlen_ignore.
  split.
  - intros Hm.
    destruct (at2_is_Some_dims edtmask a i j edtmask_dims) as [px Hpx]; [by eexists|].
    rewrite (edtmask_at _ _ _ Hpx) in Hm. injection Hm as Hm.
    apply orb_false_elim in Hm as [Hm H3]. apply orb_false_elim in Hm as [H1 H2].
    apply bool_decide_eq_false in H1, H2, H3. by exists px.
  - intros (px & Hpx & H1 & H2 & H3). rewrite (edtmask_at _ _ _ Hpx).
    by rewrite !bool_decide_false by done.
Qed.

Lemma has_feature_source :
  has_feature edtmask ↔ ∃ i j, is_source getrgba a target bgcolor i j.
Proof using Hshape Hlen_target Hlen_bg Hlen_ignore.
  unfold has_feature. by setoid_rewrite edtmask_source.
Qed.

Lemma propagated_pixel i j src :
  propagated getrgba a target bgcolor i j src →
  length src = C ∧ Forall (λ v, (0 <= v < 256)%Z) src.
Proof using Hshape.
  intros [(fi & fj & _ & Hsrc & _)|[_ Hsrc]];
    by destruct (shape3_at2 _ _ _ _ _ _ _ Hshape Hsrc) as (_ & _ & ? & ?).
Qed.

(** The index pair that the distance transform gives for a position
    fetches the propagated pixel. *)
Lemma edt_take2 indx indy i j x y :
  edt edtmask = (indx, indy) →
  at2 indx i j = Some x → at2 indy i j = Some y →
  ∃ src, take2 a x y = Ok src ∧ propagated getrgba a target bgcolor i j src.
Proof using edt_spec Hshape Hlen_target Hlen_bg Hlen_ignore.
  intros Hedt Hx Hy.
  destruct (has_feature_dec edtmask) as [Hf|Hnf].
  - destruct (edt_feature _ edt_spec edtmask i j x y Hf)
      as (fi & fj & -> & -> & Hfalse & Hmin); [by rewrite Hedt..|].
    apply edtmask_source in Hfalse as Hs. pose proof Hs as (src & Hsrc & _).
    exists src. split; [by eapply take2_nat|].
    left. exists fi, fj. split; [done|]. split; [done|].
    intros gi gj Hg. apply Hmin. by apply edtmask_source.
  - destruct (edt_no_feature _ edt_spec edtmask i j x y Hnf)
      as [-> ->]; [by rewrite Hedt..|].
    pose proof (edt_shape _ edt_spec edtmask) as [Hdx _].
    rewrite Hedt in Hdx. simpl in Hdx. fold (dims indx) (dims edtmask) in Hdx.
    destruct (at2_is_Some_dims indx a i j) as [px Hpx];
      [by rewrite Hdx, edtmask_dims|by eexists|].
    destruct (shape3_at2 _ _ _ _ _ _ _ Hshape Hpx) as (Hi & Hj & _).
    destruct (shape3_at2_is_Some _ _ _ a (H - 1) 0 Hshape) as [src Hsrc]; [lia..|].
    exists src. split; [by eapply take2_last|].
    right. split; [by rewrite <- has_feature_source|].
    destruct Hshape as [-> _]. done.
Qed.

(** What [country_borders] computes: an array of the dimensions of the
    raster that holds, at every pixel of the target's colour, the pixel
    propagated to it, and zeros at every other position. *)
Lemma country_borders_at :
  ∃ out,
    country_borders getrgba edt a names palette bgcolor country = Ok out
    ∧ dims out = dims a
    ∧ ∀ i j px, at2 a i j = Some px →
        ∃ src, propagated getrgba a target bgcolor i j src
               ∧ at2 out i j
                 = Some (if bool_decide (px = getrgba target) then src
                         else replicate C 0%Z).
Proof using edt_spec Hshape Hindex Hpalette Hlen_target Hlen_bg Hlen_ignore.
  unfold country_borders. rewrite Hindex. simpl.
  unfold Py.getitem_nat. rewrite Hpalette. simpl.
  destruct (edt edtmask) as [indx indy] eqn:Hedt.
  pose proof (edt_shape _ edt_spec edtmask) as [Hdx Hdy].
  rewrite Hedt in Hdx, Hdy. simpl in Hdx, Hdy.
  fold (dims indx) (dims edtmask) in Hdx. fold (dims indy) (dims edtmask) in Hdy.
  rewrite edtmask_dims in Hdx, Hdy.
  assert (Hdz : dims (zip_with zip indx indy) = dims a).
  { rewrite dims_zip_with; [done|]. by rewrite Hdx, Hdy. }
  assert (Hsrc : ∀ i j xy, at2 (zip_with zip indx indy) i j = Some xy →
            ∃ src, take2 a xy.1 xy.2 = Ok src
                   ∧ propagated getrgba a target bgcolor i j src).
  { intros i j [x y] Hxy. rewrite at2_zip_with in Hxy.
    destruct (at2 indx i j) as [x'|] eqn:Hx; [|done].
    destruct (at2 indy i j) as [y'|] eqn:Hy; [|done].
    simpl in Hxy. injection Hxy as -> ->. simpl. by eapply edt_take2. }
  destruct (grid_rmapM_ok (λ xy : Z * Z, take2 a xy.1 xy.2) (zip_with zip indx indy))
    as (edtvals & Hev & Hdev & Hat).
  { intros i j xy Hxy. destruct (Hsrc i j xy Hxy) as (src & ? & _). eauto. }
  rewrite Hdz in Hdev.
  unfold fancy_index. rewrite Hev. simpl. eexists. split; [reflexivity|].
  assert (Hev_at : ∀ i j v, at2 edtvals i j = Some v →
            propagated getrgba a target bgcolor i j v).
  { intros i j v Hv.
    destruct (at2_is_Some_dims edtvals (zip_with zip indx indy) i j) as [xy Hxy];
      [by rewrite Hdev, Hdz|by eexists|].
    destruct (Hat i j xy Hxy) as (y & Hy & Hy').
    destruct (Hsrc i j xy Hxy) as (src & Hs & Hp). congruence. }
  assert (Hshape_ev : shape3 H W C edtvals).
  { apply shape3_intro; [by rewrite Hdev, (shape3_dims _ _ _ _ Hshape)|].
    intros i j v Hv. eapply propagated_pixel; eauto. }
  unfold Image_fromarray. split.
  - rewrite mask_channels_dims; [done|]. by rewrite mask_by_color_dims.
  - intros i j px Hpx.
    destruct (at2_is_Some_dims a edtvals i j) as [v Hv]; [done|by eexists|].
    exists v. split; [by apply Hev_at|].
    apply (mask_channels_at H W C); [done..|].
    by apply (mask_by_color_at getrgba H W C).
Qed.

(** When no pixel has the colour of the target, the result is all zeros. *)
Lemma country_borders_empty_mask :
  (∀ i j px, at2 a i j = Some px → px ≠ getrgba target) →
  country_borders getrgba edt a names palette bgcolor country = Ok (zeros H W C).
Proof using edt_spec Hshape Hindex Hpalette Hlen_target Hlen_bg Hlen_ignore.
  intros Hnone. destruct country_borders_at as (out & -> & Hd & Hat).
  f_equal. apply grid_ext.
  - unfold zeros. by rewrite Hd, dims_replicate, (shape3_dims _ _ _ _ Hshape).
  - intros i j x y Hx Hy. apply at2_replicate in Hy as ->.
    destruct (at2_is_Some_dims out a i j) as [px Hpx]; [done|by eexists|].
    destruct (Hat i j px Hpx) as (src & _ & Hout).
    rewrite bool_decide_false in Hout by by eapply Hnone. congruence.
Qed.

End Borders.

(** *** The claims about country_borders *)

Lemma index_Raise {A} `{EqDecision A} (l : list A) (x : A) e :
  Py.index l x = Raise e → e = ValueError ∧ x ∉ l.
Proof.
  induction l as [|y l IH]; simpl.
  - intros [= <-]. split; [done|apply not_elem_of_nil].
  - case_decide as Hxy; [done|].
    destruct (Py.index l x) as [k|e'] eqn:Hl; simpl; [done|].
    intros [= <-]. destruct (IH eq_refl) as [-> Hnin]. split; [done|].
    intros Hin. apply elem_of_cons in Hin as [->|Hin]; done.
Qed.

Lemma index_Ok {A} `{EqDecision A} (l : list A) (x : A) k :
  Py.index l x = Ok k → l !! k = Some x.
Proof.
  revert k. induction l as [|y l IH]; intros k; simpl; [done|].
  case_decide as Hxy; [by intros [= <-]; subst|].
  destruct (Py.index l x) as [k'|e'] eqn:Hl; simpl; [|done].
  intros [= <-]. by apply IH.
Qed.

(** C1: on a raster whose pixels all have the colour of region A, of region
    B or of the background, none of them the ignored colour, and that has a
    pixel of B, [country_borders] for A returns an array of the dimensions
    of the raster that holds B's colour at every pixel of A and zeros at
    every other position. *)
Theorem country_borders_two_regions
    (getrgba : color → list Z)
    (edt : list (list bool) → list (list Z) * list (list Z))
    (H W C : nat) (a : list (list (list Z)))
    (names : list string) (palette : list color) (bgcolor : color)
    (A B : string) (kA kB : nat) (cA cB : color) :
  edt_ok edt →
  shape3 H W C a →
  Py.index names A = Ok kA → palette !! kA = Some cA →
  Py.index names B = Ok kB → palette !! kB = Some cB →
  length (getrgba cA) = C →
  length (getrgba bgcolor) = C →
  length (getrgba IGNORECOLOR) = C →
  getrgba cB ≠ getrgba cA →
  getrgba cB ≠ getrgba bgcolor →
  (∀ i j px, at2 a i j = Some px →
             px = getrgba cA ∨ px = getrgba cB ∨ px = getrgba bgcolor) →
  (∀ i j px, at2 a i j = Some px → px ≠ getrgba IGNORECOLOR) →
  (∃ i j, at2 a i j = Some (getrgba cB)) →
  ∃ out,
    country_borders getrgba edt a names palette bgcolor A = Ok out
    ∧ dims out = dims a
    ∧ ∀ i j px, at2 a i j = Some px →
        at2 out i j = Some (if bool_decide (px = getrgba cA) then getrgba cB
                            else replicate C 0%Z).
Proof.
  intros Hedt Hshape HA HcA _ _ HlA Hlbg Hlig HBA HBbg Hpix Hnoig (bi & bj & HB).
  destruct (country_borders_at getrgba edt H W C a names palette bgcolor A kA cA)
    as (out & Hout & Hd & Hat); try done.
  exists out. split; [done|]. split; [done|].
  intros i j px Hpx. destruct (Hat i j px Hpx) as (src & Hprop & ->).
  assert (src = getrgba cB) as ->; [|done].
  destruct Hprop as [(fi & fj & Hs & Hsrc & _)|[Hnone _]].
  - destruct Hs as (px' & Hpx' & HnA & Hnbg & _).
    assert (px' = src) as -> by congruence.
    destruct (Hpix _ _ _ Hsrc) as [?|[?|?]]; done.
  - exfalso. apply Hnone. exists bi, bj, (getrgba cB).
    split; [done|]. split; [done|]. split; [done|]. by eapply Hnoig.
Qed.

Lemma raster_ab_pixels i j px :
  at2 raster_ab i j = Some px → px = red ∨ px = green ∨ px = blue.
Proof.
  destruct i as [|[|i]]; [| |done];
    (destruct j as [|[|[|j]]]; [| | |done]); intros [= <-]; auto.
Qed.

Lemma raster_ab_shape : shape3 2 3 4 raster_ab.
Proof.
  unfold shape3, raster_ab, red, blue, green. repeat constructor; lia.
Qed.

(** On the raster with A, B and background, the three pixels of A take
    B's green and the other pixels are zero. *)
Lemma country_borders_two_regions_witness :
  country_borders getrgba_ref edt_search raster_ab names_ab palette_ab bgcolor_ab "A"
  = Ok [ [green; green; zero]; [green; zero; zero] ].
Proof.
  destruct (country_borders_two_regions getrgba_ref edt_search 2 3 4 raster_ab
              names_ab palette_ab bgcolor_ab "A" "B" 0 1
              (ColorName "red") (ColorTuple [0; 128; 0]%Z))
    as (out & Hout & Hd & Hat).
  - apply edt_search_ok.
  - apply raster_ab_shape.
  - reflexivity.
  - reflexivity.
  - reflexivity.
  - reflexivity.
  - reflexivity.
  - reflexivity.
  - reflexivity.
  - discriminate.
  - discriminate.
  - intros i j px Hpx. destruct (raster_ab_pixels i j px Hpx) as [-> | [-> | ->]]; auto.
  - intros i j px Hpx. destruct (raster_ab_pixels i j px Hpx) as [-> | [-> | ->]];
      discriminate.
  - exists 1, 2. reflexivity.
  - rewrite Hout. f_equal. apply grid_ext; [by rewrite Hd|].
    intros i j x y Hx Hy.
    destruct (at2_is_Some_dims out raster_ab i j Hd) as [px Hpx]; [by eexists|].
    rewrite (Hat i j px Hpx) in Hx. injection Hx as <-. revert Hpx Hy.
    destruct i as [|[|i]]; [| |done];
      (destruct j as [|[|[|j]]]; [| | |done]);
      intros Hp Hq; injection Hp as <-; injection Hq as <-; reflexivity.
Defined.

Lemma raster_block_pixels i j px :
  at2 raster_block i j = Some px → px = red ∨ px = blue.
Proof.
  destruct i as [|[|[|[|i]]]]; [| | | |done];
    (destruct j as [|[|[|[|j]]]]; [| | | |done]); intros [= <-]; auto.
Qed.

Lemma raster_block_shape : shape3 4 4 4 raster_block.
Proof.
  unfold shape3, raster_block, red, blue. repeat constructor; lia.
Qed.

(** C2 (amended): on the 4x4 raster whose top-left 2x2 block is red
    (region A) and whose other pixels are blue (Background),
    [country_borders] for A returns an array that is zero outside the
    block and holds the background's blue at the four pixels of the block:
    with no source in the raster, the distance transform designates the
    first pixel of the last row. *)
Theorem country_borders_block_scenario
    (edt : list (list bool) → list (list Z) * list (list Z)) :
  edt_ok edt →
  country_borders getrgba_ref edt raster_block ["A"] [ColorName "red"]
                  (ColorName "blue") "A"
  = Ok [ [blue; blue; zero; zero];
         [blue; blue; zero; zero];
         [zero; zero; zero; zero];
         [zero; zero; zero; zero] ].
Proof.
  intros Hedt.
  destruct (country_borders_at getrgba_ref edt 4 4 4 raster_block
              ["A"] [ColorName "red"] (ColorName "blue") "A" 0 (ColorName "red"))
    as (out & Hout & Hd & Hat);
    [done|apply raster_block_shape|done..|].
  rewrite Hout. f_equal. apply grid_ext; [by rewrite Hd|].
  intros i j x y Hx Hy.
  destruct (at2_is_Some_dims out raster_block i j Hd) as [px Hpx]; [by eexists|].
  destruct (Hat i j px Hpx) as (src & Hprop & Hout').
  assert (src = blue) as ->.
  { destruct Hprop as [(fi & fj & Hs & _)|[_ Hlast]].
    - destruct Hs as (px' & Hpx' & HnA & Hnbg & _).
      destruct (raster_block_pixels _ _ _ Hpx') as [-> | ->];
        [by destruct HnA|by destruct Hnbg].
    - by injection Hlast as <-. }
  rewrite Hout' in Hx. injection Hx as <-. revert Hpx Hy.
  destruct i as [|[|[|[|i]]]]; [| | | |done];
    (destruct j as [|[|[|[|j]]]]; [| | | |done]);
    intros Hp Hq; injection Hp as <-; injection Hq as <-; reflexivity.
Qed.

Lemma country_borders_block_scenario_witness :
  country_borders getrgba_ref edt_search raster_block ["A"] [ColorName "red"]
                  (ColorName "blue") "A"
  = Ok [ [blue; blue; zero; zero];
         [blue; blue; zero; zero];
         [zero; zero; zero; zero];
         [zero; zero; zero; zero] ].
Proof. apply country_borders_block_scenario. apply edt_search_ok. Defined.

(** C2, as stated, fails: the result on that raster is not all zeros. *)
Lemma country_borders_block_not_zero :
  country_borders getrgba_ref edt_search raster_block ["A"] [ColorName "red"]
                  (ColorName "blue") "A"
  ≠ Ok (zeros 4 4 4).
Proof. vm_compute. discriminate. Qed.

Lemma take2_Ok a x y px :
  take2 a x y = Ok px → ∃ i j, at2 a i j = Some px.
Proof.
  unfold take2.
  destruct (np_index (nrows a) x) as [i|e1]; simpl; [|done].
  destruct (np_index (ncols a) y) as [j|e2]; simpl; [|done].
  destruct (at2 a i j) as [px'|] eqn:Hat; [|done].
  intros [= <-]. eauto.
Qed.

(** The failure of C2 does not hang on what the distance transform returns
    for a mask without features: whatever index arrays it gives, the result
    on that raster is not the all-zero array, since the block takes the
    colour of some pixel of the raster, and none of them is zero. *)
Lemma country_borders_block_never_zero
    (edt : list (list bool) → list (list Z) * list (list Z)) :
  country_borders getrgba_ref edt raster_block ["A"] [ColorName "red"]
                  (ColorName "blue") "A"
  ≠ Ok (zeros 4 4 4).
Proof.
  unfold country_borders. simpl.
  destruct (edt _) as [indx indy].
  destruct (fancy_index raster_block indx indy) as [ev|e] eqn:Hf; simpl; [|done].
  intros [= Hz]. unfold Image_fromarray in Hz.
  pose proof (f_equal (λ g, at2 g 0 0) Hz) as H00. simpl in H00.
  unfold mask_channels in H00.
  rewrite (mask_loop_at _ 0 0 true) in H00 by reflexivity.
  destruct (at2 ev 0 0) as [v|] eqn:Hv; [|done].
  simpl in H00. injection H00 as H00.
  assert (Hlast : shape_last ev = length v).
  { apply at2_Some in Hv as (row & Hrow & Hv).
    destruct ev as [|row' ev]; [done|]. injection Hrow as ->.
    destruct row as [|v' row]; [done|]. by injection Hv as ->. }
  rewrite Hlast in H00.
  assert (Hpix : v = red ∨ v = blue).
  { unfold fancy_index in Hf. apply rmapM_Ok in Hf.
    apply at2_Some in Hv as (row & Hrow & Hv).
    destruct (Forall2_lookup_r _ _ _ _ _ Hf Hrow) as (xys & _ & Hxys).
    apply rmapM_Ok in Hxys.
    destruct (Forall2_lookup_r _ _ _ _ _ Hxys Hv) as (xy & _ & Hxy).
    apply take2_Ok in Hxy as (i & j & Hat).
    by eapply raster_block_pixels. }
  destruct Hpix as [-> | ->]; vm_compute in H00; discriminate.
Qed.

(** The error of [names.index] is the only ValueError of
    [country_borders], whatever the list of names is. *)
Lemma country_borders_ValueError_iff
    (getrgba : color → list Z)
    (edt : list (list bool) → list (list Z) * list (list Z))
    (a : list (list (list Z)))
    (names : list string) (palette : list color) (bgcolor : color)
    (country : string) :
  country_borders getrgba edt a names palette bgcolor country = Raise ValueError
  ↔ country ∉ names.
Proof.
  split.
  - unfold country_borders.
    destruct (Py.index names country) as [k|e] eqn:Hi; simpl.
    + unfold Py.getitem_nat. destruct (palette !! k); simpl; [|done].
      destruct (edt _) as [indx indy].
      destruct (fancy_index a indx indy) as [ev|e] eqn:Hf; simpl; [done|].
      apply fancy_index_Raise in Hf as ->. done.
    + intros _. by apply index_Raise in Hi as [_ ?].
  - intros Hnin. unfold country_borders.
    destruct (Py.index names country) as [k|e] eqn:Hi; simpl.
    + apply index_Ok in Hi. by apply list_elem_of_lookup_2 in Hi.
    + by apply index_Raise in Hi as [-> _].
Qed.

(** The names of the script are the rows of the legend that are neither
    merged nor the background. *)
Lemma elem_of_names_of (mapnames : list (string * color)) (n : string) :
  n ∈ names_of mapnames
  ↔ n ∈ mapnames.*1 ∧ (n ∉ dom MERGE) ∧ n ≠ BACKGROUND.
Proof. unfold names_of. rewrite list_elem_of_filter. tauto. Qed.

Lemma not_elem_of_names_of (mapnames : list (string * color)) (n : string) :
  n ∉ names_of mapnames
  ↔ n ∉ mapnames.*1 ∨ n ∈ dom MERGE ∨ n = BACKGROUND.
Proof.
  rewrite elem_of_names_of. split.
  - intros Hn.
    destruct (decide (n ∈ mapnames.*1)) as [Hin|Hnin]; [|by left].
    destruct (decide (n ∈ dom MERGE)) as [Hm|Hnm]; [by right; left|].
    destruct (decide (n = BACKGROUND)) as [Hb|Hnb]; [by right; right|].
    by destruct Hn.
  - intros [Hnin|[Hm|Hb]] (Hin & Hnm & Hnb); done.
Qed.

(** C5: on the names that the script makes from the legend,
    [country_borders] raises the ValueError of [names.index], which is the
    specification's UnknownRegionError, exactly when the target is no row
    of the legend, or is a merged name, or is the background: a row of the
    legend that is merged or the background raises it too, every other row
    does not. When it is raised, it is raised before anything else happens:
    no array is read or made. *)
Theorem country_borders_unknown_region
    (getrgba : color → list Z)
    (edt : list (list bool) → list (list Z) * list (list Z))
    (a : list (list (list Z)))
    (mapnames : list (string * color)) (palette : list color) (bgcolor : color)
    (country : string) :
  (country_borders getrgba edt a (names_of mapnames) palette bgcolor country
   = Raise ValueError
   ↔ country ∉ mapnames.*1 ∨ country ∈ dom MERGE ∨ country = BACKGROUND)
  ∧ (country ∉ mapnames.*1 ∨ country ∈ dom MERGE ∨ country = BACKGROUND →
     ∀ (maparray : nat) (σ : gmap nat (list (list (list Z)))),
       country_borders_st getrgba edt maparray (names_of mapnames) palette
                          bgcolor country σ
       = (Raise ValueError, σ)).
Proof.
  split.
  - rewrite country_borders_ValueError_iff. apply not_elem_of_names_of.
  - intros Hc maparray σ. apply not_elem_of_names_of in Hc.
    unfold country_borders_st, bind, lift.
    destruct (Py.index (names_of mapnames) country) as [k|e] eqn:Hi.
    + apply index_Ok in Hi. by apply list_elem_of_lookup_2 in Hi.
    + by apply index_Raise in Hi as [-> _].
Qed.

(** On the example legend: a name that is no row raises, and so does the
    merged row; the row of a region does not. *)
Lemma country_borders_unknown_region_witness :
  country_borders getrgba_ref edt_search raster_ab (names_of mapnames_ex)
                  palette_ex bgcolor_ab "France"
  = Raise ValueError
  ∧ country_borders getrgba_ref edt_search raster_ab (names_of mapnames_ex)
                    palette_ex bgcolor_ab "Jersey"
    = Raise ValueError
  ∧ country_borders getrgba_ref edt_search raster_ab (names_of mapnames_ex)
                    palette_ex bgcolor_ab "UK"
    ≠ Raise ValueError.
Proof.
  split; [|split].
  - apply (country_borders_unknown_region getrgba_ref edt_search raster_ab
             mapnames_ex palette_ex bgcolor_ab "France").
    left. intros Hin.
    repeat (apply elem_of_cons in Hin as [Hin|Hin]; [discriminate|]).
    by apply elem_of_nil in Hin.
  - apply (country_borders_unknown_region getrgba_ref edt_search raster_ab
             mapnames_ex palette_ex bgcolor_ab "Jersey").
    right; left. apply elem_of_dom. exists "UK". reflexivity.
  - intros Hr.
    apply (country_borders_unknown_region getrgba_ref edt_search raster_ab
             mapnames_ex palette_ex bgcolor_ab "UK") in Hr.
    destruct Hr as [Hnin|[Hm|Hb]].
    + apply Hnin. apply list_elem_of_further, list_elem_of_here.
    + apply elem_of_dom in Hm as [parent Hp]. vm_compute in Hp. discriminate.
    + discriminate.
Defined.

(** C5, as stated, fails: Gibraltar and the sea are rows of the legend,
    [colorfn] has a colour or [None] for them, and [country_borders]
    raises on them as on a name that is not there. *)
Lemma country_borders_legend_row_raises :
  "Gibraltar" ∈ mapnames_ex.*1
  ∧ BACKGROUND ∈ mapnames_ex.*1
  ∧ country_borders getrgba_ref edt_search raster_ab (names_of mapnames_ex)
                    palette_ex bgcolor_ab "Gibraltar"
    = Raise ValueError
  ∧ country_borders getrgba_ref edt_search raster_ab (names_of mapnames_ex)
                    palette_ex bgcolor_ab BACKGROUND
    = Raise ValueError.
Proof.
  split; [|split; [|split]].
  - do 2 apply list_elem_of_further. apply list_elem_of_here.
  - apply list_elem_of_here.
  - apply country_borders_ValueError_iff, not_elem_of_names_of.
    right; left. apply elem_of_dom. exists "UK". reflexivity.
  - apply country_borders_ValueError_iff, not_elem_of_names_of.
    right; right. reflexivity.
Qed.

(** C6: for a target that is in the legend and whose colour no pixel of
    the raster has, [country_borders] returns the all-zero array of the
    shape of the raster; it raises nothing. *)
Theorem country_borders_absent_region
    (getrgba : color → list Z)
    (edt : list (list bool) → list (list Z) * list (list Z))
    (H W C : nat) (a : list (list (list Z)))
    (names : list string) (palette : list color) (bgcolor : color)
    (country : string) (k : nat) (target : color) :
  edt_ok edt →
  shape3 H W C a →
  Py.index names country = Ok k → palette !! k = Some target →
  length (getrgba target) = C →
  length (getrgba bgcolor) = C →
  length (getrgba IGNORECOLOR) = C →
  (∀ i j px, at2 a i j = Some px → px ≠ getrgba target) →
  country_borders getrgba edt a names palette bgcolor country = Ok (zeros H W C).
Proof. intros. by eapply country_borders_empty_mask. Qed.

Lemma raster_b_shape : shape3 1 2 4 raster_b.
Proof. unfold shape3, raster_b, green, blue. repeat constructor; lia. Qed.

(** Region A is in the legend and has no pixel in the raster of B alone. *)
Lemma country_borders_absent_region_witness :
  country_borders getrgba_ref edt_search raster_b names_ab palette_ab bgcolor_ab "A"
  = Ok [ [zero; zero] ].
Proof.
  apply (country_borders_absent_region getrgba_ref edt_search 1 2 4 raster_b
           names_ab palette_ab bgcolor_ab "A" 0 (ColorName "red")).
  - apply edt_search_ok.
  - apply raster_b_shape.
  - reflexivity.
  - reflexivity.
  - reflexivity.
  - reflexivity.
  - reflexivity.
  - intros i j px.
    destruct i as [|i]; [|done]. destruct j as [|[|j]]; [| |done];
      intros [= <-]; discriminate.
Defined.

(** C7 (amended): when the raster has a pixel of a region other than the
    target (neither background nor ignored), and the colour of the target
    is not all zeros, [country_borders] applied with the same target to
    its own result returns the all-zero array. *)
Theorem country_borders_twice
    (getrgba : color → list Z)
    (edt : list (list bool) → list (list Z) * list (list Z))
    (H W C : nat) (a : list (list (list Z)))
    (names : list string) (palette : list color) (bgcolor : color)
    (country : string) (k : nat) (target : color) :
  edt_ok edt →
  shape3 H W C a →
  Py.index names country = Ok k → palette !! k = Some target →
  length (getrgba target) = C →
  length (getrgba bgcolor) = C →
  length (getrgba IGNORECOLOR) = C →
  getrgba target ≠ replicate C 0%Z →
  (∃ i j, is_source getrgba a target bgcolor i j) →
  ∃ out,
    country_borders getrgba edt a names palette bgcolor country = Ok out
    ∧ country_borders getrgba edt out names palette bgcolor country
      = Ok (zeros H W C).
Proof.
  intros Hedt Hshape Hi Hp Hlt Hlbg Hlig Hnz Hsource.
  destruct (country_borders_at getrgba edt H W C a names palette bgcolor
              country k target)
    as (out & Hout & Hd & Hat); try done.
  exists out. split; [done|].
  assert (Hpix : ∀ i j v, at2 out i j = Some v →
            v ≠ getrgba target
            ∧ length v = C ∧ Forall (λ z, (0 <= z < 256)%Z) v).
  { intros i j v Hv.
    destruct (at2_is_Some_dims out a i j Hd) as [px Hpx]; [by eexists|].
    destruct (Hat i j px Hpx) as (src & Hprop & Hv').
    rewrite Hv in Hv'. injection Hv' as ->.
    destruct (bool_decide (px = getrgba target)).
    - split; [|by eapply propagated_pixel].
      destruct Hprop as [(fi & fj & Hs & Hsrc & _)|[Hnone _]]; [|done].
      destruct Hs as (px' & Hpx' & HnA & _). congruence.
    - split; [done|]. rewrite length_replicate. split; [done|].
      apply Forall_replicate. lia. }
  apply (country_borders_empty_mask getrgba edt H W C out names palette bgcolor
           country k target); try done.
  - apply shape3_intro; [by rewrite Hd, (shape3_dims _ _ _ _ Hshape)|].
    intros i j v Hv. by destruct (Hpix i j v Hv) as (_ & ? & ?).
  - intros i j v Hv. by destruct (Hpix i j v Hv) as (? & _).
Qed.

(** On the raster with A, B and background, the second application for A
    gives zeros. *)
Lemma country_borders_twice_witness :
  ∃ out,
    country_borders getrgba_ref edt_search raster_ab names_ab palette_ab bgcolor_ab "A"
    = Ok out
    ∧ country_borders getrgba_ref edt_search out names_ab palette_ab bgcolor_ab "A"
      = Ok (zeros 2 3 4).
Proof.
  apply (country_borders_twice getrgba_ref edt_search 2 3 4 raster_ab
           names_ab palette_ab bgcolor_ab "A" 0 (ColorName "red")).
  - apply edt_search_ok.
  - apply raster_ab_shape.
  - reflexivity.
  - reflexivity.
  - reflexivity.
  - reflexivity.
  - reflexivity.
  - discriminate.
  - exists 1, 2, green. repeat split; discriminate.
Defined.

(** C7, as stated, fails: on the valid raster that is all of region A, the
    result is that raster again, and so is the result of the second
    application. *)
Lemma country_borders_twice_single_region :
  ∃ out,
    country_borders getrgba_ref edt_search raster_a names_ab palette_ab bgcolor_ab "A"
    = Ok out
    ∧ country_borders getrgba_ref edt_search out names_ab palette_ab bgcolor_ab "A"
      = Ok [ [red] ]
    ∧ country_borders getrgba_ref edt_search out names_ab palette_ab bgcolor_ab "A"
      ≠ Ok (zeros 1 1 4).
Proof.
  exists [ [red] ]. split; [reflexivity|]. split; [reflexivity|].
  vm_compute. discriminate.
Qed.

(** *** The store *)

Lemma for_each_modify (l : nat) (f : nat → list (list (list Z)) → list (list (list Z))) :
  ∀ (ks : list nat) (σ : gmap nat (list (list (list Z)))) a0,
    σ !! l = Some a0 →
    for_each ks (λ i, modify l (f i)) σ
    = (Ok (), <[l := fold_left (λ a i, f i a) ks a0]> σ).
Proof.
  induction ks as [|k ks IH]; intros σ a0 Hl; simpl.
  - unfold ret. by rewrite insert_id.
  - unfold bind, modify at 1. rewrite Hl.
    rewrite (IH _ (f k a0)) by apply lookup_insert_eq.
    by rewrite insert_insert_eq.
Qed.

Lemma bind_run {A B} (m : cmd A) (k : A → cmd B) σ :
  bind m k σ = match m σ with
               | (Ok a, σ') => k a σ'
               | (Raise e, σ') => (Raise e, σ')
               end.
Proof. reflexivity. Qed.

Lemma load_run (l : nat) (σ : gmap nat (list (list (list Z)))) a :
  σ !! l = Some a → load l σ = (Ok a, σ).
Proof. intros Hl. unfold load. by rewrite Hl. Qed.

Lemma mask_by_color_st_run getrgba (l : nat) c
    (σ : gmap nat (list (list (list Z)))) a :
  σ !! l = Some a →
  mask_by_color_st getrgba l c σ = (Ok (mask_by_color getrgba a c), σ).
Proof.
  intros Hl. unfold mask_by_color_st. by rewrite bind_run, (load_run _ _ _ Hl).
Qed.

Lemma fancy_index_st_run (l : nat) indx indy
    (σ : gmap nat (list (list (list Z)))) a :
  σ !! l = Some a →
  fancy_index_st l indx indy σ
  = match fancy_index a indx indy with
    | Ok vals => (Ok (fresh (dom σ)), <[fresh (dom σ) := vals]> σ)
    | Raise e => (Raise e, σ)
    end.
Proof.
  intros Hl. unfold fancy_index_st.
  rewrite bind_run, (load_run _ _ _ Hl), bind_run. unfold lift.
  by destruct (fancy_index a indx indy).
Qed.

(** Run on a store that binds [maparray] to a raster, the code returns what
    the function on values returns for that raster, and every array the
    store held is still there, unchanged. *)
Lemma country_borders_st_run
    (getrgba : color → list Z)
    (edt : list (list bool) → list (list Z) * list (list Z))
    (maparray : nat) (names : list string) (palette : list color)
    (bgcolor : color) (country : string)
    (σ : gmap nat (list (list (list Z)))) (raster : list (list (list Z))) :
  σ !! maparray = Some raster →
  ∃ σ', country_borders_st getrgba edt maparray names palette bgcolor country σ
        = (country_borders getrgba edt raster names palette bgcolor country, σ')
        ∧ σ ⊆ σ'.
Proof.
  intros Hmap. unfold country_borders_st, country_borders.
  rewrite bind_run. unfold lift at 1.
  destruct (Py.index names country) as [k|e];
    [|exists σ; split; [reflexivity|done]].
  rewrite bind_run. unfold lift at 1. cbv beta iota delta [rbind].
  destruct (Py.getitem_nat palette k) as [c|e];
    [|exists σ; split; [reflexivity|done]].
  rewrite bind_run, (mask_by_color_st_run _ _ _ _ _ Hmap).
  rewrite bind_run, (mask_by_color_st_run _ _ _ _ _ Hmap).
  rewrite bind_run, (mask_by_color_st_run _ _ _ _ _ Hmap).
  destruct (edt _) as [indx indy].
  rewrite bind_run, (fancy_index_st_run _ _ _ _ _ Hmap).
  destruct (fancy_index raster indx indy) as [vals|e];
    [|exists σ; split; [reflexivity|done]].
  set (l := fresh (dom σ)).
  assert (Hl : σ !! l = None) by (apply not_elem_of_dom, is_fresh).
  rewrite bind_run, (load_run l _ vals) by apply lookup_insert_eq.
  rewrite bind_run.
  rewrite (for_each_modify l (λ i a, imul_channel a i (mask_by_color getrgba raster c))
             _ _ vals) by apply lookup_insert_eq.
  rewrite bind_run, (load_run l _ _ (lookup_insert_eq _ _ _)).
  unfold ret. rewrite insert_insert_eq.
  eexists. split; [reflexivity|]. by apply insert_subseteq.
Qed.

(** C9: a call of [country_borders] returns what the function of the
    raster, the legend, the colours and the target returns, whatever else
    the store holds; it leaves the raster, and every other array that
    existed, unchanged, since it updates only the array it made; and a
    second call on the store it leaves returns the same result. *)
Theorem country_borders_st_pure
    (getrgba : color → list Z)
    (edt : list (list bool) → list (list Z) * list (list Z))
    (maparray : nat) (names : list string) (palette : list color)
    (bgcolor : color) (country : string)
    (σ : gmap nat (list (list (list Z)))) (raster : list (list (list Z))) :
  σ !! maparray = Some raster →
  ∃ σ',
    country_borders_st getrgba edt maparray names palette bgcolor country σ
    = (country_borders getrgba edt raster names palette bgcolor country, σ')
    ∧ σ ⊆ σ'
    ∧ σ' !! maparray = Some raster
    ∧ (country_borders_st getrgba edt maparray names palette bgcolor country σ').1
      = country_borders getrgba edt raster names palette bgcolor country.
Proof.
  intros Hmap.
  destruct (country_borders_st_run getrgba edt maparray names palette bgcolor
              country σ raster Hmap) as (σ' & Hrun & Hsub).
  exists σ'. split; [done|]. split; [done|].
  assert (Hmap' : σ' !! maparray = Some raster) by by eapply lookup_weaken.
  split; [done|].
  destruct (country_borders_st_run getrgba edt maparray names palette bgcolor
              country σ' raster Hmap') as (σ'' & -> & _).
  done.
Qed.

(** A store with the raster at location 0 and another array at location
    1: the call returns the borders of A and both arrays are as before. *)
Lemma country_borders_st_pure_witness :
  ∃ σ',
    country_borders_st getrgba_ref edt_search 0 names_ab palette_ab bgcolor_ab "A"
                       {[0 := raster_ab; 1 := raster_a]}
    = (Ok [ [green; green; zero]; [green; zero; zero] ], σ')
    ∧ σ' !! 0 = Some raster_ab
    ∧ σ' !! 1 = Some raster_a.
Proof.
  destruct (country_borders_st_pure getrgba_ref edt_search 0 names_ab palette_ab
              bgcolor_ab "A" {[0 := raster_ab; 1 := raster_a]} raster_ab)
    as (σ' & Hrun & Hsub & Hmap & _).
  - vm_compute. reflexivity.
  - exists σ'. split; [|split; [exact Hmap|]].
    + rewrite Hrun. f_equal.
    + eapply lookup_weaken; [|exact Hsub]. vm_compute. reflexivity.
Defined.

End NeighboursFacts.

(** ** Further properties of dataviz/neighbours.py *)

Module NeighboursExtra.
Import Neighbours NeighboursFacts.

(** X1: when the raster has a source pixel, [country_borders] returns an
    array of the dimensions of the raster in which every pixel of the
    target's colour holds the colour of a source pixel (one that is neither
    of the target's colour, nor background, nor ignored) at the least
    Euclidean distance from it, and every other pixel is zero. *)
Theorem country_borders_nearest_source
    (getrgba : color → list Z)
    (edt : list (list bool) → list (list Z) * list (list Z))
    (H W C : nat) (a : list (list (list Z)))
    (names : list string) (palette : list color) (bgcolor : color)
    (country : string) (k : nat) (target : color) :
  edt_ok edt →
  shape3 H W C a →
  Py.index names country = Ok k → palette !! k = Some target →
  length (getrgba target) = C →
  length (getrgba bgcolor) = C →
  length (getrgba IGNORECOLOR) = C →
  (∃ i j, is_source getrgba a target bgcolor i j) →
  ∃ out,
    country_borders getrgba edt a names palette bgcolor country = Ok out
    ∧ dims out = dims a
    ∧ ∀ i j px, at2 a i j = Some px →
        (px ≠ getrgba target → at2 out i j = Some (replicate C 0%Z))
        ∧ (px = getrgba target →
           ∃ fi fj src,
             at2 out i j = Some src
             ∧ at2 a fi fj = Some src
             ∧ is_source getrgba a target bgcolor fi fj
             ∧ ∀ gi gj, is_source getrgba a target bgcolor gi gj →
                        (sqdist (i, j) (fi, fj) <= sqdist (i, j) (gi, gj))%Z).
Proof.
  intros Hedt Hshape Hi Hp Hlt Hlbg Hlig Hsource.
  destruct (country_borders_at getrgba edt H W C a names palette bgcolor
              country k target)
    as (out & Hout & Hd & Hat); try done.
  exists out. split; [done|]. split; [done|].
  intros i j px Hpx. destruct (Hat i j px Hpx) as (src & Hprop & Hv). split.
  - intros Hne. by rewrite Hv, bool_decide_false.
  - intros Heq. rewrite bool_decide_true in Hv by done.
    destruct Hprop as [(fi & fj & Hs & Hsrc & Hmin)|[Hnone _]]; [|done].
    by exists fi, fj, src.
Qed.

Lemma raster_abc_shape : shape3 1 5 4 raster_abc.
Proof.
  unfold shape3, raster_abc, red, green, yellow. repeat constructor; lia.
Qed.

(** Between B on the left and C on the right, the pixel of A next to B
    takes B's green and the one next to C takes C's yellow. *)
Lemma country_borders_nearest_source_witness :
  ∃ out,
    country_borders getrgba_ref edt_search raster_abc names_ab palette_ab bgcolor_ab "A"
    = Ok out
    ∧ at2 out 0 0 = Some zero
    ∧ at2 out 0 1 = Some green
    ∧ at2 out 0 3 = Some yellow.
Proof.
  destruct (country_borders_nearest_source getrgba_ref edt_search 1 5 4 raster_abc
              names_ab palette_ab bgcolor_ab "A" 0 (ColorName "red"))
    as (out & Hout & Hd & Hat).
  - apply edt_search_ok.
  - apply raster_abc_shape.
  - reflexivity.
  - reflexivity.
  - reflexivity.
  - reflexivity.
  - reflexivity.
  - exists 0, 0, green. repeat split; discriminate.
  - assert (Hgreen : is_source getrgba_ref raster_abc (ColorName "red") bgcolor_ab 0 0)
      by (exists green; repeat split; discriminate).
    assert (Hyellow : is_source getrgba_ref raster_abc (ColorName "red") bgcolor_ab 0 4)
      by (exists yellow; repeat split; discriminate).
    exists out. split; [done|]. split; [|split].
    + destruct (Hat 0 0 green eq_refl) as [Hz _]. apply Hz. discriminate.
    + destruct (Hat 0 1 red eq_refl) as [_ Hs].
      destruct Hs as (fi & fj & src & -> & Hsrc & Hs & Hmin); [reflexivity|].
      specialize (Hmin 0 0 Hgreen). destruct Hs as (px & Hpx & Hne & _).
      destruct fi as [|fi]; [|done].
      destruct fj as [|[|[|[|[|fj]]]]]; try done;
        injection Hsrc as <-; injection Hpx as <-;
        try (by destruct Hne); try done.
    + destruct (Hat 0 3 red eq_refl) as [_ Hs].
      destruct Hs as (fi & fj & src & -> & Hsrc & Hs & Hmin); [reflexivity|].
      specialize (Hmin 0 4 Hyellow). destruct Hs as (px & Hpx & Hne & _).
      destruct fi as [|fi]; [|done].
      destruct fj as [|[|[|[|[|fj]]]]]; try done;
        injection Hsrc as <-; injection Hpx as <-;
        try (by destruct Hne); try done.
Defined.

(** X2: the mask of [mask_by_color] has the dimensions of the array, and
    it compares as many channels as the colour and the array both have:
    a colour of three components matches a pixel of four channels on its
    first three, whatever the fourth is. *)
Theorem mask_by_color_common_channels
    (getrgba : color → list Z) (H W C : nat) (a : list (list (list Z)))
    (c : color) :
  shape3 H W C a →
  dims (mask_by_color getrgba a c) = dims a
  ∧ ∀ i j px, at2 a i j = Some px →
      at2 (mask_by_color getrgba a c) i j
      = Some (bool_decide (take (length (getrgba c)) px = take C (getrgba c))).
Proof.
  intros Ha. split; [apply mask_by_color_dims|].
  intros i j px Hpx.
  destruct (shape3_at2 _ _ _ _ _ _ _ Ha Hpx) as (Hi & Hj & Hlen & _).
  unfold mask_by_color.
  rewrite (shape3_shape_last _ _ _ _ Ha) by lia.
  set (cs := getrgba c). set (m := length cs `min` C).
  assert (Hzip : zip cs (channel a <$> seq 0 C)
                 = zip (take m cs) (channel a <$> seq 0 (length (take m cs)))).
  { rewrite length_take. replace (m `min` length cs) with m by lia.
    rewrite <- (zip_with_take_both' _ m m cs (channel a <$> seq 0 C))
      by (rewrite length_fmap, length_seq; lia).
    rewrite <- fmap_take, take_seq. do 3 f_equal. lia. }
  rewrite Hzip.
  rewrite (mask_fold_at a i j px Hpx (take m cs) 0 _ true).
  - simpl. rewrite drop_0, length_take. f_equal.
    replace (m `min` length cs) with m by lia.
    apply bool_decide_ext. subst m.
    destruct (decide (length cs ≤ C)) as [Hle|Hgt].
    + rewrite Nat.min_l by done.
      by rewrite (take_ge cs (length cs)), (take_ge cs C) by lia.
    + rewrite Nat.min_r by lia.
      by rewrite (take_ge px C), (take_ge px (length cs)) by lia.
  - unfold ones_like. by rewrite at2_grid_map, Hpx.
  - rewrite length_take. lia.
Qed.

(** The red pixels of the RGBA raster match the three-component red. *)
Lemma mask_by_color_common_channels_witness :
  at2 (mask_by_color getrgb_red raster_ab (ColorName "red")) 0 0 = Some true
  ∧ at2 (mask_by_color getrgb_red raster_ab (ColorName "red")) 1 2 = Some false.
Proof.
  destruct (mask_by_color_common_channels getrgb_red 2 3 4 raster_ab
              (ColorName "red") raster_ab_shape) as [_ Hat].
  split.
  - by rewrite (Hat 0 0 red eq_refl).
  - by rewrite (Hat 1 2 green eq_refl).
Defined.

(** *** The legend *)

Lemma MERGE_lookup n parent :
  MERGE !! n = Some parent →
  (n = "Gibraltar" ∧ parent = "UK") ∨ (n = "Jersey" ∧ parent = "UK")
  ∨ (n = "Guernsey" ∧ parent = "UK") ∨ (n = "Faroe Islands" ∧ parent = "Denmark").
Proof.
  unfold MERGE. intros Hm.
  apply lookup_insert_Some in Hm as [[<- <-]|[_ Hm]]; [by auto|].
  apply lookup_insert_Some in Hm as [[<- <-]|[_ Hm]]; [by auto|].
  apply lookup_insert_Some in Hm as [[<- <-]|[_ Hm]]; [by auto 6|].
  apply lookup_singleton_Some in Hm as [<- <-]. by auto 6.
Qed.

Lemma index_not_in {A} `{EqDecision A} (l : list A) (x : A) :
  x ∉ l → Py.index l x = Raise ValueError.
Proof.
  intros Hnin. destruct (Py.index l x) as [k|e] eqn:Hi.
  - apply index_Ok in Hi. by apply list_elem_of_lookup_2 in Hi.
  - by apply index_Raise in Hi as [-> _].
Qed.

Lemma index_in {A} `{EqDecision A} (l : list A) (x : A) :
  x ∈ l → ∃ k, Py.index l x = Ok k ∧ l !! k = Some x.
Proof.
  intros Hin. destruct (Py.index l x) as [k|e] eqn:Hi.
  - exists k. split; [done|]. by apply index_Ok.
  - by apply index_Raise in Hi as [_ ?].
Qed.

(** X3: [colorfn] paints a merged name like the region it is merged into,
    whatever the names and the palette are (also when the lookup fails),
    and it leaves the background alone. *)
Theorem colorfn_merged (names : list string) (palette : list color) :
  (∀ n parent, MERGE !! n = Some parent →
               colorfn names palette n = colorfn names palette parent)
  ∧ colorfn names palette BACKGROUND = Ok None.
Proof.
  split; [|done].
  intros n parent Hm.
  destruct (MERGE_lookup n parent Hm) as [[-> ->]|[[-> ->]|[[-> ->]|[-> ->]]]];
    reflexivity.
Qed.

Lemma colorfn_merged_witness :
  colorfn (names_of mapnames_ex) palette_ex "Gibraltar"
  = Ok (Some (ColorTuple [255; 0; 0]%Z))
  ∧ colorfn (names_of mapnames_ex) palette_ex "UK"
    = Ok (Some (ColorTuple [255; 0; 0]%Z)).
Proof.
  destruct (colorfn_merged (names_of mapnames_ex) palette_ex) as [Halias _].
  rewrite (Halias "Gibraltar" "UK" eq_refl). split; reflexivity.
Defined.

(** X4: with a palette of one colour per name, every name of the legend
    that is neither merged nor the background has a colour, the one that
    [country_borders] looks up for it as a target; and when the colours of
    the palette are distinct, two names that [colorfn] paints alike stand
    for the same region. *)
Theorem colorfn_regions (mapnames : list (string * color)) (palette : list color) :
  length palette = length (names_of mapnames) →
  (∀ n, n ∈ mapnames.*1 → n ∉ dom MERGE → n ≠ BACKGROUND →
        ∃ k c, Py.index (names_of mapnames) n = Ok k
               ∧ palette !! k = Some c
               ∧ colorfn (names_of mapnames) palette n = Ok (Some c))
  ∧ (NoDup palette →
     ∀ n1 n2 c,
       colorfn (names_of mapnames) palette n1 = Ok (Some c) →
       colorfn (names_of mapnames) palette n2 = Ok (Some c) →
       region_of n1 = region_of n2).
Proof.
  intros Hlen. split.
  - intros n Hin Hmerge Hbg.
    destruct (index_in (names_of mapnames) n) as (k & Hk & Hnk).
    { unfold names_of. apply list_elem_of_filter. done. }
    destruct (lookup_lt_is_Some_2 palette k) as [c Hc].
    { rewrite Hlen. by eapply lookup_lt_Some. }
    exists k, c. split; [done|]. split; [done|].
    unfold colorfn. rewrite decide_False by done.
    apply not_elem_of_dom in Hmerge. rewrite Hmerge, Hk. simpl.
    unfold Py.getitem_nat. by rewrite Hc.
  - intros Hnd n1 n2 c H1 H2.
    assert (Hres : ∀ n, colorfn (names_of mapnames) palette n = Ok (Some c) →
              ∃ k, names_of mapnames !! k = Some (region_of n)
                   ∧ palette !! k = Some c).
    { intros n. unfold colorfn, region_of. case_decide; [done|].
      destruct (MERGE !! n) as [parent|]; simpl;
        (destruct (Py.index _ _) as [k|e] eqn:Hk; simpl; [|done]);
        unfold Py.getitem_nat;
        (destruct (palette !! k) as [c'|] eqn:Hc; simpl; [|done]);
        intros [= <-]; exists k; split; try done; by apply index_Ok. }
    destruct (Hres n1 H1) as (k1 & Hn1 & Hc1).
    destruct (Hres n2 H2) as (k2 & Hn2 & Hc2).
    assert (k1 = k2) as -> by by eapply NoDup_lookup.
    congruence.
Qed.

Lemma colorfn_regions_witness :
  (∃ k c, Py.index (names_of mapnames_ex) "Denmark" = Ok k
          ∧ palette_ex !! k = Some c
          ∧ colorfn (names_of mapnames_ex) palette_ex "Denmark" = Ok (Some c))
  ∧ region_of "Gibraltar" = region_of "UK".
Proof.
  destruct (colorfn_regions mapnames_ex palette_ex eq_refl) as [Hcanon Hinj].
  split.
  - apply Hcanon.
    + apply list_elem_of_In. vm_compute. auto.
    + intros Hin. apply elem_of_dom in Hin as [? Hin].
      vm_compute in Hin. discriminate.
    + discriminate.
  - apply (Hinj) with (c := ColorTuple [255; 0; 0]%Z); [|reflexivity..].
    unfold palette_ex. apply NoDup_cons. split; [|apply NoDup_singleton].
    intros Hin. apply list_elem_of_singleton in Hin. discriminate.
Defined.

(** X5: a merged name and the background are no targets for
    [country_borders]: they are not among the names, so the lookup raises
    ValueError, although the legend lists them and [colorfn] knows them. *)
Theorem country_borders_merged_target
    (getrgba : color → list Z)
    (edt : list (list bool) → list (list Z) * list (list Z))
    (a : list (list (list Z)))
    (mapnames : list (string * color)) (palette : list color) (bgcolor : color)
    (country : string) :
  country ∈ dom MERGE ∨ country = BACKGROUND →
  country_borders getrgba edt a (names_of mapnames) palette bgcolor country
  = Raise ValueError.
Proof.
  intros Hc. unfold country_borders. rewrite index_not_in; [done|].
  unfold names_of. rewrite list_elem_of_filter. intros [[Hm Hb] _].
  by destruct Hc.
Qed.

Lemma country_borders_merged_target_witness :
  country_borders getrgba_ref edt_search raster_ab (names_of mapnames_ex) palette_ex
                  bgcolor_ab "Gibraltar"
  = Raise ValueError.
Proof.
  apply country_borders_merged_target. left.
  apply elem_of_dom. exists "UK". reflexivity.
Defined.

End NeighboursExtra.

(** ** Further properties of utils.py *)

Module UtilsExtra.
Import Utils UtilsFacts.

(** *** update_sequence *)

(** X6: updates of one position compose and undo. A second update at the
    same index overwrites the first; writing back the element that is
    there returns the sequence itself; and the indices [n] and
    [n - len(s)] name the same position. *)
Theorem update_sequence_compose {A} (s : list A) (n : Z) (x y : A) :
  (- Py.len s <= n < Py.len s)%Z →
  (∃ t, update_sequence s n x = Ok t
        ∧ update_sequence t n y = update_sequence s n y)
  ∧ (Py.getitem s n = Some x → update_sequence s n x = Ok s)
  ∧ ((0 <= n)%Z → update_sequence s (n - Py.len s) x = update_sequence s n x).
Proof.
  intros Hn. split; [|split].
  - eexists. split; [by apply update_sequence_insert|].
    rewrite !update_sequence_insert;
      [|done|unfold Py.len in *; by rewrite length_insert].
    f_equal. unfold Py.wrap, Py.len. rewrite length_insert.
    apply list_insert_insert_eq.
  - intros Hx. rewrite update_sequence_insert by done. f_equal.
    apply list_insert_id. unfold Py.getitem in Hx.
    by destruct (_ && _).
  - intros Hpos. rewrite !update_sequence_insert by (unfold Py.len in *; lia).
    do 2 f_equal. slice_bound_tac.
Qed.

Lemma update_sequence_compose_witness :
  (∃ t, update_sequence ["a"; "b"; "c"] 1 "x" = Ok t
        ∧ update_sequence t 1 "y" = Ok ["a"; "y"; "c"])
  ∧ update_sequence ["a"; "b"; "c"] 1 "b" = Ok ["a"; "b"; "c"]
  ∧ update_sequence ["a"; "b"; "c"] (-2) "x" = Ok ["a"; "x"; "c"].
Proof.
  destruct (update_sequence_compose ["a"; "b"; "c"] 1 "x" "y")
    as ((t & Ht & Hty) & _); [vm_compute; split; congruence|].
  destruct (update_sequence_compose ["a"; "b"; "c"] 1 "b" "b")
    as (_ & Hid & _); [vm_compute; split; congruence|].
  destruct (update_sequence_compose ["a"; "b"; "c"] 1 "x" "x")
    as (_ & _ & Hneg); [vm_compute; split; congruence|].
  split; [|split].
  - exists t. split; [done|]. by rewrite Hty.
  - by apply Hid.
  - change (-2)%Z with (1 - Py.len ["a"; "b"; "c"])%Z. by rewrite Hneg.
Defined.

(** *** with_retries *)

Section WithRetriesMore.
Context {W V E : Type}.
Variable fn : W → result E V * W.
Variable now : W → Z.
Variable sleep : Z → W → W.
Variable datetime_max : Z.
Variable max_retries : option Z.
Variable interval : Z.
Variable exceptions : E → bool.

Lemma attempts_calls_bound :
  ∀ ixs at_end calls w,
    (attempts fn now sleep datetime_max max_retries interval exceptions
              ixs at_end calls w).1.2 ≤ calls + length ixs.
Proof.
  induction ixs as [|i ixs IH]; intros at_end calls w; simpl; [lia|].
  destruct (fn w) as [[v|e] w']; simpl; [lia|].
  destruct (exceptions e); simpl; [|lia].
  case_bool_decide; simpl; [lia|].
  destruct (now w' >? datetime_max)%Z; simpl; [lia|].
  specialize (IH at_end (S calls) (sleep interval w')). lia.
Qed.

End WithRetriesMore.

Lemma attempts_never_falls_off {W V E : Type}
    (fn : W → result E V * W) (now : W → Z) (sleep : Z → W → W)
    (datetime_max interval : Z) (exceptions : E → bool) (n : nat) :
  ∀ k a calls w,
    a + S k = n →
    (attempts fn now sleep datetime_max (Some (Z.of_nat n)) interval exceptions
              (seq a (S k)) ReturnedNone calls w).1.1 ≠ ReturnedNone.
Proof.
  induction k as [|k IH]; intros a calls w Ha.
  - simpl. destruct (fn w) as [[v|e] w']; simpl; [done|].
    destruct (exceptions e); simpl; [|done].
    by rewrite bool_decide_true by (f_equal; lia).
  - change (seq a (S (S k))) with (a :: seq (S a) (S k)). cbn [attempts].
    destruct (fn w) as [[v|e] w']; simpl; [done|].
    destruct (exceptions e); simpl; [|done].
    case_bool_decide; simpl; [done|].
    destruct (now w' >? datetime_max)%Z; simpl; [done|].
    apply IH. lia.
Qed.

(** X7: under [max_retries=n] the wrapped function is called at most [n]
    times, whatever it does and whatever the clock shows. For [n <= 0] it
    is not called at all and the wrapper returns [None]; for [n >= 1] the
    wrapper never falls off the end of its loop: it returns a value of the
    function or raises. *)
Theorem with_retries_bounded {W V E : Type}
    (fn : W → result E V * W) (now : W → Z) (sleep : Z → W → W)
    (datetime_min datetime_max : Z) (n : Z) (interval : Z)
    (exceptions : E → bool) (fuel : nat) (w0 : W) :
  let r := with_retries fn now sleep datetime_min datetime_max (Some n) None
                        interval exceptions fuel w0 in
  r.1.2 ≤ Z.to_nat n
  ∧ ((n <= 0)%Z → r = (ReturnedNone, 0, w0))
  ∧ ((1 <= n)%Z → r.1.1 ≠ ReturnedNone ∧ r.1.1 ≠ Unfinished
                  ∧ r.1.1 ≠ OverflowError).
Proof.
  unfold with_retries, end_time. cbv zeta. split; [|split].
  - pose proof (attempts_calls_bound fn now sleep datetime_max (Some n) interval
                  exceptions (seq 0 (Z.to_nat n)) ReturnedNone 0 w0) as Hb.
    by rewrite length_seq in Hb.
  - intros Hn. by replace (Z.to_nat n) with 0 by lia.
  - intros Hn.
    assert (Hk : ∃ k, Z.to_nat n = S k) by (exists (Z.to_nat n - 1); lia).
    destruct Hk as [k Hk]. rewrite Hk.
    assert (Hnk : n = Z.of_nat (S k)) by lia. rewrite Hnk.
    pose proof (attempts_never_falls_off fn now sleep datetime_max interval
                  exceptions (S k) k 0 0 w0 eq_refl) as Hne.
    split; [done|].
    assert (Hcases : ∀ ixs calls w,
              (attempts fn now sleep datetime_max (Some (Z.of_nat (S k))) interval
                        exceptions ixs (@ReturnedNone E V) calls w).1.1 ≠ Unfinished
              ∧ (attempts fn now sleep datetime_max (Some (Z.of_nat (S k))) interval
                          exceptions ixs (@ReturnedNone E V) calls w).1.1
                ≠ OverflowError).
    { induction ixs as [|i ixs IH]; intros calls w; simpl; [done|].
      destruct (fn w) as [[v|e] w']; simpl; [done|].
      destruct (exceptions e); simpl; [|done].
      case_bool_decide; simpl; [done|].
      destruct (now w' >? datetime_max)%Z; simpl; [done|]. apply IH. }
    apply Hcases.
Qed.

(** X8: an exception that is not among the handled ones is not retried: it
    is propagated after the one call that raised it, without sleeping;
    and a call that succeeds at once is made once. This holds with or
    without [max_retries] (at least 1) and for any clock. *)
Theorem with_retries_first_call {W V E : Type}
    (fn : W → result E V * W) (now : W → Z) (sleep : Z → W → W)
    (datetime_min datetime_max : Z) (max_retries : option Z) (interval : Z)
    (exceptions : E → bool) (fuel : nat) (w0 w1 : W) :
  match max_retries with Some n => (1 <= n)%Z | None => 1 ≤ fuel end →
  (∀ e, fn w0 = (Raise e, w1) → exceptions e = false →
        with_retries fn now sleep datetime_min datetime_max max_retries None
                     interval exceptions fuel w0
        = (Raised e, 1, w1))
  ∧ (∀ v, fn w0 = (Ok v, w1) →
          with_retries fn now sleep datetime_min datetime_max max_retries None
                       interval exceptions fuel w0
          = (Returned v, 1, w1)).
Proof.
  intros Hone. unfold with_retries, end_time.
  assert (Hseq : ∃ rest, (match max_retries with
                          | Some n => seq 0 (Z.to_nat n)
                          | None => seq 0 fuel
                          end) = 0 :: rest).
  { destruct max_retries as [n|].
    - destruct (Z.to_nat n) as [|k] eqn:Hk; [lia|]. by eexists.
    - destruct fuel as [|k]; [lia|]. by eexists. }
  destruct Hseq as [rest Hseq].
  split.
  - intros e Hfn He. destruct max_retries as [n|]; rewrite Hseq; simpl;
      by rewrite Hfn, He.
  - intros v Hfn. destruct max_retries as [n|]; rewrite Hseq; simpl;
      by rewrite Hfn.
Qed.

Lemma with_retries_bounded_witness :
  (with_retries always_failing clock_now clock_sleep datetime_min_us datetime_max_us
                (Some 3%Z) None 500000 any_exception 0 0%Z).1.2 ≤ 3
  ∧ with_retries always_failing clock_now clock_sleep datetime_min_us datetime_max_us
                 (Some 0%Z) None 500000 any_exception 0 7%Z
    = (ReturnedNone, 0, 7%Z).
Proof.
  split.
  - apply (with_retries_bounded always_failing clock_now clock_sleep
             datetime_min_us datetime_max_us 3 500000 any_exception 0 0%Z).
  - apply (with_retries_bounded always_failing clock_now clock_sleep
             datetime_min_us datetime_max_us 0 500000 any_exception 0 7%Z). lia.
Defined.

Lemma with_retries_first_call_witness :
  with_retries always_failing clock_now clock_sleep datetime_min_us datetime_max_us
               (Some 3%Z) None 500000 only_index_error 0 0%Z
  = (Raised ValueError, 1, 0%Z).
Proof.
  destruct (with_retries_first_call always_failing clock_now clock_sleep
              datetime_min_us datetime_max_us (Some 3%Z) 500000 only_index_error
              0 0%Z 0%Z) as [Hraise _]; [simpl; lia|].
  apply Hraise; reflexivity.
Defined.

(** *** delimit *)

(** X9: with [low <= high], [delimit(x, low, high)] lies between the marks,
    is [x] itself when [x] does, and delimiting again changes nothing; with
    the marks the wrong way round the result is [low], whatever [x] is. *)
Theorem delimit_spec (x low high : Z) :
  ((low <= high)%Z →
   (low <= delimit x low high <= high)%Z
   ∧ ((low <= x <= high)%Z → delimit x low high = x)
   ∧ ((x < low)%Z → delimit x low high = low)
   ∧ ((high < x)%Z → delimit x low high = high)
   ∧ delimit (delimit x low high) low high = delimit x low high)
  ∧ ((high < low)%Z → delimit x low high = low).
Proof. unfold delimit. lia. Qed.

Lemma delimit_spec_witness :
  delimit 7 0 5 = 5%Z ∧ delimit (-2) 0 5 = 0%Z ∧ delimit 3 0 5 = 3%Z
  ∧ delimit 3 5 0 = 5%Z.
Proof.
  destruct (delimit_spec 7 0 5) as [H7 _].
  destruct (delimit_spec (-2) 0 5) as [Hm2 _].
  destruct (delimit_spec 3 0 5) as [H3 _].
  destruct (delimit_spec 3 5 0) as [_ Hrev].
  split; [apply H7; lia|]. split; [apply Hm2; lia|].
  split; [apply H3; lia|apply Hrev; lia].
Defined.

(** *** Built-in operators *)

Lemma builtin_tables_disjoint (b : builtin) :
  (b ∈ BINARY_OPS → b ∉ UNARY_OPS)
  ∧ (b ∈ TERNARY_OPS → (b ∉ UNARY_OPS) ∧ (b ∉ BINARY_OPS)).
Proof.
  split.
  - intros Hb Hu. apply list_elem_of_In in Hb, Hu.
    destruct b; simpl in Hb, Hu; intuition discriminate.
  - intros Hb. split; intros Hu; apply list_elem_of_In in Hb, Hu;
      destruct b; simpl in Hb, Hu; intuition discriminate.
Qed.

(** X10: for the built-in operators, which have no signature, the wrapper
    of [ignoring_extra_args] hands on the first one, two or three
    positional arguments according to the table the operator is in, and no
    keyword argument at all; for a built-in outside the tables the
    decoration itself raises NotImplementedError. *)
Theorem ignoring_extra_args_builtin {V R : Type}
    (call : callable → list V → gmap string V → R) (b : builtin) :
  (∀ n, (n = 1 ∧ b ∈ UNARY_OPS) ∨ (n = 2 ∧ b ∈ BINARY_OPS)
        ∨ (n = 3 ∧ b ∈ TERNARY_OPS) →
        ∃ wrapper,
          ignoring_extra_args call (Builtin b) = Ok wrapper
          ∧ ∀ args kwargs, wrapper args kwargs = call (Builtin b) (take n args) ∅)
  ∧ (b ∉ UNARY_OPS ++ BINARY_OPS ++ TERNARY_OPS →
     ignoring_extra_args call (Builtin b) = Raise NotImplementedError).
Proof.
  split.
  - intros n Hn. unfold ignoring_extra_args.
    cbn [number_of_args all_keyword_args].
    assert (Hnum : (if bool_decide (b ∈ UNARY_OPS) then Ok (Some 1)
                    else if bool_decide (b ∈ BINARY_OPS) then Ok (Some 2)
                    else if bool_decide (b ∈ TERNARY_OPS) then Ok (Some 3)
                    else Raise NotImplementedError)
                   = (Ok (Some n) : result exn (option nat))).
    { destruct (builtin_tables_disjoint b) as [Hbin Hter].
      destruct Hn as [[-> Hb]|[[-> Hb]|[-> Hb]]].
      - by rewrite bool_decide_true.
      - rewrite bool_decide_false, bool_decide_true; [done..|]. by apply Hbin.
      - destruct (Hter Hb) as [Hu Hbn].
        rewrite bool_decide_false by exact Hu.
        rewrite bool_decide_false by exact Hbn.
        by rewrite bool_decide_true. }
    rewrite Hnum. clear Hnum. cbn [rbind]. eexists. split; [reflexivity|].
    intros args kwargs. cbv beta. rewrite passed_args_take. f_equal.
    apply map_eq. intros k. rewrite passed_kwargs_lookup, lookup_empty.
    case_decide as Hin; [by apply elem_of_nil in Hin|done].
  - intros Hb. unfold ignoring_extra_args.
    cbn [number_of_args all_keyword_args].
    rewrite !elem_of_app in Hb.
    rewrite !bool_decide_false; [done|tauto..].
Qed.

Lemma ignoring_extra_args_builtin_witness :
  ∃ wrapper,
    ignoring_extra_args report_call (Builtin b_len) = Ok wrapper
    ∧ wrapper [1; 2]%Z {["z" := 9%Z]} = ([1]%Z, ∅).
Proof.
  destruct (ignoring_extra_args_builtin report_call b_len) as [Hop _].
  destruct (Hop 1) as (wrapper & Hw & Hcall).
  - left. split; [done|]. apply list_elem_of_here.
  - exists wrapper. split; [done|]. by rewrite Hcall.
Defined.

(** *** remove_duplicates *)

Section RemoveDuplicates.
Context {K A : Type} `{EqDecision K}.
Variable key : A → K.

Local Abbreviation items := (fmap (M := list) (λ x : A, (key x, x))).

Lemma items_keys (vs : list A) : (items vs).*1 = key <$> vs.
Proof. rewrite <- list_fmap_compose. by apply list_fmap_ext. Qed.

Lemma items_values (vs : list A) : (items vs).*2 = vs.
Proof.
  rewrite <- list_fmap_compose. rewrite <- (list_fmap_id vs) at 2.
  by apply list_fmap_ext.
Qed.

Lemma items_filter (k : K) (vs : list A) :
  filter (λ kv : K * A, kv.1 ≠ k) (items vs)
  = items (filter (λ y, key y ≠ k) vs).
Proof.
  induction vs as [|v vs IH]; [done|].
  rewrite fmap_cons, !filter_cons. simpl.
  destruct (decide (key v ≠ k)); by rewrite IH.
Qed.

Lemma keys_filter (k : K) (vs : list A) :
  key <$> filter (λ y, key y ≠ k) vs = filter (λ k', k' ≠ k) (key <$> vs).
Proof.
  induction vs as [|v vs IH]; [done|].
  rewrite fmap_cons, !filter_cons.
  destruct (decide (key v ≠ k)); by rewrite ?fmap_cons, IH.
Qed.

Lemma filter_all (P : A → Prop) `{∀ x, Decision (P x)} (vs : list A) :
  (∀ x, x ∈ vs → P x) → filter P vs = vs.
Proof.
  induction vs as [|v vs IH]; intros HP; [done|].
  rewrite filter_cons_True by (apply HP, list_elem_of_here).
  f_equal. apply IH. intros x Hx. by apply HP, list_elem_of_further.
Qed.

Lemma step_first (vs : list A) (x : A) :
  remove_duplicates_step key false (items vs) x
  = items (if decide (key x ∈ key <$> vs) then vs else vs ++ [x]).
Proof.
  unfold remove_duplicates_step, od_set, od_contains. simpl.
  rewrite items_keys.
  destruct (decide (key x ∈ key <$> vs)) as [Hin|Hnin].
  - by rewrite bool_decide_true.
  - rewrite bool_decide_false by done. simpl. by rewrite fmap_app.
Qed.

Lemma step_last (vs : list A) (x : A) :
  remove_duplicates_step key true (items vs) x
  = items (filter (λ y, key y ≠ key x) vs ++ [x]).
Proof.
  unfold remove_duplicates_step, od_set, od_contains, od_del. simpl.
  rewrite items_keys.
  destruct (decide (key x ∈ key <$> vs)) as [Hin|Hnin].
  - rewrite (bool_decide_true _ Hin). rewrite items_filter, items_keys.
    rewrite bool_decide_false; [by rewrite fmap_app|].
    rewrite keys_filter, list_elem_of_filter. by intros [? _].
  - rewrite (bool_decide_false _ Hnin). rewrite items_keys.
    rewrite (bool_decide_false _ Hnin). rewrite fmap_app. do 2 f_equal.
    symmetry. apply filter_all. intros y Hy Heq. apply Hnin. rewrite <- Heq.
    by apply list_elem_of_fmap_2.
Qed.

Lemma state_items (keep_last : bool) (l : list A) :
  fold_left (remove_duplicates_step key keep_last) l []
  = items (remove_duplicates key keep_last l).
Proof.
  unfold remove_duplicates, od_values.
  induction l as [|x l IH] using rev_ind; [done|].
  rewrite fold_left_app. simpl. rewrite IH.
  destruct keep_last; [rewrite step_last|rewrite step_first];
    by rewrite !items_values.
Qed.

Lemma remove_duplicates_snoc_first (l : list A) (x : A) :
  remove_duplicates key false (l ++ [x])
  = if decide (key x ∈ key <$> remove_duplicates key false l)
    then remove_duplicates key false l
    else remove_duplicates key false l ++ [x].
Proof.
  unfold remove_duplicates at 1, od_values.
  rewrite fold_left_app. simpl. by rewrite state_items, step_first, items_values.
Qed.

Lemma remove_duplicates_snoc_last (l : list A) (x : A) :
  remove_duplicates key true (l ++ [x])
  = filter (λ y, key y ≠ key x) (remove_duplicates key true l) ++ [x].
Proof.
  unfold remove_duplicates at 1, od_values.
  rewrite fold_left_app. simpl. by rewrite state_items, step_last, items_values.
Qed.

Lemma remove_duplicates_NoDup_cover (keep_last : bool) (l : list A) :
  NoDup (key <$> remove_duplicates key keep_last l)
  ∧ (∀ x, x ∈ remove_duplicates key keep_last l → x ∈ l)
  ∧ (∀ x, x ∈ l → key x ∈ key <$> remove_duplicates key keep_last l).
Proof using Type*.
  induction l as [|x l (IHnd & IHsub & IHcov)] using rev_ind.
  - split; [apply NoDup_nil_2|]. split; [done|]. intros x Hx.
    by apply elem_of_nil in Hx.
  - destruct keep_last.
    + rewrite remove_duplicates_snoc_last. split; [|split].
      * rewrite fmap_app, keys_filter. apply NoDup_app. split; [|split].
        -- by apply NoDup_filter.
        -- intros k Hk Hk'. apply list_elem_of_filter in Hk as [Hne _].
           by apply list_elem_of_singleton in Hk'.
        -- apply NoDup_singleton.
      * intros y Hy. apply elem_of_app in Hy as [Hy|Hy]; apply elem_of_app.
        -- left. apply list_elem_of_filter in Hy as [_ Hy]. by apply IHsub.
        -- by right.
      * intros y Hy. rewrite fmap_app, keys_filter. apply elem_of_app.
        destruct (decide (key y = key x)) as [->|Hne].
        -- right. apply list_elem_of_here.
        -- left. apply list_elem_of_filter. split; [done|].
           apply elem_of_app in Hy as [Hy|Hy]; [by apply IHcov|].
           by apply list_elem_of_singleton in Hy as ->.
    + rewrite remove_duplicates_snoc_first.
      destruct (decide (key x ∈ key <$> remove_duplicates key false l))
        as [Hin|Hnin]; (split; [|split]).
      * done.
      * intros y Hy. apply elem_of_app. left. by apply IHsub.
      * intros y Hy. apply elem_of_app in Hy as [Hy|Hy]; [by apply IHcov|].
        by apply list_elem_of_singleton in Hy as ->.
      * rewrite fmap_app. apply NoDup_app. split; [done|]. split.
        -- intros k Hk Hk'. by apply list_elem_of_singleton in Hk' as ->.
        -- apply NoDup_singleton.
      * intros y Hy. apply elem_of_app in Hy as [Hy|Hy]; apply elem_of_app.
        -- left. by apply IHsub.
        -- by right.
      * intros y Hy. rewrite fmap_app. apply elem_of_app.
        apply elem_of_app in Hy as [Hy|Hy]; [left; by apply IHcov|].
        right. apply list_elem_of_singleton in Hy as ->. apply list_elem_of_here.
Qed.

(** X11: the result of [remove_duplicates] has no key twice, holds only
    elements of the input, and holds an element for every key of the
    input; this for the first and for the last occurrences alike. *)
Theorem remove_duplicates_keys (keep_last : bool) (l : list A) :
  NoDup (key <$> remove_duplicates key keep_last l)
  ∧ (∀ x, x ∈ remove_duplicates key keep_last l → x ∈ l)
  ∧ (∀ x, x ∈ l → key x ∈ key <$> remove_duplicates key keep_last l).
Proof using Type*. apply remove_duplicates_NoDup_cover. Qed.

Lemma remove_duplicates_key_set (keep_last : bool) (l : list A) (k : K) :
  k ∈ key <$> remove_duplicates key keep_last l ↔ k ∈ key <$> l.
Proof using Type*.
  destruct (remove_duplicates_NoDup_cover keep_last l) as (_ & Hsub & Hcov).
  split; intros Hk; apply list_elem_of_fmap in Hk as (y & -> & Hy).
  - by apply list_elem_of_fmap_2, Hsub.
  - by apply Hcov.
Qed.

Lemma remove_duplicates_cons_first (x : A) (l : list A) :
  remove_duplicates key false (x :: l)
  = x :: filter (λ y, key y ≠ key x) (remove_duplicates key false l).
Proof using Type*.
  induction l as [|z l IH] using rev_ind; [done|].
  change (x :: l ++ [z]) with ((x :: l) ++ [z]).
  rewrite !remove_duplicates_snoc_first, IH.
  rewrite fmap_cons, keys_filter.
  destruct (decide (key z = key x)) as [Hzx|Hzx].
  - rewrite decide_True by (rewrite Hzx; apply list_elem_of_here).
    destruct (decide (key z ∈ _)); [done|].
    rewrite filter_app, filter_cons_False by (by intros ?).
    by rewrite app_nil_r.
  - destruct (decide (key z ∈ key <$> remove_duplicates key false l))
      as [Hin|Hnin].
    + rewrite decide_True; [done|]. apply list_elem_of_further.
      by apply list_elem_of_filter.
    + rewrite decide_False.
      * by rewrite filter_app, filter_cons_True by done.
      * intros Hin. apply elem_of_cons in Hin as [?|Hin]; [done|].
        by apply list_elem_of_filter in Hin as [_ ?].
Qed.

(** X12: without [keep_last], [remove_duplicates] keeps the first element
    of the input and drops every later element with its key; the result is
    the input with some elements left out, in the order of the input. *)
Theorem remove_duplicates_first (x : A) (l : list A) :
  remove_duplicates key false (x :: l)
  = x :: filter (λ y, key y ≠ key x) (remove_duplicates key false l)
  ∧ remove_duplicates key false l `sublist_of` l.
Proof using Type*.
  split; [apply remove_duplicates_cons_first|].
  induction l as [|z l IH] using rev_ind; [done|].
  rewrite remove_duplicates_snoc_first. case_decide.
  - by apply sublist_inserts_r.
  - by apply sublist_app.
Qed.

(** X13: keeping the last occurrences is keeping the first occurrences of
    the reversed input, reversed. *)
Theorem remove_duplicates_last_reverse (l : list A) :
  remove_duplicates key true l
  = reverse (remove_duplicates key false (reverse l)).
Proof using Type*.
  induction l as [|x l IH] using rev_ind; [done|].
  rewrite remove_duplicates_snoc_last, reverse_snoc.
  rewrite remove_duplicates_cons_first.
  by rewrite reverse_cons, <- filter_reverse, <- IH.
Qed.

(** X14: an input whose keys are all different is returned as it is; hence
    removing the duplicates of a result changes nothing. *)
Theorem remove_duplicates_fixed (keep_last : bool) (l : list A) :
  (NoDup (key <$> l) → remove_duplicates key keep_last l = l)
  ∧ remove_duplicates key keep_last (remove_duplicates key keep_last l)
    = remove_duplicates key keep_last l.
Proof using Type*.
  assert (Hfix : ∀ l', NoDup (key <$> l') →
            remove_duplicates key keep_last l' = l').
  { induction l' as [|x l' IH] using rev_ind; [done|].
    rewrite fmap_app. intros Hnd.
    apply NoDup_app in Hnd as (Hnd & Hnin & _). specialize (IH Hnd).
    assert (Hx : key x ∉ key <$> l').
    { intros Hin. apply (Hnin _ Hin), list_elem_of_here. }
    destruct keep_last.
    - rewrite remove_duplicates_snoc_last, IH. f_equal.
      apply filter_all. intros y Hy Heq. apply Hx. rewrite <- Heq.
      by apply list_elem_of_fmap_2.
    - rewrite remove_duplicates_snoc_first, IH. by rewrite decide_False. }
  split; [apply Hfix|].
  apply Hfix. apply remove_duplicates_NoDup_cover.
Qed.

End RemoveDuplicates.

Lemma remove_duplicates_fixed_witness :
  remove_duplicates Z.abs false [1; -2; 3]%Z = [1; -2; 3]%Z
  ∧ remove_duplicates Z.abs true [1; -1; 2]%Z = [-1; 2]%Z.
Proof.
  split; [|reflexivity].
  apply (remove_duplicates_fixed Z.abs false [1; -2; 3]%Z).
  apply (bool_decide_unpack _). vm_compute. exact I.
Defined.

(** *** generate_batches *)

Lemma batches_loop_spec {A} (n : nat) :
  0 < n →
  ∀ fuel (l : list A),
    length l < fuel →
    ∃ bs, batches_loop fuel l n = Some bs
          ∧ mjoin bs = l
          ∧ ∀ i, bs !! i = if decide (i * n < length l)
                           then Some (take n (drop (i * n) l)) else None.
Proof.
  intros Hn. induction fuel as [|fuel IH]; intros l Hl; [lia|].
  cbn [batches_loop]. cbv zeta.
  destruct (decide (length (take n l) = 0)) as [Hz|Hnz].
  - assert (l = []) as ->.
    { rewrite length_take in Hz. destruct l; [done|simpl in Hz; lia]. }
    exists []. split; [done|]. split; [done|]. intros i.
    rewrite decide_False by (simpl; lia). done.
  - assert (Hlen : 0 < length l).
    { rewrite length_take in Hnz. lia. }
    destruct (IH (drop n l)) as (bs & -> & Hjoin & Hat).
    { rewrite length_drop. lia. }
    simpl. eexists. split; [done|]. split.
    + simpl. by rewrite Hjoin, take_drop.
    + intros [|i]; simpl.
      * by rewrite decide_True by lia.
      * rewrite Hat, length_drop, drop_drop.
        destruct (decide (i * n < length l - n));
          [rewrite decide_True by lia|rewrite decide_False by lia]; done.
Qed.

(** X15: for a positive size, [generate_batches] comes to an end and
    yields the consecutive slices of the input of that size, the last one
    possibly shorter and none empty; put end to end they give the input
    back. For the size 0 it yields nothing, whatever the input, and for a
    negative size it raises ValueError. *)
Theorem generate_batches_spec {A} (fuel : nat) (l : list A) (batch_size : Z) :
  ((0 < batch_size)%Z → length l < fuel →
   ∃ bs, generate_batches fuel l batch_size = Some (Ok bs)
         ∧ mjoin bs = l
         ∧ ∀ i, bs !! i
                = if decide (i * Z.to_nat batch_size < length l)
                  then Some (take (Z.to_nat batch_size)
                                  (drop (i * Z.to_nat batch_size) l))
                  else None)
  ∧ (batch_size = 0%Z → 0 < fuel → generate_batches fuel l batch_size = Some (Ok []))
  ∧ ((batch_size < 0)%Z → generate_batches fuel l batch_size = Some (Raise ValueError)).
Proof.
  unfold generate_batches. split; [|split].
  - intros Hn Hfuel. destruct (Z.ltb_spec batch_size 0); [lia|].
    destruct (batches_loop_spec (Z.to_nat batch_size) ltac:(lia) fuel l Hfuel)
      as (bs & -> & Hjoin & Hat).
    by exists bs.
  - intros -> Hfuel. destruct fuel as [|fuel]; [lia|]. done.
  - intros Hn. by destruct (Z.ltb_spec batch_size 0); [|lia].
Qed.

Lemma generate_batches_spec_witness :
  generate_batches 6 [1; 2; 3; 4; 5]%Z 2 = Some (Ok [[1; 2]; [3; 4]; [5]]%Z)
  ∧ generate_batches 6 [1; 2; 3; 4; 5]%Z 0 = Some (Ok [])
  ∧ generate_batches 6 [1; 2; 3; 4; 5]%Z (-1) = Some (Raise ValueError).
Proof.
  destruct (generate_batches_spec 6 [1; 2; 3; 4; 5]%Z 2) as (Hpos & _).
  destruct (generate_batches_spec 6 [1; 2; 3; 4; 5]%Z 0) as (_ & Hzero & _).
  destruct (generate_batches_spec 6 [1; 2; 3; 4; 5]%Z (-1)) as (_ & _ & Hneg).
  split; [|split; [apply Hzero; [done|lia]|apply Hneg; lia]].
  destruct Hpos as (bs & -> & _ & Hat); [lia|simpl; lia|].
  do 2 f_equal. apply list_eq. intros i. rewrite Hat.
  destruct i as [|[|[|[|i]]]]; try reflexivity;
    try (rewrite decide_False by (simpl; lia); done).
Defined.

(** *** generate_ngrams *)

Lemma zip_star_lookup {A} (ls : list (list A)) (k : nat) (row : list A) :
  ls ≠ [] →
  zip_star ls !! k = Some row ↔ Forall2 (λ l x, l !! k = Some x) ls row.
Proof.
  induction ls as [|l ls IH] in row |- *; [done|]. intros _.
  destruct ls as [|l' ls].
  - simpl. rewrite list_lookup_fmap. split.
    + destruct (l !! k) as [x|] eqn:Hx; [|done]. intros [= <-].
      by repeat constructor.
    + intros Hf. apply Forall2_cons_inv_l in Hf as (x & r & Hx & Hr & ->).
      apply Forall2_nil_inv_l in Hr as ->. by rewrite Hx.
  - change (zip_star (l :: l' :: ls))
      with (zip_with cons l (zip_star (l' :: ls))).
    rewrite lookup_zip_with_Some. split.
    + intros (x & r & -> & Hx & Hr). constructor; [done|]. by apply IH.
    + intros Hf. apply Forall2_cons_inv_l in Hf as (x & r & Hx & Hr & ->).
      exists x, r. split; [done|]. split; [done|]. by apply IH.
Qed.

(** X16: for [n >= 1], [generate_ngrams] yields the windows of [n]
    consecutive elements of the input, one for every position at which a
    whole window fits, in order; for [n = 0] it yields nothing, and for a
    negative [n] it raises ValueError. *)
Theorem generate_ngrams_spec {A} (l : list A) (n : Z) :
  ((1 <= n)%Z →
   ∃ grams, generate_ngrams l n = Ok grams
            ∧ ∀ k, grams !! k
                   = if decide (k + Z.to_nat n ≤ length l)
                     then Some (take (Z.to_nat n) (drop k l)) else None)
  ∧ (n = 0%Z → generate_ngrams l n = Ok [])
  ∧ ((n < 0)%Z → generate_ngrams l n = Raise ValueError).
Proof.
  unfold generate_ngrams. split; [|split].
  - intros Hn. destruct (Z.ltb_spec n 0); [lia|]. eexists. split; [done|].
    set (m := Z.to_nat n). assert (Hm : 0 < m) by lia. intros k.
    assert (Hne : (λ i, drop i l) <$> seq 0 m ≠ []).
    { destruct m; [lia|done]. }
    assert (Hrow : ∀ row,
              Forall2 (λ l' x, l' !! k = Some x) ((λ i, drop i l) <$> seq 0 m) row
              ↔ k + m ≤ length l ∧ row = take m (drop k l)).
    { intros row. rewrite Forall2_fmap_l, Forall2_same_length_lookup, length_seq.
      split.
      - intros [Hlen Hat]. assert (Hfit : k + m ≤ length l).
        { destruct (lookup_lt_is_Some_2 row (m - 1)) as [y Hy]; [lia|].
          specialize (Hat (m - 1) (m - 1) y).
          rewrite lookup_seq_lt in Hat by lia. specialize (Hat eq_refl Hy).
          simpl in Hat. rewrite lookup_drop in Hat.
          apply lookup_lt_Some in Hat. lia. }
        split; [done|]. apply list_eq. intros j.
        destruct (decide (j < m)) as [Hj|Hj].
        + destruct (lookup_lt_is_Some_2 row j) as [y Hy]; [lia|].
          specialize (Hat j j y). rewrite lookup_seq_lt in Hat by lia.
          specialize (Hat eq_refl Hy). simpl in Hat.
          rewrite lookup_drop in Hat.
          rewrite Hy, lookup_take_lt, lookup_drop by done.
          rewrite <- Hat. f_equal. lia.
        + rewrite lookup_ge_None_2 by lia.
          symmetry. apply lookup_ge_None_2. rewrite length_take. lia.
      - intros [Hfit ->]. split.
        + rewrite length_take, length_drop. lia.
        + intros j i y Hi Hy. apply lookup_seq in Hi as [-> Hj]. simpl.
          rewrite lookup_take_lt, lookup_drop in Hy by done.
          rewrite lookup_drop, <- Hy. f_equal. lia. }
    destruct (decide (k + m ≤ length l)) as [Hfit|Hfit].
    + apply zip_star_lookup; [done|]. by apply Hrow.
    + destruct (zip_star _ !! k) as [row|] eqn:Hk; [|done].
      apply zip_star_lookup in Hk; [|done]. by apply Hrow in Hk as [? _].
  - by intros ->.
  - intros Hn. by destruct (Z.ltb_spec n 0); [|lia].
Qed.

Lemma generate_ngrams_spec_witness :
  generate_ngrams ["a"; "b"; "c"; "d"] 2 = Ok [["a"; "b"]; ["b"; "c"]; ["c"; "d"]]
  ∧ generate_ngrams ["a"; "b"; "c"; "d"] 5 = Ok []
  ∧ generate_ngrams ["a"; "b"; "c"; "d"] 0 = Ok [].
Proof.
  destruct (generate_ngrams_spec ["a"; "b"; "c"; "d"] 2) as (H2 & _).
  destruct (generate_ngrams_spec ["a"; "b"; "c"; "d"] 5) as (H5 & _).
  destruct (generate_ngrams_spec ["a"; "b"; "c"; "d"] 0) as (_ & H0 & _).
  split; [|split; [|by apply H0]].
  - destruct H2 as (grams & -> & Hat); [lia|]. f_equal.
    apply list_eq. intros k. rewrite Hat.
    destruct k as [|[|[|k]]]; try reflexivity;
      try (rewrite decide_False by (simpl; lia); done).
  - destruct H5 as (grams & -> & Hat); [lia|]. f_equal.
    apply list_eq. intros k. rewrite Hat.
    rewrite decide_False by (simpl; lia). done.
Defined.

(** *** repeat_each *)

Lemma fst_product_one {A B} (x : A) (ys : list B) :
  (ys ≫= λ y, [(x, y)]).*1 = replicate (length ys) x.
Proof.
  induction ys as [|y ys IH]; [done|].
  rewrite bind_cons, fmap_app, IH. done.
Qed.

Lemma repeat_each_bind {A} (l : list A) (r : Z) :
  repeat_each l r = l ≫= λ x, replicate (Z.to_nat r) x.
Proof.
  unfold repeat_each, product.
  induction l as [|x l IH]; [done|].
  rewrite !bind_cons, fmap_app, IH. f_equal.
  rewrite fst_product_one. unfold range. by rewrite length_fmap, length_seq.
Qed.

(** X17: [repeat_each] yields each element of the input [repeats] times
    running, in the order of the input: the element at position [k] of the
    result is the one at position [k / repeats] of the input, and the
    result is [repeats] times as long as the input. For [repeats <= 0]
    nothing is yielded. *)
Theorem repeat_each_spec {A} (l : list A) (repeats : Z) :
  length (repeat_each l repeats) = length l * Z.to_nat repeats
  ∧ (∀ k, k < length l * Z.to_nat repeats →
          repeat_each l repeats !! k = l !! (k / Z.to_nat repeats))
  ∧ ((repeats <= 0)%Z → repeat_each l repeats = []).
Proof.
  rewrite repeat_each_bind. set (n := Z.to_nat repeats). split; [|split].
  - induction l as [|x l IH]; [done|].
    rewrite bind_cons, length_app, length_replicate, IH. simpl. lia.
  - induction l as [|x l IH]; intros k Hk; [simpl in Hk; lia|].
    rewrite bind_cons. simpl in Hk.
    assert (Hn : 0 < n) by lia.
    destruct (decide (k < n)) as [Hlt|Hge].
    + rewrite lookup_app_l by (rewrite length_replicate; lia).
      rewrite Nat.div_small by done. simpl. by apply lookup_replicate_2.
    + rewrite lookup_app_r by (rewrite length_replicate; lia).
      rewrite length_replicate, IH by lia.
      replace k with ((k - n) + 1 * n) at 2 by lia.
      rewrite Nat.div_add by lia. by rewrite Nat.add_1_r.
  - intros Hr. replace n with 0 by lia.
    induction l as [|x l IH]; [done|]. by rewrite bind_cons, IH.
Qed.

Lemma repeat_each_spec_witness :
  repeat_each ["a"; "b"] 3 = ["a"; "a"; "a"; "b"; "b"; "b"]
  ∧ repeat_each ["a"; "b"] 3 !! 4 = Some "b"
  ∧ repeat_each ["a"; "b"] (-1) = [].
Proof.
  destruct (repeat_each_spec ["a"; "b"] 3) as (_ & Hat & _).
  destruct (repeat_each_spec ["a"; "b"] (-1)) as (_ & _ & Hneg).
  split; [reflexivity|]. split; [|apply Hneg; lia].
  rewrite Hat by (simpl; lia). reflexivity.
Defined.

(** *** merge_dicts *)

Section MergeDictsFacts.
Context {K V : Type} `{Countable K}.

Lemma merge_with_list_lookup (dicts : list (gmap K V)) (k : K) :
  merge_with_list dicts !! k
  = match omap (.!! k) dicts with
    | [] => None
    | vs => Some vs
    end.
Proof.
  unfold merge_with_list.
  induction dicts as [|d dicts IH] using rev_ind; [done|].
  rewrite fold_left_app. simpl. rewrite lookup_union_with, IH, lookup_fmap.
  rewrite omap_app. simpl.
  destruct (omap (.!! k) dicts) as [|v vs]; destruct (d !! k) as [w|]; simpl;
    try done.
  by rewrite app_nil_r.
Qed.

Lemma merge_dicts_lookup_values (merge_fn : K → list V → option V)
    (dicts : list (gmap K V)) :
  (∀ k vs, 2 ≤ length vs → is_Some (merge_fn k vs)) →
  ∃ m, merge_dicts merge_fn dicts = Some m
       ∧ ∀ k, m !! k = match omap (.!! k) dicts with
                       | [] => None
                       | [v] => Some v
                       | vs => merge_fn k vs
                       end.
Proof.
  intros Htotal. unfold merge_dicts. cbv zeta.
  rewrite decide_True.
  - eexists. split; [done|]. intros k.
    rewrite map_lookup_imap, merge_with_list_lookup.
    destruct (omap (.!! k) dicts) as [|v [|v' vs]]; done.
  - apply map_Forall_lookup. intros k vs Hvs.
    rewrite merge_with_list_lookup in Hvs. unfold item_map.
    destruct (omap (.!! k) dicts) as [|v [|v' vs']]; [done|..];
      injection Hvs as <-; [by eexists|].
    rewrite decide_False by (simpl; lia). apply Htotal. simpl. lia.
Qed.

(** X18: [merge_dicts] gives a key found in one dict only the value it has
    there, without consulting the merge function, and a key found in
    several dicts the result of the merge function on the key and the
    values in the order of the dicts; keys found in no dict are absent. *)
Theorem merge_dicts_spec (merge_fn : K → list V → option V)
    (dicts : list (gmap K V)) :
  (∀ k vs, 2 ≤ length vs → is_Some (merge_fn k vs)) →
  ∃ m, merge_dicts merge_fn dicts = Some m
       ∧ ∀ k, m !! k = match omap (.!! k) dicts with
                       | [] => None
                       | [v] => Some v
                       | vs => merge_fn k vs
                       end.
Proof. apply merge_dicts_lookup_values. Qed.

(** X19: with the default merge function the last dict that has a key
    wins: the result holds, for every key, the value of the last of the
    dicts that have it. *)
Theorem merge_dicts_default (dicts : list (gmap K V)) :
  ∃ m, merge_dicts default_merge_fn dicts = Some m
       ∧ (∀ k, m !! k = last (omap (.!! k) dicts))
       ∧ (∀ d, merge_dicts default_merge_fn (dicts ++ [d])
               = Some (d ∪ m)).
Proof.
  assert (Hdef : ∀ ds : list (gmap K V),
            ∃ m, merge_dicts default_merge_fn ds = Some m
                 ∧ ∀ k, m !! k = last (omap (.!! k) ds)).
  { intros ds.
    destruct (merge_dicts_lookup_values default_merge_fn ds) as (m & Hm & Hat).
    { intros k vs Hvs. unfold default_merge_fn.
      destruct vs as [|v vs] using rev_ind; [simpl in Hvs; lia|].
      rewrite last_snoc. by eexists. }
    exists m. split; [done|]. intros k. rewrite Hat.
    by destruct (omap (.!! k) ds) as [|v [|v' vs]]. }
  destruct (Hdef dicts) as (m & Hm & Hat).
  exists m. split; [done|]. split; [done|].
  intros d. destruct (Hdef (dicts ++ [d])) as (m' & -> & Hat').
  f_equal. apply map_eq. intros k.
  rewrite Hat', omap_app, lookup_union, Hat. simpl.
  destruct (d !! k) as [w|].
  - rewrite last_snoc. by destruct (last _).
  - rewrite app_nil_r. by destruct (last _).
Qed.

End MergeDictsFacts.

Lemma merge_dicts_spec_witness :
  ∃ m, merge_dicts (λ (k : string) (vs : list Z), Some (foldr Z.add 0%Z vs))
                   [ {["a" := 1%Z; "b" := 2%Z]}; {["b" := 3%Z]} ]
       = Some m
       ∧ m !! "a" = Some 1%Z ∧ m !! "b" = Some 5%Z ∧ m !! "c" = None.
Proof.
  destruct (merge_dicts_spec (λ (k : string) (vs : list Z), Some (foldr Z.add 0%Z vs))
              [ {["a" := 1%Z; "b" := 2%Z]}; {["b" := 3%Z]} ])
    as (m & Hm & Hat); [by eexists|].
  exists m. split; [done|]. rewrite !Hat. by vm_compute.
Defined.

(** *** papply, artial *)

Section PapplyFacts.
Context {V R : Type}.
Variable func : list V → gmap string V → R.

(** The number of [Ellipsis] among the first [j] of [args]. *)
Local Abbreviation holes_before args j :=
  (length (filter (λ x : option V, x = None) (take j args))).

Lemma papply_fill_spec (fargs : list V) :
  ∀ (args : list (option V)) (acc : list V) (i : nat),
    i + length (filter (λ x, x = None) args) ≤ length fargs →
    ∃ fill,
      papply_fill args fargs acc i
      = Ok (acc ++ fill, i + length (filter (λ x, x = None) args))
      ∧ length fill = length args
      ∧ ∀ j a, args !! j = Some a →
               fill !! j = match a with
                           | Some v => Some v
                           | None => fargs !! (i + holes_before args j)
                           end.
Proof.
  induction args as [|a args IH]; intros acc i Hlen.
  - exists []. simpl. rewrite app_nil_r, Nat.add_0_r. done.
  - destruct a as [v|].
    + rewrite filter_cons_False in Hlen |- * by done. simpl.
      destruct (IH (acc ++ [v]) i Hlen) as (fill & -> & Hl & Hat).
      exists (v :: fill). rewrite <- app_assoc. split; [done|].
      split; [simpl; lia|]. intros [|j] a Ha; simpl in *.
      * by injection Ha as <-.
      * rewrite (Hat j a Ha). by destruct a.
    + rewrite filter_cons_True in Hlen |- * by done. simpl in Hlen |- *.
      destruct (lookup_lt_is_Some_2 fargs i) as [w Hw]; [lia|]. rewrite Hw.
      destruct (IH (acc ++ [w]) (S i)) as (fill & -> & Hl & Hat); [lia|].
      exists (w :: fill). rewrite <- app_assoc. split; [do 2 f_equal; lia|].
      split; [simpl; lia|]. intros [|j] a Ha; simpl in *.
      * injection Ha as <-. by rewrite Nat.add_0_r.
      * rewrite (Hat j a Ha). destruct a; [done|]. f_equal. simpl. lia.
Qed.

Lemma papply_fill_values (fargs : list V) :
  ∀ (args acc : list V) (i : nat),
    papply_fill (Some <$> args) fargs acc i = Ok (acc ++ args, i).
Proof.
  induction args as [|a args IH]; intros acc i; simpl.
  - by rewrite app_nil_r.
  - rewrite IH. by rewrite <- app_assoc.
Qed.

Lemma filter_holes_values (args : list V) :
  filter (λ x : option V, x = None) (Some <$> args) = [].
Proof.
  induction args as [|a args IH]; [done|].
  rewrite fmap_cons. by rewrite filter_cons_False.
Qed.

(** X20: the function made by [papply] raises TypeError exactly when it
    gets fewer positional arguments than there are [Ellipsis] in [args].
    Otherwise it calls [func] on [args] with each [Ellipsis] replaced, from
    left to right, by the next positional argument of the call, followed
    by the arguments of the call that are left over; of a keyword given
    both times the value of the call wins. *)
Theorem papply_spec (args : list (option V)) (kwargs : gmap string V)
    (fargs : list V) (fkwargs : gmap string V) :
  let holes := length (filter (λ x, x = None) args) in
  (length fargs < holes → papply func args kwargs fargs fkwargs = Raise TypeError)
  ∧ (holes ≤ length fargs →
     ∃ newargs,
       papply func args kwargs fargs fkwargs = Ok (func newargs (fkwargs ∪ kwargs))
       ∧ length newargs = length args + (length fargs - holes)
       ∧ (∀ j a, args !! j = Some a →
                 newargs !! j = match a with
                                | Some v => Some v
                                | None => fargs !! holes_before args j
                                end)
       ∧ drop (length args) newargs = drop holes fargs).
Proof.
  cbv zeta. unfold papply. split.
  - intros Hlt. by rewrite decide_True.
  - intros Hle. rewrite decide_False by lia.
    destruct (papply_fill_spec fargs args [] 0) as (fill & -> & Hl & Hat);
      [simpl; lia|].
    simpl. eexists. split; [reflexivity|]. split; [|split].
    + rewrite length_app, length_drop. lia.
    + intros j a Ha.
      rewrite lookup_app_l by (rewrite Hl; by eapply lookup_lt_Some).
      by rewrite (Hat j a Ha).
    + by rewrite <- Hl, drop_app_length.
Qed.

Lemma artial_papply_values (args : list V) (kwargs : gmap string V)
    (fargs : list V) (fkwargs : gmap string V) :
  artial func args kwargs fargs fkwargs
  = papply func (None :: (Some <$> args)) kwargs fargs fkwargs.
Proof.
  unfold artial, papply. rewrite filter_cons_True by done.
  rewrite filter_holes_values.
  destruct fargs as [|first rest]; simpl; [done|].
  rewrite papply_fill_values. simpl. by rewrite drop_0.
Qed.

End PapplyFacts.

(** The example of the docstring of [papply]. *)
Lemma papply_spec_witness :
  papply report_args [None; Some 2; None; Some 4]%Z ∅ [1; 3; 5]%Z ∅
  = Ok ([1; 2; 3; 4; 5]%Z, ∅)
  ∧ papply report_args [None; Some 2; None; Some 4]%Z ∅ [1]%Z ∅ = Raise TypeError.
Proof.
  destruct (papply_spec report_args [None; Some 2; None; Some 4]%Z ∅ [1]%Z ∅)
    as [Hfew _].
  split; [reflexivity|]. apply Hfew. simpl. lia.
Defined.

Lemma as_placeholders_values {V} (args : list (option V)) :
  None ∉ args → as_placeholders args = Some <$> args.
Proof.
  induction args as [|arg args IH]; [done|]. intros Hnin.
  apply not_elem_of_cons in Hnin as [Harg Hargs].
  unfold as_placeholders in *. cbn [fmap list_fmap]. f_equal; [|by apply IH].
  by destruct arg.
Qed.

Lemma as_placeholders_holes {V} (args : list (option V)) :
  None ∈ args →
  1 ≤ length (filter (λ x : option (option V), x = None) (as_placeholders args)).
Proof.
  intros Hin.
  assert (Hf : None ∈ filter (λ x : option (option V), x = None)
                             (as_placeholders args)).
  { apply list_elem_of_filter. split; [done|].
    unfold as_placeholders. apply list_elem_of_fmap. by exists None. }
  destruct (filter _ _) as [|x xs]; [by apply elem_of_nil in Hf|simpl; lia].
Qed.

(** X21: the function made by [artial] raises TypeError when it is called
    without a positional argument, and otherwise calls [func] on the first
    argument of the call, then the given arguments as they are (an
    [Ellipsis] among them is handed on as a value), then the rest of the
    call, with the keywords of both, those of the call winning. When no
    given argument is [Ellipsis] this is [papply] with an [Ellipsis] put
    before the given arguments; with an [Ellipsis] among them the two
    differ: called with one positional argument, [artial] calls [func] and
    [papply] raises TypeError. A value is [None] for [Ellipsis]. *)
Theorem artial_papply {V R : Type}
    (func : list (option V) → gmap string (option V) → R)
    (args : list (option V)) (kwargs : gmap string (option V))
    (fargs : list (option V)) (fkwargs : gmap string (option V)) :
  (fargs = [] → artial func args kwargs fargs fkwargs = Raise TypeError)
  ∧ (∀ first rest, fargs = first :: rest →
       artial func args kwargs fargs fkwargs
       = Ok (func (first :: args ++ rest) (fkwargs ∪ kwargs)))
  ∧ (None ∉ args →
       artial func args kwargs fargs fkwargs
       = papply func (None :: as_placeholders args) kwargs fargs fkwargs)
  ∧ (None ∈ args → ∀ first, fargs = [first] →
       artial func args kwargs fargs fkwargs
       = Ok (func (first :: args) (fkwargs ∪ kwargs))
       ∧ papply func (None :: as_placeholders args) kwargs fargs fkwargs
         = Raise TypeError).
Proof.
  split; [by intros ->|]. split; [by intros first rest ->|]. split.
  - intros Hnin. rewrite as_placeholders_values by done.
    apply artial_papply_values.
  - intros Hin first ->. split.
    + unfold artial. simpl. by rewrite app_nil_r.
    + unfold papply. rewrite filter_cons_True by done.
      pose proof (as_placeholders_holes args Hin) as Hholes.
      rewrite decide_True; [done|]. simpl. lia.
Qed.

(** [artial(f, 7, 8)(1, 2)] calls [f(1, 7, 8, 2)]; [artial(f, ...)(1)] calls
    [f(1, ...)], where [papply(f, ..., ...)(1)] raises TypeError. *)
Lemma artial_papply_witness :
  artial report_values [Some 7; Some 8]%Z ∅ [Some 1; Some 2]%Z ∅
  = Ok ([Some 1; Some 7; Some 8; Some 2]%Z, ∅)
  ∧ artial report_values [Some 7; Some 8]%Z ∅ [Some 1; Some 2]%Z ∅
    = papply report_values [None; Some (Some 7); Some (Some 8)]%Z ∅
             [Some 1; Some 2]%Z ∅
  ∧ artial report_values [None] ∅ [Some 1%Z] ∅ = Ok ([Some 1%Z; None], ∅)
  ∧ papply report_values [None; None] ∅ [Some 1%Z] ∅ = Raise TypeError.
Proof.
  destruct (artial_papply report_values [Some 7; Some 8]%Z ∅ [Some 1; Some 2]%Z ∅)
    as (_ & Hcall & Hsame & _).
  destruct (artial_papply report_values [None] ∅ [Some 1%Z] ∅)
    as (_ & _ & _ & Hdiff).
  split; [|split].
  - rewrite (Hcall (Some 1%Z) [Some 2%Z] eq_refl). reflexivity.
  - apply Hsame. intros Hin.
    repeat (apply elem_of_cons in Hin as [Hin|Hin]; [discriminate|]).
    by apply elem_of_nil in Hin.
  - apply (Hdiff (list_elem_of_here _ _) (Some 1%Z) eq_refl).
Defined.

(** *** CaseInsensitiveDict *)

Section CaseInsensitiveFacts.
Context {V : Type}.
Variable normalize : string → string.

Lemma cid_set_get_aux (self : CaseInsensitiveDict V) (k k' : string) (v : V) :
  (normalize k' = normalize k →
   cid_getitem normalize (cid_setitem normalize self k v) k' = Ok v)
  ∧ (normalize k' ≠ normalize k →
     cid_getitem normalize (cid_setitem normalize self k v) k'
     = cid_getitem normalize self k').
Proof.
  unfold cid_getitem, cid_setitem. simpl. split.
  - intros ->. by rewrite lookup_insert_eq.
  - intros Hne. by rewrite lookup_insert_ne.
Qed.

(** X22: a value stored under a key is found under every key with the same
    normal form, and the spelling last used is the one remembered; keys with
    another normal form are not affected. *)
Theorem cid_set_get (self : CaseInsensitiveDict V) (k k' : string) (v : V) :
  (normalize k' = normalize k →
   cid_getitem normalize (cid_setitem normalize self k v) k' = Ok v)
  ∧ (normalize k' ≠ normalize k →
     cid_getitem normalize (cid_setitem normalize self k v) k'
     = cid_getitem normalize self k')
  ∧ _k (cid_setitem normalize self k v) !! normalize k = Some k
  ∧ (dom (_d self) = dom (_k self) →
     dom (_d (cid_setitem normalize self k v))
     = dom (_k (cid_setitem normalize self k v))).
Proof.
  unfold cid_getitem, cid_setitem. simpl. split; [|split; [|split]].
  - intros ->. by rewrite lookup_insert_eq.
  - intros Hne. by rewrite lookup_insert_ne.
  - apply lookup_insert_eq.
  - intros Hdom. by rewrite !dom_insert_L, Hdom.
Qed.

(** X23: on a dict whose two tables have the same keys, deleting a key
    that is not there raises KeyError and changes nothing; deleting a key
    that is there removes it under all its spellings, leaves the other keys
    as they are, makes the dict shorter by one and keeps the tables
    together. *)
Theorem cid_delitem_spec (self : CaseInsensitiveDict V) (k : string) :
  dom (_d self) = dom (_k self) →
  (_d self !! normalize k = None →
   cid_delitem normalize self k = (Raise KeyError, self))
  ∧ (is_Some (_d self !! normalize k) →
     ∃ self',
       cid_delitem normalize self k = (Ok (), self')
       ∧ (∀ k', normalize k' = normalize k →
                cid_getitem normalize self' k' = Raise KeyError)
       ∧ (∀ k', normalize k' ≠ normalize k →
                cid_getitem normalize self' k' = cid_getitem normalize self k')
       ∧ S (cid_len self') = cid_len self
       ∧ dom (_d self') = dom (_k self')).
Proof.
  intros Hdom. unfold cid_delitem. split.
  - by intros ->.
  - intros [v Hv]. rewrite Hv. simpl.
    assert (Hk : is_Some (_k self !! normalize k)).
    { apply elem_of_dom. rewrite <- Hdom. apply elem_of_dom. by eexists. }
    destruct Hk as [s Hs]. rewrite Hs.
    eexists. split; [done|]. unfold cid_getitem, cid_len. simpl.
    split; [|split; [|split]].
    + intros k' ->. by rewrite lookup_delete_eq.
    + intros k' Hne. by rewrite lookup_delete_ne.
    + rewrite map_size_delete, Hv.
      assert (size (_d self) ≠ 0); [|lia].
      intros Hz. apply map_size_empty_iff in Hz. by rewrite Hz in Hv.
    + by rewrite !dom_delete_L, Hdom.
Qed.

Lemma cid_init_snoc (d : list (string * V)) (k : string) (v : V) :
  cid_init normalize (d ++ [(k, v)])
  = cid_setitem normalize (cid_init normalize d) k v.
Proof. unfold cid_init. by rewrite fold_left_app. Qed.

Lemma cid_init_getitem (d : list (string * V)) (k' : string) :
  cid_getitem normalize (cid_init normalize d) k'
  = match last (filter (λ kv, normalize kv.1 = normalize k') d) with
    | Some kv => Ok kv.2
    | None => Raise KeyError
    end.
Proof.
  induction d as [|[k v] d IH] using rev_ind; [done|].
  rewrite cid_init_snoc, filter_app.
  destruct (cid_set_get_aux (cid_init normalize d) k k' v) as [Hsame Hother].
  destruct (decide (normalize k' = normalize k)) as [Heq|Hne].
  - rewrite Hsame by done.
    rewrite filter_cons_True by done. by rewrite filter_nil, last_snoc.
  - rewrite Hother by done.
    rewrite filter_cons_False by (simpl; congruence).
    by rewrite filter_nil, app_nil_r.
Qed.

(** X24: a dict made from a list of pairs has as many entries as the keys
    have normal forms; under a key it holds the value of the last pair
    whose key has the same normal form, and it raises KeyError when there is
    no such pair. *)
Theorem cid_init_spec (d : list (string * V)) :
  cid_len (cid_init normalize d)
  = size (list_to_set (normalize <$> d.*1) : gset string)
  ∧ dom (_d (cid_init normalize d)) = dom (_k (cid_init normalize d))
  ∧ ∀ k, cid_getitem normalize (cid_init normalize d) k
         = match last (filter (λ kv, normalize kv.1 = normalize k) d) with
           | Some kv => Ok kv.2
           | None => Raise KeyError
           end.
Proof.
  assert (Hdom : dom (_d (cid_init normalize d))
                 = list_to_set (normalize <$> d.*1)
                 ∧ dom (_k (cid_init normalize d))
                   = list_to_set (normalize <$> d.*1)).
  { induction d as [|[k v] d [IHd IHk]] using rev_ind.
    - unfold cid_init. simpl. by rewrite !dom_empty_L.
    - rewrite cid_init_snoc. simpl.
      rewrite !dom_insert_L, IHd, IHk, !fmap_app, list_to_set_app_L.
      rewrite !fmap_cons, !fmap_nil, list_to_set_cons, list_to_set_nil.
      rewrite (right_id_L ∅ (∪)). simpl. split; apply (comm_L (∪)). }
  destruct Hdom as [Hd Hk]. split; [|split].
  - unfold cid_len. by rewrite <- size_dom, Hd.
  - by rewrite Hd, Hk.
  - apply cid_init_getitem.
Qed.

End CaseInsensitiveFacts.

Lemma cid_set_get_witness :
  cid_getitem lower_abc (cid_setitem lower_abc (mk_cid ∅ ∅) "A" 1%Z) "a" = Ok 1%Z
  ∧ cid_getitem lower_abc (cid_setitem lower_abc (mk_cid ∅ ∅) "A" 1%Z) "B"
    = Raise KeyError.
Proof.
  destruct (cid_set_get lower_abc (mk_cid ∅ ∅) "A" "a" 1%Z) as (Hsame & _).
  destruct (cid_set_get lower_abc (mk_cid ∅ ∅) "A" "B" 1%Z) as (_ & Hother & _).
  split; [by apply Hsame|]. by rewrite Hother.
Defined.

Lemma cid_delitem_spec_witness :
  ∃ self',
    cid_delitem lower_abc (cid_init lower_abc [("A", 1%Z); ("b", 2%Z)]) "a"
    = (Ok (), self')
    ∧ cid_getitem lower_abc self' "A" = Raise KeyError
    ∧ cid_getitem lower_abc self' "B" = Ok 2%Z
    ∧ cid_len self' = 1.
Proof.
  destruct (cid_delitem_spec lower_abc
              (cid_init lower_abc [("A", 1%Z); ("b", 2%Z)]) "a")
    as [_ Hdel]; [by vm_compute|].
  destruct Hdel as (self' & Hrun & Hgone & Hkeep & Hlen & _);
    [by vm_compute; eexists|].
  exists self'. split; [done|]. split; [by apply Hgone|].
  split; [by rewrite Hkeep|].
  assert (Hl : cid_len (cid_init lower_abc [("A", 1%Z); ("b", 2%Z)]) = 2)
    by (by vm_compute).
  lia.
Defined.

Lemma cid_init_spec_witness :
  cid_len (cid_init lower_abc [("A", 1%Z); ("b", 2%Z); ("a", 3%Z)]) = 2
  ∧ cid_getitem lower_abc (cid_init lower_abc [("A", 1%Z); ("b", 2%Z); ("a", 3%Z)]) "A"
    = Ok 3%Z.
Proof.
  destruct (cid_init_spec lower_abc [("A", 1%Z); ("b", 2%Z); ("a", 3%Z)])
    as (Hlen & _ & Hget).
  split; [by rewrite Hlen|]. by rewrite Hget.
Defined.

(** *** cached_property *)

Section CachedPropertyFacts.
Context {W V E : Type}.
Variable fn : W → result E V * W.
Variable now : W → Z.
Variable datetime_min datetime_max : Z.
Variable name : string.
Variable expires_after : option Z.

Lemma cached_property_get_Ok obj w v obj' w' n :
  cached_property_get fn now datetime_min datetime_max name expires_after obj w
  = (Ok v, obj', w', n) →
  ∃ times values t,
    obj' = mk_cache_obj (Some times) (Some values)
    ∧ times !! name = Some t ∧ values !! name = Some v
    ∧ (n = 1 → expires_after = None → t = datetime_max).
Proof.
  unfold cached_property_get. cbv zeta.
  set (times := default ∅ (_property_cache_expiry_times obj)).
  set (values := default ∅ (_property_cache_values obj)).
  destruct (times !! name) as [t|] eqn:Ht.
  - destruct (now w >? t)%Z.
    + destruct (fn w) as [[v1|e] w1]; [|done].
      destruct expires_after as [d|].
      * destruct (_ && _); [|done]. intros [= <- <- <- <-].
        eexists _, _, _. split; [done|].
        by rewrite !lookup_insert_eq.
      * intros [= <- <- <- <-]. eexists _, _, _. split; [done|].
        by rewrite !lookup_insert_eq.
    + destruct (values !! name) as [v1|] eqn:Hv; [|done].
      intros [= <- <- <- <-]. eexists _, _, _. split; [done|]. done.
  - destruct (fn w) as [[v1|e] w1]; [|done].
    destruct expires_after as [d|].
    + destruct (_ && _); [|done]. intros [= <- <- <- <-].
      eexists _, _, _. split; [done|]. by rewrite !lookup_insert_eq.
    + intros [= <- <- <- <-]. eexists _, _, _. split; [done|].
      by rewrite !lookup_insert_eq.
Qed.

(** X25: once the property has been read, reading it again before its
    expiry time returns the same value without calling the wrapped function
    and changes neither the object nor the world. Without [expires_after]
    the value computed is kept for good, no instant lying after
    [datetime.max]. *)
Theorem cached_property_cached obj w v obj' w' n :
  cached_property_get fn now datetime_min datetime_max name expires_after obj w
  = (Ok v, obj', w', n) →
  (∀ w2 times t,
     _property_cache_expiry_times obj' = Some times →
     times !! name = Some t → (now w2 <= t)%Z →
     cached_property_get fn now datetime_min datetime_max name expires_after obj' w2
     = (Ok v, obj', w2, 0))
  ∧ (n = 1 → expires_after = None → (∀ w2, (now w2 <= datetime_max)%Z) →
     ∀ w2,
       cached_property_get fn now datetime_min datetime_max name expires_after obj' w2
       = (Ok v, obj', w2, 0)).
Proof.
  intros Hget.
  destruct (cached_property_get_Ok _ _ _ _ _ _ Hget)
    as (times & values & t & -> & Ht & Hv & Hmax).
  assert (Hagain : ∀ w2, (now w2 <= t)%Z →
            cached_property_get fn now datetime_min datetime_max name
                                expires_after
                                (mk_cache_obj (Some times) (Some values)) w2
            = (Ok v, mk_cache_obj (Some times) (Some values), w2, 0)).
  { intros w2 Hle. unfold cached_property_get. simpl. rewrite Ht, Hv.
    by destruct (Z.gtb_spec (now w2) t); [lia|]. }
  split.
  - intros w2 times' t' [= <-] Ht' Hle. rewrite Ht in Ht'.
    injection Ht' as <-. by apply Hagain.
  - intros Hn Hnone Hnow w2. apply Hagain. rewrite (Hmax Hn Hnone). apply Hnow.
Qed.

(** X26: the wrapped function is called, once, when the property is read
    after its expiry time or after it has been deleted, also when the
    value is still in its table: the read returns what the function
    returns then (the new expiry time being in the range of [datetime]). *)
Theorem cached_property_recomputed obj w v w1 :
  fn w = (Ok v, w1) →
  match expires_after with
  | None => True
  | Some d => (datetime_min <= now w1 + d <= datetime_max)%Z
  end →
  (∀ times t, _property_cache_expiry_times obj = Some times →
              times !! name = Some t → (t < now w)%Z →
              ∃ obj', cached_property_get fn now datetime_min datetime_max name
                                          expires_after obj w
                      = (Ok v, obj', w1, 1))
  ∧ ∃ obj', cached_property_get fn now datetime_min datetime_max name
                                expires_after (cached_property_delete name obj) w
            = (Ok v, obj', w1, 1).
Proof.
  intros Hfn Hrange.
  assert (Hfresh : ∀ times (values : gmap string V),
            ∃ obj', match expires_after with
                    | None =>
                        (Ok v, mk_cache_obj (Some (<[name:=datetime_max]> times))
                                            (Some (<[name:=v]> values)), w1, 1)
                    | Some d =>
                        if ((datetime_min <=? now w1 + d)
                            && (now w1 + d <=? datetime_max))%Z
                        then (Ok v, mk_cache_obj (Some (<[name:=(now w1 + d)%Z]> times))
                                                 (Some (<[name:=v]> values)), w1, 1)
                        else (Raise ExpiryOverflow,
                              mk_cache_obj (Some times) (Some (<[name:=v]> values)),
                              w1, 1)
                    end
                    = (@Ok (cache_error E) V v, obj', w1, 1)).
  { intros times values. destruct expires_after as [d|]; [|by eexists].
    destruct (Z.leb_spec datetime_min (now w1 + d)); [|lia].
    destruct (Z.leb_spec (now w1 + d) datetime_max); [|lia]. by eexists. }
  split.
  - intros times t Htimes Ht Hlt. unfold cached_property_get. cbv zeta.
    rewrite Htimes. simpl. rewrite Ht.
    destruct (Z.gtb_spec (now w) t); [|lia]. rewrite Hfn. apply Hfresh.
  - unfold cached_property_get, cached_property_delete. cbv zeta. simpl.
    assert (Hnone : default ∅ (delete name <$> _property_cache_expiry_times obj)
                    !! name = None).
    { destruct (_property_cache_expiry_times obj); simpl;
        [apply lookup_delete_eq|apply lookup_empty]. }
    rewrite Hnone, Hfn. apply Hfresh.
Qed.

End CachedPropertyFacts.

Lemma cached_property_cached_witness :
  ∃ obj',
    cached_property_get clock_reading clock_now datetime_min_us datetime_max_us
                        "p" None (mk_cache_obj None None) 5%Z
    = (Ok 5%Z, obj', 1000005%Z, 1)
    ∧ cached_property_get clock_reading clock_now datetime_min_us datetime_max_us
                          "p" None obj' 9000000%Z
      = (Ok 5%Z, obj', 9000000%Z, 0).
Proof.
  eexists. split; [reflexivity|].
  apply (cached_property_cached clock_reading clock_now datetime_min_us
           datetime_max_us "p" None (mk_cache_obj None None) 5%Z 5%Z _ _ 1 eq_refl);
    [done|done|apply clock_now_le_max].
Defined.

Lemma cached_property_recomputed_witness :
  ∃ obj',
    cached_property_get clock_reading clock_now datetime_min_us datetime_max_us
                        "p" None
                        (cached_property_delete "p"
                           (mk_cache_obj (Some {["p" := datetime_max_us]})
                                         (Some {["p" := 5%Z]})))
                        7%Z
    = (Ok 7%Z, obj', 1000007%Z, 1).
Proof.
  apply (cached_property_recomputed clock_reading clock_now datetime_min_us
           datetime_max_us "p" None _ 7%Z 7%Z 1000007%Z eq_refl I).
Defined.

(** *** ignoring_exceptions *)

(** X27: the function made by [ignoring_exceptions] returns what the
    wrapped function returns and lets an exception that is not to be
    ignored through. For an ignored exception, a handler that is not
    callable is the value returned, whatever the arguments of the call are;
    a callable handler is called on the positional and keyword arguments of
    the call cut down to its signature. *)
Theorem ignoring_exceptions_spec {V E : Type}
    (call : callable → list V → gmap string V → result E V)
    (type_error : E) (exceptions : E → bool) (fn : callable) :
  (∀ v, ∃ wrapper,
     ignoring_exceptions call type_error exceptions fn (HandlerValue v) = Ok wrapper
     ∧ ∀ args kwargs,
         wrapper args kwargs
         = match call fn args kwargs with
           | Ok r => Ok r
           | Raise e => if exceptions e then Ok v else Raise e
           end)
  ∧ (∀ c ps,
       signature c = Some ps →
       existsb (is_kind VAR_POSITIONAL) ps = false →
       existsb (is_kind VAR_KEYWORD) ps = false →
       ∃ wrapper,
         ignoring_exceptions call type_error exceptions fn (HandlerCallable c)
         = Ok wrapper
         ∧ ∀ args kwargs,
             wrapper args kwargs
             = match call fn args kwargs with
               | Ok r => Ok r
               | Raise e =>
                   if exceptions e
                   then call c
                          (take (length (filter (λ p, is_positional p = true) ps)) args)
                          (passed_kwargs
                             (Some (name <$> filter (λ p, is_keyword p = true) ps))
                             kwargs)
                   else Raise e
               end).
Proof.
  split.
  - intros v. unfold ignoring_exceptions, ignoring_extra_args. simpl.
    eexists. split; [reflexivity|]. intros args kwargs. simpl.
    destruct (call fn args kwargs) as [r|e]; [done|].
    destruct (exceptions e); [|done].
    rewrite passed_args_take, take_0.
    assert (Hkw : passed_kwargs (Some []) kwargs = ∅).
    { apply map_eq. intros k. rewrite passed_kwargs_lookup, lookup_empty.
      case_decide as Hin; [by apply elem_of_nil in Hin|done]. }
    rewrite Hkw. by rewrite decide_True by apply map_size_empty.
  - intros c ps Hsig Hvp Hvk. unfold ignoring_exceptions, ignoring_extra_args.
    cbn [handler_callable].
    rewrite (number_of_args_signature _ _ Hsig), (all_keyword_args_signature _ _ Hsig).
    rewrite Hvp, Hvk. simpl. eexists. split; [reflexivity|].
    intros args kwargs. simpl. by rewrite passed_args_take.
Qed.

Lemma ignoring_exceptions_spec_witness :
  (∃ wrapper,
     ignoring_exceptions call_example TypeError any_exception checked_fn
                         (HandlerValue 0%Z) = Ok wrapper
     ∧ wrapper [-5]%Z ∅ = Ok 0%Z ∧ wrapper [5]%Z ∅ = Ok 5%Z)
  ∧ (∃ wrapper,
       ignoring_exceptions call_example TypeError any_exception checked_fn
                           (HandlerCallable echo_handler) = Ok wrapper
       ∧ wrapper [-5]%Z ∅ = Ok 995%Z).
Proof.
  destruct (ignoring_exceptions_spec call_example TypeError any_exception checked_fn)
    as [Hvalue Hcallable].
  split.
  - destruct (Hvalue 0%Z) as (wrapper & Hw & Hcall).
    exists wrapper. split; [done|]. by rewrite !Hcall.
  - destruct (Hcallable echo_handler _ eq_refl eq_refl eq_refl)
      as (wrapper & Hw & Hcall).
    exists wrapper. split; [done|]. by rewrite Hcall.
Defined.

(** *** with_retries once more *)

Lemma attempts_eventually {W V E : Type}
    (fn : W → result E V * W) (now : W → Z) (sleep : Z → W → W)
    (datetime_max interval : Z) (exceptions : E → bool)
    (max_retries : option Z) (exc : W → E) (step : W → W) (at_end : outcome E V) :
  (∀ w, (now w <= datetime_max)%Z) →
  ∀ k m a calls w v w',
    k < m →
    (∀ i, a ≤ i < a + k → Some (Z.of_nat i + 1)%Z ≠ max_retries) →
    (∀ j, j < k →
          fn (iterate (next_try sleep interval step) j w)
          = (Raise (exc (iterate (next_try sleep interval step) j w)),
             step (iterate (next_try sleep interval step) j w))
          ∧ exceptions (exc (iterate (next_try sleep interval step) j w)) = true) →
    fn (iterate (next_try sleep interval step) k w) = (Ok v, w') →
    attempts fn now sleep datetime_max max_retries interval exceptions
             (seq a m) at_end calls w
    = (Returned v, calls + S k, w').
Proof.
  intros Hnow. induction k as [|k IH]; intros m a calls w v w' Hkm Hne Hfail Hok.
  - destruct m as [|m]; [lia|]. simpl in Hok |- *. rewrite Hok.
    do 2 f_equal. lia.
  - destruct m as [|m]; [lia|]. cbn [seq].
    destruct (Hfail 0) as [Hfn Hexc]; [lia|]. simpl in Hfn, Hexc.
    rewrite (attempts_raise_then fn now sleep datetime_max interval exceptions
               Hnow max_retries a _ at_end calls w _ _ Hfn Hexc)
      by (apply Hne; lia).
    rewrite (IH m (S a) (S calls) _ v w'); [do 2 f_equal; lia|lia| | |done].
    + intros i Hi. apply Hne. lia.
    + intros j Hj. apply (Hfail (S j)). lia.
Qed.

(** X28: a function that raises handled exceptions on its first [k] calls
    and succeeds on the next one has its value returned after exactly
    [k + 1] calls, the wrapper having slept before each new call; this
    without [max_retries], and with [max_retries] greater than [k]. *)
Theorem with_retries_eventually {W V E : Type}
    (fn : W → result E V * W) (now : W → Z) (sleep : Z → W → W)
    (datetime_min datetime_max interval : Z) (exceptions : E → bool)
    (max_retries : option Z) (exc : W → E) (step : W → W)
    (fuel k : nat) (w0 : W) (v : V) (w' : W) :
  (∀ w, (now w <= datetime_max)%Z) →
  match max_retries with
  | Some n => (Z.of_nat k < n)%Z
  | None => k < fuel
  end →
  (∀ j, j < k →
        fn (iterate (next_try sleep interval step) j w0)
        = (Raise (exc (iterate (next_try sleep interval step) j w0)),
           step (iterate (next_try sleep interval step) j w0))
        ∧ exceptions (exc (iterate (next_try sleep interval step) j w0)) = true) →
  fn (iterate (next_try sleep interval step) k w0) = (Ok v, w') →
  with_retries fn now sleep datetime_min datetime_max max_retries None
               interval exceptions fuel w0
  = (Returned v, S k, w').
Proof.
  intros Hnow Hk Hfail Hok. unfold with_retries, end_time.
  destruct max_retries as [n|].
  - apply (attempts_eventually fn now sleep datetime_max interval exceptions
             (Some n) exc step ReturnedNone Hnow k (Z.to_nat n) 0 0 w0 v w');
      [lia| |done|done].
    intros i Hi [= Hn]. lia.
  - by apply (attempts_eventually fn now sleep datetime_max interval exceptions
                None exc step Unfinished Hnow k fuel 0 0 w0 v w').
Qed.

Lemma with_retries_eventually_witness :
  with_retries failing_twice clock_now clock_sleep datetime_min_us datetime_max_us
               None None 500000 any_exception 5 0%Z
  = (Returned "done", 3, 1000000%Z).
Proof.
  apply (with_retries_eventually failing_twice clock_now clock_sleep
           datetime_min_us datetime_max_us 500000 any_exception None
           (λ _, ValueError) (λ t, t) 5 2 0%Z "done" 1000000%Z).
  - apply clock_now_le_max.
  - lia.
  - intros j Hj. destruct j as [|[|j]]; [done|done|lia].
  - reflexivity.
Defined.

(** *** riffle_shuffle *)

Section RiffleShuffleFacts.
Context {A : Type}.
Variable is_nan : A → bool.

Lemma zip_longest_shared_nil (n : nat) :
  zip_longest_shared (A:=A) [] n = [].
Proof.
  unfold zip_longest_shared. destruct n as [|n]; [done|].
  rewrite Nat.div_small; [done|]. simpl. lia.
Qed.

Lemma zip_longest_shared_step (l : list (option A)) (n : nat) :
  0 < n → l ≠ [] →
  zip_longest_shared l n
  = (take n l ++ replicate (n - length (take n l)) None)
      :: zip_longest_shared (drop n l) n.
Proof.
  intros Hn Hl. unfold zip_longest_shared.
  assert (Hlen : 0 < length l) by (destruct l; [done|simpl; lia]).
  assert (Hdiv : (length l + n - 1) / n = S ((length (drop n l) + n - 1) / n)).
  { rewrite length_drop. symmetry.
    destruct (decide (n ≤ length l)) as [Hle|Hgt].
    - replace (length l + n - 1) with ((length l - n + n - 1) + 1 * n) by lia.
      rewrite Nat.div_add by lia. lia.
    - replace (length l - n + n - 1) with (n - 1) by lia.
      rewrite (Nat.div_small (n - 1)) by lia.
      apply (Nat.div_unique _ _ 1 (length l - 1)); lia. }
  rewrite Hdiv. cbn [seq fmap list_fmap]. f_equal.
  rewrite <- fmap_S_seq, <- list_fmap_compose. apply list_fmap_ext.
  intros i x _. simpl. by rewrite drop_drop.
Qed.

Lemma zip_longest_shared_ind (P : list (option A) → Prop) (n : nat) :
  0 < n →
  P [] →
  (∀ l, l ≠ [] → P (drop n l) → P l) →
  ∀ l, P l.
Proof.
  intros Hn Hnil Hstep l.
  assert (H : ∀ k l, length l ≤ k → P l); [|by apply (H (length l))].
  clear l. induction k as [|k IH]; intros l Hk.
  - destruct l; [done|simpl in Hk; lia].
  - destruct l as [|x l]; [done|]. apply Hstep; [done|].
    apply IH. rewrite length_drop. simpl in *. lia.
Qed.

Lemma zip_longest_shared_rows (l : list (option A)) (n : nat) :
  Forall (λ r, length r = n) (zip_longest_shared l n).
Proof.
  unfold zip_longest_shared. apply Forall_fmap, Forall_forall.
  intros i _. simpl. rewrite length_app, length_replicate, length_take. lia.
Qed.

Lemma join_cons_eq {B} (r : list B) (rs : list (list B)) :
  mjoin (r :: rs) = r ++ mjoin rs.
Proof. reflexivity. Qed.

Lemma filter_replicate_None (k : nat) :
  filter (λ x, none_or_nan is_nan x = false) (replicate k None) = [].
Proof. induction k as [|k IH]; [done|]. simpl. by rewrite filter_cons_False. Qed.

Lemma zip_longest_shared_filter (l : list (option A)) (n : nat) :
  0 < n →
  filter (λ x, none_or_nan is_nan x = false) (mjoin (zip_longest_shared l n))
  = filter (λ x, none_or_nan is_nan x = false) l.
Proof.
  intros Hn. revert l. apply (zip_longest_shared_ind _ n Hn).
  - by rewrite zip_longest_shared_nil.
  - intros l Hl IH. rewrite zip_longest_shared_step by done.
    rewrite join_cons_eq, !filter_app, filter_replicate_None, IH.
    rewrite app_nil_r, <- filter_app. by rewrite take_drop.
Qed.

Lemma join_singletons {B} (r : list B) : mjoin ((λ x, [x]) <$> r) = r.
Proof.
  induction r as [|x r IH]; [done|].
  cbn [fmap list_fmap]. by rewrite join_cons_eq, IH.
Qed.

Lemma join_zip_with_cons {B} (r : list B) (T : list (list B)) :
  length r = length T →
  mjoin (zip_with cons r T) ≡ₚ r ++ mjoin T.
Proof.
  revert T. induction r as [|x r IH]; intros [|t T] Hlen; try done.
  cbn [zip_with]. rewrite !join_cons_eq, IH by (simpl in Hlen; lia).
  simpl. constructor. apply Permutation_app_swap_app.
Qed.

Lemma zip_star_length {B} (M : list (list B)) (n : nat) :
  M ≠ [] → Forall (λ r, length r = n) M → length (zip_star M) = n.
Proof.
  induction M as [|r M IH]; [done|]. intros _ Hrows.
  apply Forall_cons in Hrows as [Hr Hrows].
  destruct M as [|r' M].
  - simpl. by rewrite length_fmap.
  - change (zip_star (r :: r' :: M)) with (zip_with cons r (zip_star (r' :: M))).
    rewrite length_zip_with, IH by done. lia.
Qed.

Lemma zip_star_Permutation {B} (M : list (list B)) (n : nat) :
  Forall (λ r, length r = n) M → mjoin (zip_star M) ≡ₚ mjoin M.
Proof.
  induction M as [|r M IH]; [done|]. intros Hrows.
  apply Forall_cons in Hrows as [Hr Hrows].
  destruct M as [|r' M].
  - cbn [zip_star]. by rewrite join_singletons, join_cons_eq, app_nil_r.
  - change (zip_star (r :: r' :: M)) with (zip_with cons r (zip_star (r' :: M))).
    rewrite join_zip_with_cons.
    + by rewrite (join_cons_eq r), IH.
    + by rewrite (zip_star_length _ n).
Qed.

Lemma riffle_shuffle_Permutation_aux (l : list (option A)) (k : nat) :
  0 < k →
  filter (λ x, none_or_nan is_nan x = false)
         (mjoin (zip_star (zip_longest_shared l k)))
  ≡ₚ filter (λ x, none_or_nan is_nan x = false) l.
Proof.
  intros Hk.
  rewrite (zip_star_Permutation _ k) by apply zip_longest_shared_rows.
  by rewrite zip_longest_shared_filter.
Qed.

Lemma filter_Forall_id {B} (P : B → Prop) `{∀ x, Decision (P x)} (l : list B) :
  Forall P l → filter P l = l.
Proof.
  induction l as [|x l IH]; [done|]. intros Hall.
  apply Forall_cons in Hall as [Hx Hl]. by rewrite filter_cons_True, IH.
Qed.

(** X29: for [n >= 1], [riffle_shuffle] yields the elements of the input
    that are neither [None] nor nan, each as often as the input has it, in
    some order: nothing else is lost or added. For [n <= 0] it yields
    nothing. *)
Theorem riffle_shuffle_Permutation (l : list (option A)) (n : Z) :
  ((1 <= n)%Z →
   riffle_shuffle is_nan l n ≡ₚ filter (λ x, none_or_nan is_nan x = false) l)
  ∧ ((n <= 0)%Z → riffle_shuffle is_nan l n = []).
Proof.
  split; intros Hn; unfold riffle_shuffle.
  - apply riffle_shuffle_Permutation_aux. lia.
  - replace (Z.to_nat n) with 0 by lia. unfold zip_longest_shared.
    by replace ((length l + 0 - 1) / 0) with 0.
Qed.

Lemma zip_longest_shared_lookup (l : list (option A)) (n m j : nat) :
  0 < n → length l = m * n → j < m →
  zip_longest_shared l n !! j = Some (take n (drop (j * n) l)).
Proof.
  intros Hn Hlen Hj. unfold zip_longest_shared.
  assert (Hm : (length l + n - 1) / n = m).
  { symmetry. apply (Nat.div_unique _ _ _ (n - 1)); [lia|]. rewrite Hlen. lia. }
  rewrite Hm, list_lookup_fmap, lookup_seq_lt by done. simpl.
  rewrite length_take, length_drop.
  replace (n - n `min` (length l - j * n)) with 0 by nia.
  by rewrite app_nil_r.
Qed.

(** X30: on an input of [m * n] elements without [None] and nan, the
    shuffle with [n >= 1] deals the elements into [n] decks of [m] and
    yields the decks one after the other: the element at position
    [j * n + c] of the input comes out at position [c * m + j]. *)
Theorem riffle_shuffle_positions (l : list (option A)) (n : Z) (m : nat) :
  (1 <= n)%Z →
  length l = m * Z.to_nat n →
  Forall (λ x, none_or_nan is_nan x = false) l →
  length (riffle_shuffle is_nan l n) = length l
  ∧ ∀ c j, c < Z.to_nat n → j < m →
      riffle_shuffle is_nan l n !! (c * m + j) = l !! (j * Z.to_nat n + c).
Proof.
  intros Hn Hlen Hok. unfold riffle_shuffle.
  set (k := Z.to_nat n) in *.
  assert (Hk : 0 < k) by lia.
  set (M := zip_longest_shared l k).
  assert (Hrows : Forall (λ r, length r = k) M) by apply zip_longest_shared_rows.
  assert (HM : ∀ j, j < m → M !! j = Some (take k (drop (j * k) l))).
  { intros j Hj. by apply (zip_longest_shared_lookup l k m j). }
  assert (HMlen : length M = m).
  { unfold M, zip_longest_shared. rewrite length_fmap, length_seq.
    symmetry. apply (Nat.div_unique _ _ _ (k - 1)); [lia|]. rewrite Hlen. lia. }
  destruct (decide (m = 0)) as [->|Hm].
  { destruct l; [|done]. destruct M; [|done]. split; [done|]. intros; lia. }
  assert (HMne : M ≠ []) by (destruct M; [simpl in HMlen; lia|done]).
  assert (HT : ∀ c row, zip_star M !! c = Some row →
                 length row = m ∧ ∀ j, j < m → row !! j = l !! (j * k + c)).
  { intros c row Hrow. apply zip_star_lookup in Hrow; [|done].
    split; [by rewrite <- (Forall2_length _ _ _ Hrow)|].
    intros j Hj.
    destruct (Forall2_lookup_l _ _ _ _ _ Hrow (HM j Hj)) as (x & -> & Hx).
    rewrite <- Hx, lookup_take_lt, lookup_drop; [done|].
    by apply lookup_lt_Some in Hx; rewrite length_take in Hx; lia. }
  assert (HTrows : Forall (λ r, length r = m) (zip_star M)).
  { apply Forall_forall. intros row Hin.
    apply list_elem_of_lookup in Hin as [c Hc]. by apply HT in Hc as [? _]. }
  assert (Hall : Forall (λ x, none_or_nan is_nan x = false) (mjoin (zip_star M))).
  { apply Forall_forall. intros x Hx.
    apply list_elem_of_lookup in Hx as [i Hi].
    apply (join_lookup_Some_same_length m) in Hi as (c & row & j & Hc & Hj & ->);
      [|done].
    destruct (HT c row Hc) as [Hlenrow Hat].
    rewrite Hat in Hj by (apply lookup_lt_Some in Hj; lia).
    rewrite Forall_forall in Hok. apply Hok. by eapply list_elem_of_lookup_2. }
  split.
  - unfold M. rewrite (Permutation_length (riffle_shuffle_Permutation_aux l k Hk)).
    by rewrite filter_Forall_id.
  - rewrite (filter_Forall_id _ _ Hall).
    intros c j Hc Hj.
    destruct (zip_star M !! c) as [row|] eqn:Hrow.
    + destruct (HT c row Hrow) as [Hlenrow Hat].
      destruct (l !! (j * k + c)) as [x|] eqn:Hx.
      * apply (join_lookup_Some_same_length' m); [done|done|].
        exists row. split; [done|]. by rewrite Hat.
      * apply lookup_ge_None in Hx. nia.
    + apply lookup_ge_None in Hrow.
      rewrite (zip_star_length M k) in Hrow by done. lia.
Qed.
End RiffleShuffleFacts.

Lemma riffle_shuffle_Permutation_witness :
  riffle_shuffle no_nan [Some 1; None; Some 2; Some 3; Some 4]%Z 3
  ≡ₚ [Some 1; Some 2; Some 3; Some 4]%Z
  ∧ riffle_shuffle no_nan [Some 1; None; Some 2; Some 3; Some 4]%Z 0 = [].
Proof.
  destruct (riffle_shuffle_Permutation no_nan
              [Some 1; None; Some 2; Some 3; Some 4]%Z 3) as [Hperm _].
  destruct (riffle_shuffle_Permutation no_nan
              [Some 1; None; Some 2; Some 3; Some 4]%Z 0) as [_ Hnil].
  split; [apply Hperm; lia|apply Hnil; lia].
Defined.

Lemma riffle_shuffle_positions_witness :
  length (riffle_shuffle no_nan (Some <$> [1; 2; 3; 4; 5; 6]%Z) 2) = 6
  ∧ riffle_shuffle no_nan (Some <$> [1; 2; 3; 4; 5; 6]%Z) 2 !! 3 = Some (Some 2%Z).
Proof.
  destruct (riffle_shuffle_positions no_nan (Some <$> [1; 2; 3; 4; 5; 6]%Z) 2 3)
    as [Hlen Hat].
  - lia.
  - reflexivity.
  - by repeat constructor.
  - split; [exact Hlen|]. apply (Hat 1 0); simpl; lia.
Defined.

End UtilsExtra.
